(** * Fleet subscription orchestration of the Redfish exporter

    A shallow embedding of [redfish-exporter/redfish_utils.go].

    The Go code talks to baseboard management controllers through the
    [gofish] client library and fans work out over goroutines.  The
    embedding keeps both aspects explicit:

    - every function of the file is a program ([prog]) whose nodes are the
      calls it makes into [gofish], its [log.Printf] lines and, for the
      goroutine bodies, its operations on the shared mutex, map and channel;
    - a program is run either sequentially ([interp]) or as one goroutine of
      a pool that a schedule interleaves ([exec]); the controllers answer
      through an arbitrary stateful backend ([Backend]);
    - every step is appended to an event log, so that statements about
      "which call was made, by whom, with which arguments" are statements
      about that log. *)

From stdpp Require Import base option list gmap strings pretty fin_maps.

Open Scope string_scope.
Open Scope list_scope.
Open Scope nat_scope.

(** ** Data model *)

(** Go's [error], observed through its message. *)
Definition error : Type := string.

(** [type RedfishServer struct]. *)
Record RedfishServer : Type := {
  IP : string;
  Username : string;
  Password : string;
  LoginType : string;
  SlurmNode : string
}.

(** [RedfishServer{}], the zero value. *)
Definition zeroServer : RedfishServer :=
  {| IP := ""; Username := ""; Password := ""; LoginType := ""; SlurmNode := "" |}.

(** [type SubscriptionPayload struct].  The [redfish.EventType],
    [redfish.DeliveryRetryPolicy] and [redfish.EventDestinationProtocol]
    types are Go string types; [Oem] is an [interface{}] that the code only
    forwards, represented by its encoding. *)
Record SubscriptionPayload : Type := {
  Destination : string;
  EventTypes : list string;
  RegistryPrefixes : list string;
  ResourceTypes : list string;
  DeliveryRetryPolicy : string;
  HTTPHeaders : gmap string string;
  Oem : string;
  Protocol : string;
  Context_ : string
}.

(** A payload with other modern-shape fields: registry prefixes, resource
    types and delivery-retry policy. *)
Definition withModernFields (payload : SubscriptionPayload)
    (registryPrefixes resourceTypes : list string)
    (deliveryRetryPolicy : string) : SubscriptionPayload :=
  {| Destination := Destination payload; EventTypes := EventTypes payload;
     RegistryPrefixes := registryPrefixes; ResourceTypes := resourceTypes;
     DeliveryRetryPolicy := deliveryRetryPolicy;
     HTTPHeaders := HTTPHeaders payload; Oem := Oem payload;
     Protocol := Protocol payload; Context_ := Context_ payload |}.

(** A payload with other event types. *)
Definition withEventTypes (payload : SubscriptionPayload)
    (eventTypes : list string) : SubscriptionPayload :=
  {| Destination := Destination payload; EventTypes := eventTypes;
     RegistryPrefixes := RegistryPrefixes payload;
     ResourceTypes := ResourceTypes payload;
     DeliveryRetryPolicy := DeliveryRetryPolicy payload;
     HTTPHeaders := HTTPHeaders payload; Oem := Oem payload;
     Protocol := Protocol payload; Context_ := Context_ payload |}.

(** [gofish.ClientConfig], restricted to the fields the code sets. *)
Record ClientConfig : Type := {
  Endpoint : string;
  cfgUsername : string;
  cfgPassword : string;
  Insecure : bool
}.

(** Modelled from the spec: [redfish.EventDestination] is declared by the
    gofish library.  An active subscription is "identified there by an opaque
    resource identifier and resource address; has a destination URL used for
    duplicate detection"; the filters, headers and context it was created
    with are kept as well. *)
Record EventDestination : Type := {
  edID : string;
  edODataID : string;
  edDestination : string;
  edEventTypes : list string;
  edHTTPHeaders : gmap string string;
  edContext : string
}.

(** ** The gofish interface *)

Section Calls.
Variables APIClient EventService : Type.

(** The library entry points the file uses.  The two create calls take
    their arguments in the order of the gofish signatures. *)
Inductive call : Type :=
| Connect (config : ClientConfig)
| Logout (c : APIClient)
| GetEventService (c : APIClient)
| CreateEventSubscriptionInstance
    (es : EventService) (destination : string)
    (registryPrefixes resourceTypes : list string)
    (httpHeaders : gmap string string) (protocol context : string)
    (deliveryRetryPolicy : string) (oem : string)
| CreateEventSubscription
    (es : EventService) (destination : string) (eventTypes : list string)
    (httpHeaders : gmap string string) (protocol context : string)
    (oem : string)
| DeleteEventSubscription (es : EventService) (uri : string)
| GetEventSubscriptions (es : EventService).

(** What each entry point hands back: [inl] is a non-nil error. *)
Definition reply (c : call) : Type :=
  match c with
  | Connect _ => (error + APIClient)%type
  | Logout _ => unit
  | GetEventService _ => (error + EventService)%type
  | CreateEventSubscriptionInstance _ _ _ _ _ _ _ _ _ => (error + string)%type
  | CreateEventSubscription _ _ _ _ _ _ _ => (error + string)%type
  | DeleteEventSubscription _ _ => option error
  | GetEventSubscriptions _ => (error + list EventDestination)%type
  end.
End Calls.

Arguments Connect {APIClient EventService} config.
Arguments Logout {APIClient EventService} c.
Arguments GetEventService {APIClient EventService} c.
Arguments CreateEventSubscriptionInstance {APIClient EventService}.
Arguments CreateEventSubscription {APIClient EventService}.
Arguments DeleteEventSubscription {APIClient EventService} es uri.
Arguments GetEventSubscriptions {APIClient EventService} es.

(** The opaque handle types of the library. *)
Class Handles : Type := {
  APIClient : Type;
  EventService : Type
}.

(** A backend is the fleet of controllers seen through the library: a state
    and, for every call, an answer and a next state. *)
Class Backend `{Handles} : Type := {
  World : Type;
  gofish : ∀ c : call APIClient EventService,
      World → reply APIClient EventService c * World
}.

(** ** Programs *)

Section Programs.
Context `{Handles}.

(** One step of a function of the file: a call into the library, a line
    for the logger, [mu.Lock()], [mu.Unlock()],
    [subscriptionMap[key] = value] or [errChan <- err]. *)
Inductive action : Type :=
| Gofish (c : call APIClient EventService)
| LogPrintf (line : string)
| MuLock
| MuUnlock
| MapStore (key value : string)
| ChanSend (err : error).

Definition result (a : action) : Type :=
  match a with
  | Gofish c => reply APIClient EventService c
  | _ => unit
  end.

Inductive prog (A : Type) : Type :=
| Ret (a : A)
| Vis (a : action) (k : result a → prog A).
Global Arguments Ret {A} a.
Global Arguments Vis {A} a k.

Fixpoint bind {A B} (p : prog A) (f : A → prog B) : prog B :=
  match p with
  | Ret a => f a
  | Vis a k => Vis a (λ r, bind (k r) f)
  end.

Global Instance prog_ret : MRet prog := λ A a, Ret a.
Global Instance prog_bind : MBind prog := λ A B f p, bind p f.

Definition perform (a : action) : prog (result a) := Vis a Ret.
Definition lib (c : call APIClient EventService) : prog (reply _ _ c) :=
  perform (Gofish c).
Definition logPrintf (line : string) : prog unit := perform (LogPrintf line).

(** [defer c.Logout()]: the session is closed when the enclosing function
    returns, whatever it returns. *)
Definition deferLogout {A} (c : APIClient) (body : prog A) : prog A :=
  r ← body; _ ← lib (Logout c); mret r.

(** *** Single-target client *)

(** The [gofish.ClientConfig] that [getRedfishClient] builds. *)
Definition configOf (server : RedfishServer) : ClientConfig :=
  {| Endpoint := IP server; cfgUsername := Username server;
     cfgPassword := Password server; Insecure := true |}.

Definition getRedfishClient (server : RedfishServer)
  : prog (error + APIClient) :=
  let clientConfig := configOf server in
  r ← lib (Connect clientConfig);
  match r with
  | inl err =>
      _ ← logPrintf ("Error connecting to redfish server " +:+ IP server
                      +:+ ": " +:+ err);
      mret (inl err)
  | inr c =>
      _ ← logPrintf ("Successfully connected to redfish server "
                      +:+ IP server);
      mret (inr c)
  end.

Definition isV1_5 : bool := false.

Definition createV1_5Subscription (eventService : EventService)
    (payload : SubscriptionPayload) : prog (string * option error) :=
  r ← lib (CreateEventSubscriptionInstance eventService
             (Destination payload) (RegistryPrefixes payload)
             (ResourceTypes payload) (HTTPHeaders payload)
             (Protocol payload) (Context_ payload)
             (DeliveryRetryPolicy payload) (Oem payload));
  match r with
  | inl err => mret ("", Some ("failed to create v1.5 subscription: " +:+ err))
  | inr subscriptionURI => mret (subscriptionURI, None)
  end.

Definition createLegacySubscription (eventService : EventService)
    (payload : SubscriptionPayload) : prog (string * option error) :=
  r ← lib (CreateEventSubscription eventService
             (Destination payload) (EventTypes payload)
             (HTTPHeaders payload) (Protocol payload) (Context_ payload)
             (Oem payload));
  match r with
  | inl err => mret ("", Some ("failed to create legacy subscription: " +:+ err))
  | inr subscriptionURI => mret (subscriptionURI, None)
  end.

Definition deleteSubscriptionFromServer (server : RedfishServer)
    (subscriptionURI : string) : prog (option error) :=
  r ← getRedfishClient server;
  match r with
  | inl err =>
      mret (Some ("failed to connect to server " +:+ IP server +:+ ": " +:+ err))
  | inr c =>
      deferLogout c (
        es ← lib (GetEventService c);
        match es with
        | inl err =>
            mret (Some ("failed to get event service on server "
                        +:+ IP server +:+ ": " +:+ err))
        | inr eventService =>
            d ← lib (DeleteEventSubscription eventService subscriptionURI);
            match d with
            | Some err =>
                mret (Some ("failed to delete event subscription on server "
                            +:+ IP server +:+ ": " +:+ err))
            | None => mret None
            end
        end)
  end.

Definition getServerSubscriptions (server : RedfishServer)
  : prog (error + list EventDestination) :=
  r ← getRedfishClient server;
  match r with
  | inl err =>
      mret (inl ("failed to connect to server " +:+ IP server +:+ ": " +:+ err))
  | inr c =>
      deferLogout c (
        es ← lib (GetEventService c);
        match es with
        | inl err =>
            mret (inl ("failed to get event service on server "
                       +:+ IP server +:+ ": " +:+ err))
        | inr eventService =>
            l ← lib (GetEventSubscriptions eventService);
            match l with
            | inl err =>
                mret (inl ("failed to get event subscriptions on server "
                           +:+ IP server +:+ ": " +:+ err))
            | inr subscriptions => mret (inr subscriptions)
            end
        end)
  end.

(** The [for _, subscription := range subscriptions] loop of
    [deleteConflictingSubscriptions]; a failed delete returns from the
    function, leaving the rest of the list unvisited. *)
Fixpoint deleteConflictingLoop (server : RedfishServer)
    (payload : SubscriptionPayload) (subscriptions : list EventDestination)
  : prog (option error) :=
  match subscriptions with
  | [] => mret None
  | subscription :: rest =>
      if String.eqb (edDestination subscription) (Destination payload) then
        err ← deleteSubscriptionFromServer server (edODataID subscription);
        match err with
        | Some e =>
            mret (Some ("failed to delete event subscription "
                        +:+ edID subscription +:+ ", on server "
                        +:+ IP server +:+ ": " +:+ e))
        | None =>
            _ ← logPrintf ("successfully deleted overlapping event subscription "
                            +:+ edID subscription +:+ " from server "
                            +:+ IP server);
            deleteConflictingLoop server payload rest
        end
      else deleteConflictingLoop server payload rest
  end.

Definition deleteConflictingSubscriptions (server : RedfishServer)
    (payload : SubscriptionPayload) : prog (option error) :=
  r ← getServerSubscriptions server;
  match r with
  | inl err => mret (Some err)
  | inr subscriptions => deleteConflictingLoop server payload subscriptions
  end.

(** [createSubscription] calls [deleteConflictingSubscriptions] as a
    statement: the error it returns is dropped. *)
Definition createSubscription (server : RedfishServer)
    (payload : SubscriptionPayload) : prog (string * option error) :=
  r ← getRedfishClient server;
  match r with
  | inl err =>
      mret ("", Some ("failed to connect to server " +:+ IP server
                      +:+ ": " +:+ err))
  | inr c =>
      deferLogout c (
        es ← lib (GetEventService c);
        match es with
        | inl err =>
            mret ("", Some ("failed to get event service on server "
                            +:+ IP server +:+ ": " +:+ err))
        | inr eventService =>
            _ ← deleteConflictingSubscriptions server payload;
            if isV1_5 then createV1_5Subscription eventService payload
            else createLegacySubscription eventService payload
        end)
  end.

(** [getServerInfo]: first descriptor with the address, else the zero
    value. *)
Fixpoint getServerInfo (redfishServers : list RedfishServer)
    (serverIP : string) : RedfishServer :=
  match redfishServers with
  | [] => zeroServer
  | redfishServer :: rest =>
      if String.eqb (IP redfishServer) serverIP then redfishServer
      else getServerInfo rest serverIP
  end.

(** *** Goroutine bodies *)

(** [fmt.Errorf("subscription failed on server %s: %v", server.IP, err)]. *)
Definition failureMessage (server : RedfishServer) (e : error) : error :=
  "subscription failed on server " +:+ IP server +:+ ": " +:+ e.

(** The closure started per server by [CreateSubscriptionsForAllServers];
    its [defer wg.Done()] is the return of the program. *)
Definition createWorker (payload : SubscriptionPayload)
    (server : RedfishServer) : prog unit :=
  '(subscriptionURI, err) ← createSubscription server payload;
  match err with
  | Some e => perform (ChanSend (failureMessage server e))
  | None =>
      _ ← perform MuLock;
      _ ← perform (MapStore (IP server) subscriptionURI);
      _ ← perform MuUnlock;
      logPrintf ("Successfully created subscription on redfish server "
                 +:+ IP server +:+ ": " +:+ subscriptionURI)
  end.

(** The closure started per map entry by
    [DeleteSubscriptionsFromAllServers]; its [defer wg.Done()] is the return
    of the program. *)
Definition deleteWorker (redfishServers : list RedfishServer)
    (entry : string * string) : prog unit :=
  let '(serverIP, subscriptionURI) := entry in
  let server := getServerInfo redfishServers serverIP in
  err ← deleteSubscriptionFromServer server subscriptionURI;
  match err with
  | Some e =>
      logPrintf ("Failed to delete event subscription on server "
                 +:+ IP server +:+ ": " +:+ e)
  | None =>
      logPrintf ("Successfully deleted event subscription from server "
                 +:+ IP server +:+ ": " +:+ subscriptionURI)
  end.

End Programs.

(** ** Event logs and the runs of a program *)

Section Runs.
Context `{Handles}.

(** What a step was answered, in one type for all steps: nothing to report,
    a non-nil error, or the value handed back. *)
Inductive answer : Type :=
| Done
| Failed (e : error)
| Session (c : APIClient)
| Service (es : EventService)
| Created (uri : string)
| Listed (subscriptions : list EventDestination).

Definition encode (a : action) : result a → answer :=
  match a return result a → answer with
  | Gofish c =>
      match c return reply _ _ c → answer with
      | Connect _ => λ r, match r with inl e => Failed e | inr c => Session c end
      | Logout _ => λ _, Done
      | GetEventService _ =>
          λ r, match r with inl e => Failed e | inr es => Service es end
      | CreateEventSubscriptionInstance _ _ _ _ _ _ _ _ _ =>
          λ r, match r with inl e => Failed e | inr uri => Created uri end
      | CreateEventSubscription _ _ _ _ _ _ _ =>
          λ r, match r with inl e => Failed e | inr uri => Created uri end
      | DeleteEventSubscription _ _ =>
          λ r, match r with Some e => Failed e | None => Done end
      | GetEventSubscriptions _ =>
          λ r, match r with inl e => Failed e | inr l => Listed l end
      end
  | _ => λ _, Done
  end.

(** A step together with the answer it received. *)
Definition item : Type := action * answer.

Definition did (a : action) (r : result a) : item := (a, encode a r).

(** [reaches p tr q]: issuing the steps of [tr], and receiving the answers
    recorded there, takes [p] to [q]. *)
Fixpoint reaches {A} (p : prog A) (tr : list item) (q : prog A) : Prop :=
  match p with
  | Ret x => tr = [] ∧ q = Ret x
  | Vis a k =>
      (tr = [] ∧ q = Vis a k) ∨
      ∃ r tr', tr = did a r :: tr' ∧ reaches (k r) tr' q
  end.

(** [is_run p tr x]: [tr] is a complete run of [p], which returns [x]. *)
Definition is_run {A} (p : prog A) (tr : list item) (x : A) : Prop :=
  reaches p tr (Ret x).

(** [returned p tr x]: the log [tr] starts with a complete run of [p]
    returning [x]. *)
Definition returned {A} (p : prog A) (tr : list item) (x : A) : Prop :=
  ∃ tr1 tr2, tr = tr1 ++ tr2 ∧ is_run p tr1 x.

(** Two programs with the same complete runs. *)
Definition sameRuns {A} (p q : prog A) : Prop :=
  ∀ tr x, is_run p tr x ↔ is_run q tr x.

(** Projections of a log. *)
Definition storeOf (it : item) : option (string * string) :=
  match it.1 with MapStore key value => Some (key, value) | _ => None end.
Definition sendOf (it : item) : option error :=
  match it.1 with ChanSend err => Some err | _ => None end.
Definition connectOf (it : item) : option ClientConfig :=
  match it.1 with Gofish (Connect config) => Some config | _ => None end.
Definition deleteOf (it : item) : option string :=
  match it.1 with
  | Gofish (DeleteEventSubscription _ uri) => Some uri
  | _ => None
  end.
(** The subscriptions whose deletion the controller acknowledged. *)
Definition deletedOf (it : item) : option string :=
  match it with
  | (Gofish (DeleteEventSubscription _ uri), Done) => Some uri
  | _ => None
  end.
Definition logOf (it : item) : option string :=
  match it.1 with LogPrintf line => Some line | _ => None end.

(** The create requests of a log, by shape. *)
Inductive createRequest : Type :=
| LegacyShape (destination : string) (eventTypes : list string)
    (httpHeaders : gmap string string) (protocol context oem : string)
| ModernShape (destination : string)
    (registryPrefixes resourceTypes : list string)
    (httpHeaders : gmap string string) (protocol context : string)
    (deliveryRetryPolicy oem : string).

Definition createOf (it : item) : option createRequest :=
  match it.1 with
  | Gofish (CreateEventSubscription _ d ets h p c o) =>
      Some (LegacyShape d ets h p c o)
  | Gofish (CreateEventSubscriptionInstance _ d rp rt h p c pol o) =>
      Some (ModernShape d rp rt h p c pol o)
  | _ => None
  end.

(** The answer to a listing, when the step is one. *)
Definition listedOf (it : item) : option answer :=
  match it.1 with
  | Gofish (GetEventSubscriptions _) => Some it.2
  | _ => None
  end.

(** The request that the legacy create call carries for a payload. *)
Definition legacyRequest (payload : SubscriptionPayload) : createRequest :=
  LegacyShape (Destination payload) (EventTypes payload) (HTTPHeaders payload)
    (Protocol payload) (Context_ payload) (Oem payload).

(** The log starts with a session that was opened and whose event service
    was obtained. *)
Definition sessionOpened (tr : list item) : Prop :=
  ∃ config c line es rest,
    tr = (Gofish (Connect config), Session c) :: (LogPrintf line, Done)
         :: (Gofish (GetEventService c), Service es) :: rest.

(** The line that [getRedfishClient] logs for an answer to its connection
    attempt. *)
Definition connectLine (server : RedfishServer) (r : error + APIClient)
  : string :=
  match r with
  | inl err => "Error connecting to redfish server " +:+ IP server
               +:+ ": " +:+ err
  | inr _ => "Successfully connected to redfish server " +:+ IP server
  end.

(** [disciplined h p]: [p], started holding the mutex or not according to
    [h], locks only when it does not hold the mutex, unlocks only when it
    does, sends only when it does not, and returns without it. *)
Fixpoint disciplined (h : bool) (p : prog unit) : Prop :=
  match p with
  | Ret _ => h = false
  | Vis a k =>
      match a with
      | MuLock => h = false ∧ ∀ r, disciplined true (k r)
      | MuUnlock => h = true ∧ ∀ r, disciplined false (k r)
      | ChanSend _ => h = false ∧ ∀ r, disciplined false (k r)
      | _ => ∀ r, disciplined h (k r)
      end
  end.

(** What a create goroutine does once [createSubscription] has returned
    [outcome] for [server]. *)
Definition workerTail (server : RedfishServer)
    (outcome : string * option error) : list item :=
  match outcome.2 with
  | Some e => [did (ChanSend (failureMessage server e)) ()]
  | None =>
      [did MuLock (); did (MapStore (IP server) outcome.1) (); did MuUnlock ();
       did (LogPrintf ("Successfully created subscription on redfish server "
                       +:+ IP server +:+ ": " +:+ outcome.1)) ()]
  end.

(** The map entry, or the error message, that an outcome gives rise to. *)
Definition successOf (so : RedfishServer * (string * option error))
  : option (string * string) :=
  match so.2.2 with None => Some (IP so.1, so.2.1) | Some _ => None end.
Definition failureOf (so : RedfishServer * (string * option error))
  : option error :=
  match so.2.2 with Some e => Some (failureMessage so.1 e) | None => None end.

(** Classes of steps. *)
Definition isSync (a : action) : bool :=
  match a with
  | MuLock | MuUnlock | MapStore _ _ | ChanSend _ => true
  | _ => false
  end.

Definition isCreate (a : action) : bool :=
  match a with
  | Gofish (CreateEventSubscription _ _ _ _ _ _ _)
  | Gofish (CreateEventSubscriptionInstance _ _ _ _ _ _ _ _ _) => true
  | _ => false
  end.

(** Opening and closing a session, and logging. *)
Definition isSessionOp (a : action) : bool :=
  match a with
  | Gofish (Connect _) | Gofish (Logout _) | Gofish (GetEventService _)
  | LogPrintf _ => true
  | _ => false
  end.

Definition isList (a : action) : bool :=
  match a with Gofish (GetEventSubscriptions _) => true | _ => false end.

Definition isDelete (a : action) : bool :=
  match a with Gofish (DeleteEventSubscription _ _) => true | _ => false end.

(** The steps of the single-target operations. *)
Definition isDeleteOp (a : action) : bool := isSessionOp a || isDelete a.
Definition isListOp (a : action) : bool := isSessionOp a || isList a.
Definition isCleanupOp (a : action) : bool := isDeleteOp a || isList a.
Definition isClientOp (a : action) : bool := isCleanupOp a || isCreate a.

(** [uses Q p]: every step that [p] can take is in the class [Q]. *)
Fixpoint uses {A} (Q : action → bool) (p : prog A) : Prop :=
  match p with
  | Ret _ => True
  | Vis a k => Q a = true ∧ ∀ r, uses Q (k r)
  end.

(** [sendsAtMost n p]: on every path, [p] sends at most [n] errors. *)
Fixpoint sendsAtMost {A} (n : nat) (p : prog A) : Prop :=
  match p with
  | Ret _ => True
  | Vis a k =>
      match a, n with
      | ChanSend _, 0 => False
      | ChanSend _, S m => ∀ r, sendsAtMost m (k r)
      | _, _ => ∀ r, sendsAtMost n (k r)
      end
  end.

Global Instance ClientConfig_eq_dec : EqDecision ClientConfig.
Proof. solve_decision. Defined.

(** The session that a step opened, and the session that a step closed. *)
Definition openedOf (it : item) : option APIClient :=
  match it with
  | (Gofish (Connect _), Session c) => Some c
  | _ => None
  end.
Definition closedOf (it : item) : option APIClient :=
  match it.1 with Gofish (Logout c) => Some c | _ => None end.

(** The identifier that the controller answered to a create request. *)
Definition createdOf (it : item) : option string :=
  match it with
  | (Gofish (CreateEventSubscription _ _ _ _ _ _ _), Created uri)
  | (Gofish (CreateEventSubscriptionInstance _ _ _ _ _ _ _ _ _), Created uri) =>
      Some uri
  | _ => None
  end.

(** The subscriptions that a listing reported. *)
Definition reportedOf (it : item) : option (list EventDestination) :=
  match it with
  | (Gofish (GetEventSubscriptions _), Listed l) => Some l
  | _ => None
  end.

(** The request that the v1.5 create call carries for a payload. *)
Definition modernRequest (payload : SubscriptionPayload) : createRequest :=
  ModernShape (Destination payload) (RegistryPrefixes payload)
    (ResourceTypes payload) (HTTPHeaders payload) (Protocol payload)
    (Context_ payload) (DeliveryRetryPolicy payload) (Oem payload).

(** Steps that, when they open a connection, open it with the
    configuration built from [server]. *)
Definition connectsTo (server : RedfishServer) (a : action) : bool :=
  match a with
  | Gofish (Connect config) => bool_decide (config = configOf server)
  | _ => true
  end.

(** [guarded h p]: [p], started holding the mutex or not according to [h],
    writes the map only while it holds the mutex, locks only when it does
    not hold it, unlocks only when it does, and returns without it. *)
Fixpoint guarded (h : bool) (p : prog unit) : Prop :=
  match p with
  | Ret _ => h = false
  | Vis a k =>
      match a with
      | MuLock => h = false ∧ ∀ r, guarded true (k r)
      | MuUnlock => h = true ∧ ∀ r, guarded false (k r)
      | MapStore _ _ => h = true ∧ ∀ r, guarded true (k r)
      | _ => ∀ r, guarded h (k r)
      end
  end.

(** A goroutine between its [mu.Lock()] and the return of its
    [mu.Unlock()]: its next step is the map write or the unlock. *)
Definition inCriticalSection (p : prog unit) : bool :=
  match p with
  | Vis (MapStore _ _) _ | Vis MuUnlock _ => true
  | _ => false
  end.

End Runs.

(** ** Execution *)

(** Who issued a step: the calling goroutine, the [i]-th goroutine started
    by [CreateSubscriptionsForAllServers], or the [i]-th goroutine started by
    [DeleteSubscriptionsFromAllServers]. *)
Inductive actor : Type :=
| Main
| Creator (i : nat)
| Deleter (i : nat).

Global Instance actor_eq_dec : EqDecision actor.
Proof. solve_decision. Defined.

Global Instance Creator_inj : Inj (=) (=) Creator.
Proof. by intros i j [= ->]. Qed.
Global Instance Deleter_inj : Inj (=) (=) Deleter.
Proof. by intros i j [= ->]. Qed.

Section Execution.
Context `{Backend}.

(** The controllers, the variables that the goroutines of one fleet create
    share ([mu], [subscriptionMap], [errChan] with its capacity), and the
    event log. *)
Record state : Type := mkState {
  world : World;
  mu : bool;
  subscriptionMap : gmap string string;
  errChan : list error;
  chanCap : nat;
  events : list (actor * item)
}.

(** The effect of one step, or [None] when the step cannot be taken now:
    [mu.Lock()] on a held mutex and a send on a full channel block; the
    runtime aborts on [mu.Unlock()] of a free mutex. *)
Definition effect (a : action) (st : state) : option (result a * state) :=
  match a return option (result a * state) with
  | Gofish c =>
      let '(r, w) := gofish c (world st) in
      Some (r, mkState w (mu st) (subscriptionMap st) (errChan st)
                 (chanCap st) (events st))
  | LogPrintf _ => Some (tt, st)
  | MuLock =>
      if mu st then None
      else Some (tt, mkState (world st) true (subscriptionMap st) (errChan st)
                       (chanCap st) (events st))
  | MuUnlock =>
      if mu st
      then Some (tt, mkState (world st) false (subscriptionMap st) (errChan st)
                       (chanCap st) (events st))
      else None
  | MapStore key value =>
      Some (tt, mkState (world st) (mu st) (<[key := value]> (subscriptionMap st))
                  (errChan st) (chanCap st) (events st))
  | ChanSend err =>
      if bool_decide (length (errChan st) < chanCap st)
      then Some (tt, mkState (world st) (mu st) (subscriptionMap st)
                       (errChan st ++ [err]) (chanCap st) (events st))
      else None
  end.

Definition record (who : actor) (it : item) (st : state) : state :=
  mkState (world st) (mu st) (subscriptionMap st) (errChan st) (chanCap st)
    (events st ++ [(who, it)]).

Definition fire (who : actor) (a : action) (st : state)
  : option (result a * state) :=
  match effect a st with
  | Some (r, st') => Some (r, record who (did a r) st')
  | None => None
  end.

(** Sequential execution by one actor. *)
Fixpoint interp {A} (who : actor) (p : prog A) (st : state)
  : option (A * state) :=
  match p with
  | Ret x => Some (x, st)
  | Vis a k =>
      match fire who a st with
      | Some (r, st') => interp who (k r) st'
      | None => None
      end
  end.

(** Goroutine [i] of the pool takes its next step, if it has one and the
    step is enabled. *)
Definition step (mk : nat → actor) (i : nat) (pool : list (prog unit))
    (st : state) : list (prog unit) * state :=
  match pool !! i with
  | Some (Vis a k) =>
      match fire (mk i) a st with
      | Some (r, st') => (<[i := k r]> pool, st')
      | None => (pool, st)
      end
  | _ => (pool, st)
  end.

(** A schedule lists which goroutine is given the processor next. *)
Fixpoint exec (mk : nat → actor) (sched : list nat) (pool : list (prog unit))
    (st : state) : list (prog unit) * state :=
  match sched with
  | [] => (pool, st)
  | i :: sched' =>
      let '(pool', st') := step mk i pool st in exec mk sched' pool' st'
  end.

Definition finished (p : prog unit) : bool :=
  match p with Ret _ => true | Vis _ _ => false end.

(** [wg.Add(1); go ...] for every member of the pool, then [wg.Wait()]: the
    caller resumes once every goroutine has returned; under a schedule that
    does not get them all there, it is still waiting.  A goroutine that the
    schedule runs before naming a later one behaves as one started before
    the later one was. *)
Definition goAndWait (mk : nat → actor) (sched : list nat)
    (pool : list (prog unit)) (st : state) : option state :=
  let '(pool', st') := exec mk sched pool st in
  if forallb finished pool' then Some st' else None.

(** *** Fleet orchestrator *)

(** [log.Println], then one goroutine per entry of the map, then the join.
    The function has no result.  Go ranges over the map in an unspecified
    order; the goroutines are numbered here in the order of [map_to_list],
    and another order is this one under a renumbering of the schedule. *)
Definition DeleteSubscriptionsFromAllServers (sched : list nat)
    (redfishServers : list RedfishServer)
    (subscriptions : gmap string string) (st : state) : option state :=
  match interp Main (logPrintf "Unsubscribing from servers...") st with
  | Some (_, st1) =>
      goAndWait Deleter sched
        (deleteWorker redfishServers <$> map_to_list subscriptions) st1
  | None => None
  end.

(** The state in which [CreateSubscriptionsForAllServers] starts its
    goroutines: [make(map[string]string)], an unlocked mutex and
    [make(chan error, len(redfishServers))]. *)
Definition createInit (redfishServers : list RedfishServer) (w : World)
  : state :=
  mkState w false ∅ [] (length redfishServers) [].

(** The create phase up to and including [wg.Wait()]. *)
Definition createPhase (sched : list nat)
    (redfishServers : list RedfishServer) (payload : SubscriptionPayload)
    (w : World) : option state :=
  goAndWait Creator sched (createWorker payload <$> redfishServers)
    (createInit redfishServers w).

(** [fmt]'s rendering of a [[]string] under [%s]. *)
Definition fmtStrings (l : list string) : string :=
  "[" +:+ String.concat " " l +:+ "]".

(** [sched] interleaves the create goroutines and [rsched] the rollback
    goroutines.  After the join the channel is closed and drained in the
    order of arrival; what was sent is never nil, so [allErrors] is the
    content of the channel.  The result is the returned pair (a nil map is
    [None]) and the final state. *)
Definition CreateSubscriptionsForAllServers (sched rsched : list nat)
    (redfishServers : list RedfishServer) (payload : SubscriptionPayload)
    (w : World)
  : option (option (gmap string string) * option error * state) :=
  match createPhase sched redfishServers payload w with
  | Some st1 =>
      let allErrors := errChan st1 in
      if bool_decide (0 < length allErrors) then
        match DeleteSubscriptionsFromAllServers rsched redfishServers
                (subscriptionMap st1) st1 with
        | Some st2 =>
            Some (None,
                  Some ("subscription process encountered errors: "
                        +:+ fmtStrings allErrors),
                  st2)
        | None => None
        end
      else Some (Some (subscriptionMap st1), None, st1)
  | None => None
  end.

(** The errors sent and the map entries stored in a log, in order. *)
Definition sends (log : list (actor * item)) : list error :=
  omap (λ e, sendOf e.2) log.
Definition stores (log : list (actor * item)) : list (string * string) :=
  omap (λ e, storeOf e.2) log.

(** [subscriptionMap[key] = value], for a sequence of stores. *)
Definition applyStores (l : list (string * string)) (m : gmap string string)
  : gmap string string :=
  foldl (λ m kv, <[kv.1 := kv.2]> m) m l.

(** The steps of one actor, in order. *)
Definition eventsOf (who : actor) (log : list (actor * item)) : list item :=
  omap (λ e, if decide (e.1 = who) then Some e.2 else None) log.

(** A pool in which at most the goroutine [holder] holds the mutex, which is
    locked exactly then, and in which the errors in the channel and the
    sends that the goroutines may still make ([budgets]) fit the capacity. *)
Definition poolInv (pool : list (prog unit)) (st : state)
    (holder : option nat) (budgets : list nat) : Prop :=
  mu st = (if holder is Some _ then true else false) ∧
  (∀ h, holder = Some h → h < length pool) ∧
  (∀ i p, pool !! i = Some p →
     disciplined (bool_decide (holder = Some i)) p) ∧
  Forall2 sendsAtMost budgets pool ∧
  length (errChan st) + sum_list budgets ≤ chanCap st.

(** According to the log, the [createSubscription] call of the [i]-th create
    goroutine, made for [server], returned [outcome]. *)
Definition createReturned (payload : SubscriptionPayload)
    (log : list (actor * item)) (i : nat) (server : RedfishServer)
    (outcome : string * option error) : Prop :=
  returned (createSubscription server payload) (eventsOf (Creator i) log) outcome.

(** [log.Println("Unsubscribing from servers...")] by the caller. *)
Definition announcement : actor * item :=
  (Main, did (LogPrintf "Unsubscribing from servers...") ()).

(** Every goroutine of [pool0] has become its counterpart in [pool] by
    taking the steps that the log attributes to it. *)
Definition tracks (mk : nat → actor) (pool0 pool : list (prog unit))
    (log : list (actor * item)) : Prop :=
  length pool = length pool0 ∧
  ∀ i p0, pool0 !! i = Some p0 →
    ∃ p, pool !! i = Some p ∧ reaches p0 (eventsOf (mk i) log) p.

(** A pool in which the mutex is locked exactly when some goroutine
    ([holder]) holds it, every goroutine being [guarded]. *)
Definition lockInv (pool : list (prog unit)) (st : state)
    (holder : option nat) : Prop :=
  mu st = (if holder is Some _ then true else false) ∧
  ∀ i p, pool !! i = Some p → guarded (bool_decide (holder = Some i)) p.

End Execution.

(** ** A scripted fleet, for running the code on concrete inputs *)

Module Mock.

(** One controller: which of its operations work, the subscriptions it
    holds and the number it gives to the next one. *)
Record bmc : Type := {
  canConnect : bool;
  canServe : bool;
  canList : bool;
  canCreate : bool;
  canDelete : bool;
  subs : list EventDestination;
  nextId : nat
}.

(** Controllers by endpoint. *)
Definition fleet : Type := list (string * bmc).

Fixpoint find (endpoint : string) (f : fleet) : option bmc :=
  match f with
  | [] => None
  | (e, b) :: rest => if String.eqb e endpoint then Some b else find endpoint rest
  end.

Fixpoint update (endpoint : string) (b : bmc) (f : fleet) : fleet :=
  match f with
  | [] => []
  | (e, b') :: rest =>
      if String.eqb e endpoint then (e, b) :: rest
      else (e, b') :: update endpoint b rest
  end.

Definition uriOf (n : nat) : string :=
  "/redfish/v1/EventService/Subscriptions/" +:+ pretty n.

Definition addSub (b : bmc) (destination : string) (eventTypes : list string)
    (headers : gmap string string) (context : string) : bmc :=
  {| canConnect := canConnect b; canServe := canServe b; canList := canList b;
     canCreate := canCreate b; canDelete := canDelete b;
     subs := subs b ++ [{| edID := pretty (nextId b);
                           edODataID := uriOf (nextId b);
                           edDestination := destination;
                           edEventTypes := eventTypes;
                           edHTTPHeaders := headers;
                           edContext := context |}];
     nextId := S (nextId b) |}.

Definition dropSub (b : bmc) (uri : string) : bmc :=
  {| canConnect := canConnect b; canServe := canServe b; canList := canList b;
     canCreate := canCreate b; canDelete := canDelete b;
     subs := filter (λ s, edODataID s ≠ uri) (subs b);
     nextId := nextId b |}.

(** A session and its event service are named by the endpoint. *)
Global Instance handles : Handles := {| APIClient := string; EventService := string |}.

Definition answer (c : call string string) (f : fleet)
  : reply string string c * fleet :=
  match c return reply string string c * fleet with
  | Connect config =>
      match find (Endpoint config) f with
      | Some b =>
          if canConnect b then (inr (Endpoint config), f)
          else (inl "connection refused", f)
      | None => (inl "no such host", f)
      end
  | Logout _ => (tt, f)
  | GetEventService c =>
      match find c f with
      | Some b => if canServe b then (inr c, f) else (inl "no event service", f)
      | None => (inl "no such host", f)
      end
  | CreateEventSubscriptionInstance es d _ _ h _ ctx _ _ =>
      match find es f with
      | Some b =>
          if canCreate b
          then (inr (uriOf (nextId b)), update es (addSub b d [] h ctx) f)
          else (inl "create rejected", f)
      | None => (inl "no such host", f)
      end
  | CreateEventSubscription es d ets h _ ctx _ =>
      match find es f with
      | Some b =>
          if canCreate b
          then (inr (uriOf (nextId b)), update es (addSub b d ets h ctx) f)
          else (inl "create rejected", f)
      | None => (inl "no such host", f)
      end
  | DeleteEventSubscription es uri =>
      match find es f with
      | Some b =>
          if canDelete b && bool_decide (uri ∈ edODataID <$> subs b)
          then (None, update es (dropSub b uri) f)
          else (Some "delete rejected", f)
      | None => (Some "no such host", f)
      end
  | GetEventSubscriptions es =>
      match find es f with
      | Some b => if canList b then (inr (subs b), f) else (inl "listing failed", f)
      | None => (inl "no such host", f)
      end
  end.

Global Instance backend : Backend := {| World := fleet; gofish := answer |}.

Definition healthy (l : list EventDestination) (n : nat) : bmc :=
  {| canConnect := true; canServe := true; canList := true; canCreate := true;
     canDelete := true; subs := l; nextId := n |}.

Definition server (ip : string) : RedfishServer :=
  {| IP := ip; Username := "root"; Password := "secret"; LoginType := "basic";
     SlurmNode := "node-" +:+ ip |}.

Definition hook : SubscriptionPayload :=
  {| Destination := "http://hook/x"; EventTypes := ["Alert"];
     RegistryPrefixes := []; ResourceTypes := []; DeliveryRetryPolicy := "";
     HTTPHeaders := ∅; Oem := ""; Protocol := "Redfish"; Context_ := "ctx" |}.

(** A schedule that gives every goroutine of a pool of [n] its turn, [k]
    times over. *)
Definition roundRobin (n k : nat) : list nat := mjoin (replicate k (seq 0 n)).

(** *** Scenarios *)

Definition broken (connects serves lists creates deletes : bool)
    (l : list EventDestination) (n : nat) : bmc :=
  {| canConnect := connects; canServe := serves; canList := lists;
     canCreate := creates; canDelete := deletes; subs := l; nextId := n |}.

(** A subscription held by a controller. *)
Definition held (n : nat) (destination : string) (eventTypes : list string)
    (context : string) : EventDestination :=
  {| edID := pretty n; edODataID := uriOf n; edDestination := destination;
     edEventTypes := eventTypes; edHTTPHeaders := ∅; edContext := context |}.

(** Servers A and B are healthy, C rejects the create. *)
Definition fleetABC : fleet :=
  [("A", healthy [] 1); ("B", healthy [] 1);
   ("C", broken true true true false true [] 1)].

Definition runABC
  : option (option (gmap string string) * option error * state) :=
  CreateSubscriptionsForAllServers (roundRobin 3 20) (roundRobin 2 20)
    [server "A"; server "B"; server "C"] hook fleetABC.

Definition runAB
  : option (option (gmap string string) * option error * state) :=
  CreateSubscriptionsForAllServers (roundRobin 2 20) []
    [server "A"; server "B"] hook fleetABC.

(** Two descriptors for the controller at address A. *)
Definition operator (ip : string) : RedfishServer :=
  {| IP := ip; Username := "operator"; Password := "other";
     LoginType := "basic"; SlurmNode := "node-" +:+ ip |}.

Definition runAA
  : option (option (gmap string string) * option error * state) :=
  CreateSubscriptionsForAllServers (roundRobin 2 20) []
    [server "A"; operator "A"] hook fleetABC.

(** The final state of a run, when there is one. *)
Definition stateOf {A} (r : option (A * state)) : state :=
  match r with Some (_, st) => st | None => createInit [] [] end.

(** A single-target operation run on its own against a fleet. *)
Definition alone {A} (p : prog A) (f : fleet) : option (A * state) :=
  interp Main p (createInit [] f).

Definition logOfRun {A} (r : option (A * state)) : list item :=
  snd <$> events (stateOf r).

(** The create goroutines of A, B and C after ten rounds. *)
Definition midABC : list (prog unit) * state :=
  exec Creator (roundRobin 3 10)
    (createWorker hook <$> [server "A"; server "B"; server "C"])
    (createInit [server "A"; server "B"; server "C"] fleetABC).

(** Controller A holds a subscription with the destination of [hook] (but
    other event types and another context) and one with another
    destination. *)
Definition fleetDup : fleet :=
  [("A", healthy [held 7 "http://hook/x" ["StatusChange"] "old";
                  held 8 "http://other/y" ["Alert"] "ctx"] 9)].

(** Controller A refuses to list its subscriptions. *)
Definition fleetNoList : fleet :=
  [("A", broken true true false true true [] 1)].

(** Controller A holds a subscription with the destination of [hook] and
    refuses to delete it. *)
Definition fleetNoDelete : fleet :=
  [("A", broken true true true true false
           [held 7 "http://hook/x" ["Alert"] "ctx"] 8)].

(** A rollback over a map with an entry for address B, which no descriptor
    of the list has. *)
Definition strayMap : gmap string string := {[ "B" := uriOf 7 ]}.

Definition runStray : option state :=
  DeleteSubscriptionsFromAllServers [0; 0; 0; 0] [server "A"] strayMap
    (createInit [] fleetABC).

Definition strayEnd : state := default (createInit [] fleetABC) runStray.

(** The create goroutines of A, B and C when the first has taken its first
    eleven steps. *)
Definition midLocked : list (prog unit) * state :=
  exec Creator (replicate 11 0)
    (createWorker hook <$> [server "A"; server "B"; server "C"])
    (createInit [server "A"; server "B"; server "C"] fleetABC).

(** A rollback of the subscription that controller A holds under number 7. *)
Definition runUndo : option state :=
  DeleteSubscriptionsFromAllServers (roundRobin 1 10) [server "A"]
    {[ "A" := uriOf 7 ]} (createInit [] fleetDup).

Definition undoEnd : state := default (createInit [] fleetDup) runUndo.

(** The run of A, B and C under another schedule of the rollback: the second
    rollback goroutine runs to its end before the first starts. *)
Definition runCBA
  : option (option (gmap string string) * option error * state) :=
  CreateSubscriptionsForAllServers (roundRobin 3 20)
    (replicate 10 1 ++ replicate 10 0)
    [server "A"; server "B"; server "C"] hook fleetABC.

End Mock.

(** * Properties *)

(** ** Runs of programs *)

Section RunFacts.
Context `{Handles}.

Lemma encode_inj (a : action) (r r' : result a) :
  encode a r = encode a r' → r = r'.
Proof.
  destruct a as [c| | | | |]; simpl in *;
    try (destruct r, r'; reflexivity).
  destruct c; simpl in *; intros E;
    repeat match goal with
           | x : unit |- _ => destruct x
           | x : (_ + _)%type |- _ => destruct x
           | x : option _ |- _ => destruct x
           end; congruence.
Qed.

Lemma did_inj (a : action) (r r' : result a) : did a r = did a r' → r = r'.
Proof. unfold did. intros E. apply encode_inj. congruence. Qed.

Lemma reaches_refl {A} (p : prog A) : reaches p [] p.
Proof. destruct p; simpl; auto. Qed.

Lemma reaches_nil {A} (p q : prog A) : reaches p [] q → q = p.
Proof.
  destruct p; simpl.
  - by intros [_ ->].
  - intros [[_ ->]|(r & tr' & E & _)]; [done | discriminate E].
Qed.

Lemma reaches_trans {A} (p q s : prog A) (t1 t2 : list item) :
  reaches p t1 q → reaches q t2 s → reaches p (t1 ++ t2) s.
Proof.
  revert t1. induction p as [x | a k IH]; intros t1; simpl.
  - intros [-> ->]. simpl. auto.
  - intros [[-> ->] | (r & tr' & -> & Hr)] Hq; [exact Hq |].
    right. exists r, (tr' ++ t2). split; [reflexivity | eauto].
Qed.

Lemma reaches_step {A} (a : action) (k : result a → prog A) (r : result a) :
  reaches (Vis a k) [did a r] (k r).
Proof. simpl. right. exists r, []. split; [done | apply reaches_refl]. Qed.

Lemma is_run_Ret {A} (x y : A) (tr : list item) :
  is_run (Ret x) tr y ↔ tr = [] ∧ y = x.
Proof. unfold is_run; simpl. split; intros [-> E]; split; congruence. Qed.

Lemma is_run_Vis {A} (a : action) (k : result a → prog A) tr (y : A) :
  is_run (Vis a k) tr y ↔ ∃ r tr', tr = did a r :: tr' ∧ is_run (k r) tr' y.
Proof.
  unfold is_run; simpl. split.
  - intros [[_ E] | Hr]; [discriminate E | exact Hr].
  - intros Hr. by right.
Qed.

(** A run of [p; f] is a run of [p] followed by a run of [f] on its result. *)
Lemma is_run_bind {A B} (p : prog A) (f : A → prog B) tr (y : B) :
  is_run (bind p f) tr y ↔
  ∃ tr1 tr2 x, tr = tr1 ++ tr2 ∧ is_run p tr1 x ∧ is_run (f x) tr2 y.
Proof.
  revert tr. induction p as [x | a k IH]; intros tr; simpl.
  - split.
    + intros Hr. exists [], tr, x. rewrite is_run_Ret. auto.
    + intros (tr1 & tr2 & x' & -> & Hx & Hf).
      apply is_run_Ret in Hx as [-> ->]. exact Hf.
  - rewrite is_run_Vis. split.
    + intros (r & tr' & -> & Hr). apply IH in Hr as (tr1 & tr2 & x & -> & Hx & Hf).
      exists (did a r :: tr1), tr2, x. rewrite is_run_Vis. eauto 10.
    + intros (tr1 & tr2 & x & -> & Hx & Hf).
      apply is_run_Vis in Hx as (r & tr' & -> & Hr).
      exists r, (tr' ++ tr2). split; [done |]. apply IH. eauto 10.
Qed.

Lemma is_run_mbind {A B} (p : prog A) (f : A → prog B) tr (y : B) :
  is_run (p ≫= f) tr y ↔
  ∃ tr1 tr2 x, tr = tr1 ++ tr2 ∧ is_run p tr1 x ∧ is_run (f x) tr2 y.
Proof. apply is_run_bind. Qed.

Lemma is_run_perform (a : action) tr (r : result a) :
  is_run (perform a) tr r ↔ tr = [did a r].
Proof.
  unfold perform. rewrite is_run_Vis. split.
  - intros (r' & tr' & -> & Hr). apply is_run_Ret in Hr as [-> ->]. done.
  - intros ->. exists r, []. rewrite is_run_Ret. done.
Qed.

Lemma is_run_lib c tr (r : reply _ _ c) :
  is_run (lib c) tr r ↔ tr = [did (Gofish c) r].
Proof. apply (is_run_perform (Gofish c)). Qed.

Lemma is_run_logPrintf line tr (r : unit) :
  is_run (logPrintf line) tr r ↔ tr = [did (LogPrintf line) r].
Proof. apply (is_run_perform (LogPrintf line)). Qed.

(** The answers recorded in a log determine the run. *)
Lemma is_run_det {A} (p : prog A) t1 t1' t2 t2' (x x' : A) :
  is_run p t1 x → is_run p t1' x' → t1 ++ t2 = t1' ++ t2' →
  t1 = t1' ∧ x = x'.
Proof.
  revert t1 t1'. induction p as [y | a k IH]; intros t1 t1'.
  - rewrite !is_run_Ret. intros [-> ->] [-> ->] _. done.
  - rewrite !is_run_Vis.
    intros (r & tr & -> & Hr) (r' & tr' & -> & Hr') E.
    simpl in E. injection E as Ea Et.
    assert (r = r') as <-.
    { apply encode_inj. exact Ea. }
    destruct (IH r tr tr' Hr Hr' Et) as [-> ->]. done.
Qed.

Lemma returned_det {A} (p : prog A) tr (x x' : A) :
  returned p tr x → returned p tr x' → x = x'.
Proof.
  intros (t1 & t2 & -> & Hx) (t1' & t2' & E & Hx').
  by destruct (is_run_det p t1 t1' t2 t2' x x' Hx Hx' E).
Qed.

(** *** Which steps a function can take *)

Lemma uses_bind {A B} Q (p : prog A) (f : A → prog B) :
  uses Q p → (∀ x, uses Q (f x)) → uses Q (bind p f).
Proof.
  induction p as [x | a k IH]; simpl; [auto |].
  intros [Ha Hk] Hf. split; [exact Ha | intros r; apply IH; auto].
Qed.

Lemma uses_mbind {A B} Q (p : prog A) (f : A → prog B) :
  uses Q p → (∀ x, uses Q (f x)) → uses Q (p ≫= f).
Proof. apply uses_bind. Qed.

Lemma uses_mono {A} (Q Q' : action → bool) (p : prog A) :
  (∀ a, Q a = true → Q' a = true) → uses Q p → uses Q' p.
Proof.
  intros HQ. induction p as [x | a k IH]; simpl; [auto |].
  intros [Ha Hk]. split; [auto | intros r; apply IH, Hk].
Qed.

Lemma uses_perform Q (a : action) : Q a = true → uses Q (perform a).
Proof. simpl. auto. Qed.

Lemma uses_mret {A} Q (x : A) : uses Q (mret x).
Proof. exact I. Qed.

Lemma uses_reaches {A} Q (p q : prog A) tr :
  uses Q p → reaches p tr q → uses Q q ∧ Forall (λ it, Q it.1 = true) tr.
Proof.
  revert tr. induction p as [x | a k IH]; intros tr; simpl.
  - intros _ [-> ->]. split; [exact I | constructor].
  - intros [Ha Hk] [[-> ->] | (r & tr' & -> & Hr)].
    + split; [simpl; auto | constructor].
    + destruct (IH r tr' (Hk r) Hr) as [Hq Htr]. split; [exact Hq |].
      constructor; [exact Ha | exact Htr].
Qed.

(** A projection that is undefined on a class of steps is empty on a log
    made of such steps. *)
Lemma omap_outside {B} (Q : action → bool) (f : item → option B) tr :
  (∀ it, Q it.1 = true → f it = None) →
  Forall (λ it, Q it.1 = true) tr → omap f tr = [].
Proof.
  intros Hf. induction 1 as [| it tr Hit _ IH]; [done |].
  cbn [omap list_omap]. by rewrite (Hf it Hit), IH.
Qed.

Ltac uses_tac :=
  repeat first
    [ apply uses_mret
    | apply uses_perform; reflexivity
    | apply uses_mbind; [| intros ?]
    | match goal with
      | |- uses _ (match ?x with _ => _ end) => destruct x
      | |- uses _ (if ?b then _ else _) => destruct b
      end ].

Lemma uses_getRedfishClient server :
  uses isSessionOp (getRedfishClient server).
Proof. unfold getRedfishClient, lib, logPrintf. uses_tac. Qed.

Lemma uses_deferLogout {A} Q c (body : prog A) :
  Q (Gofish (Logout c)) = true → uses Q body → uses Q (deferLogout c body).
Proof.
  intros HQ Hb. unfold deferLogout, lib.
  apply uses_mbind; [exact Hb | intros x].
  apply uses_mbind; [by apply uses_perform | intros _; exact I].
Qed.

Lemma session_delete a : isSessionOp a = true → isDeleteOp a = true.
Proof. unfold isDeleteOp. by intros ->. Qed.
Lemma session_list a : isSessionOp a = true → isListOp a = true.
Proof. unfold isListOp. by intros ->. Qed.
Lemma delete_cleanup a : isDeleteOp a = true → isCleanupOp a = true.
Proof. unfold isCleanupOp. by intros ->. Qed.
Lemma list_cleanup a : isListOp a = true → isCleanupOp a = true.
Proof. by destruct a as [[]| | | | |]. Qed.
Lemma cleanup_client a : isCleanupOp a = true → isClientOp a = true.
Proof. unfold isClientOp. by intros ->. Qed.
Lemma client_not_sync a : isClientOp a = true → isSync a = false.
Proof. by destruct a as [[]| | | | |]. Qed.

Lemma uses_deleteSubscriptionFromServer server uri :
  uses isDeleteOp (deleteSubscriptionFromServer server uri).
Proof.
  unfold deleteSubscriptionFromServer.
  apply uses_mbind.
  { eapply uses_mono; [apply session_delete | apply uses_getRedfishClient]. }
  intros [e | c]; [exact I |]. apply uses_deferLogout; [done |].
  unfold lib. uses_tac.
Qed.

Lemma uses_getServerSubscriptions server :
  uses isListOp (getServerSubscriptions server).
Proof.
  unfold getServerSubscriptions.
  apply uses_mbind.
  { eapply uses_mono; [apply session_list | apply uses_getRedfishClient]. }
  intros [e | c]; [exact I |]. apply uses_deferLogout; [done |].
  unfold lib. uses_tac.
Qed.

Lemma uses_deleteConflictingLoop server payload subscriptions :
  uses isDeleteOp (deleteConflictingLoop server payload subscriptions).
Proof.
  induction subscriptions as [| s rest IH]; cbn [deleteConflictingLoop];
    [exact I |].
  destruct (String.eqb _ _); [| exact IH].
  apply uses_mbind; [apply uses_deleteSubscriptionFromServer |].
  intros [e |]; [exact I |].
  apply uses_mbind; [by apply uses_perform | intros _; exact IH].
Qed.

Lemma uses_deleteConflictingSubscriptions server payload :
  uses isCleanupOp (deleteConflictingSubscriptions server payload).
Proof.
  unfold deleteConflictingSubscriptions.
  apply uses_mbind.
  { eapply uses_mono; [apply list_cleanup | apply uses_getServerSubscriptions]. }
  intros [e | l]; [exact I |].
  eapply uses_mono; [apply delete_cleanup | apply uses_deleteConflictingLoop].
Qed.

Lemma uses_createSubscription server payload :
  uses isClientOp (createSubscription server payload).
Proof.
  unfold createSubscription.
  apply uses_mbind.
  { eapply uses_mono; [| apply uses_getRedfishClient].
    intros a Ha. by apply cleanup_client, delete_cleanup, session_delete. }
  intros [e | c]; [exact I |]. apply uses_deferLogout; [done |].
  apply uses_mbind; [by apply uses_perform |].
  intros [e | es]; [exact I |].
  apply uses_mbind.
  { eapply uses_mono; [apply cleanup_client |].
    apply uses_deleteConflictingSubscriptions. }
  intros _. unfold isV1_5, createLegacySubscription, lib. uses_tac.
Qed.

End RunFacts.

(** ** Runs of the single-target operations *)

Ltac run_inv :=
  repeat match goal with
  | H : is_run (_ ≫= _) _ _ |- _ =>
      apply is_run_mbind in H as (? & ? & ? & -> & ? & H)
  | H : is_run (lib ?c) _ _ |- _ => apply (is_run_lib c) in H as ->
  | H : is_run (logPrintf ?l) _ _ |- _ => apply (is_run_logPrintf l) in H as ->
  | H : is_run (perform ?a) _ _ |- _ => apply (is_run_perform a) in H as ->
  | H : is_run (mret _) _ _ |- _ => apply is_run_Ret in H as [-> ?]; simplify_eq
  | H : is_run (Ret _) _ _ |- _ => apply is_run_Ret in H as [-> ?]; simplify_eq
  | H : is_run (match ?x with _ => _ end) _ _ |- _ => destruct x
  | x : unit |- _ => destruct x
  end.

Section ClientRuns.
Context `{Handles}.

(** [getRedfishClient] attempts one connection and logs its outcome. *)
Lemma getRedfishClient_run server tr r :
  is_run (getRedfishClient server) tr r →
  tr = [did (Gofish (Connect (configOf server))) r;
        did (LogPrintf (connectLine server r)) ()].
Proof.
  unfold getRedfishClient. intros Hr. run_inv; done.
Qed.

Lemma deferLogout_run {A} c (body : prog A) tr (x : A) :
  is_run (deferLogout c body) tr x ↔
  ∃ tr', tr = tr' ++ [did (Gofish (Logout c)) ()] ∧ is_run body tr' x.
Proof.
  unfold deferLogout. split.
  - intros Hr. run_inv. eauto.
  - intros (tr' & -> & Hb). apply is_run_mbind.
    exists tr', [did (Gofish (Logout c)) ()], x. split; [done |].
    split; [exact Hb |]. apply is_run_mbind.
    exists [did (Gofish (Logout c)) ()], [], ().
    split; [done |]. split; [by apply is_run_lib | by apply is_run_Ret].
Qed.

(** The four ways [deleteSubscriptionFromServer] can go. *)
Lemma deleteSubscriptionFromServer_run server uri tr r :
  is_run (deleteSubscriptionFromServer server uri) tr r →
    (∃ e, tr = [did (Gofish (Connect (configOf server))) (inl e);
                did (LogPrintf (connectLine server (inl e))) ()] ∧
          r = Some ("failed to connect to server " +:+ IP server +:+ ": " +:+ e)) ∨
    (∃ c e, tr = [did (Gofish (Connect (configOf server))) (inr c);
                  did (LogPrintf (connectLine server (inr c))) ();
                  did (Gofish (GetEventService c)) (inl e);
                  did (Gofish (Logout c)) ()] ∧
            r = Some ("failed to get event service on server "
                      +:+ IP server +:+ ": " +:+ e)) ∨
    (∃ c es d, tr = [did (Gofish (Connect (configOf server))) (inr c);
                     did (LogPrintf (connectLine server (inr c))) ();
                     did (Gofish (GetEventService c)) (inr es);
                     did (Gofish (DeleteEventSubscription es uri)) d;
                     did (Gofish (Logout c)) ()] ∧
               r = match d with
                   | Some e => Some ("failed to delete event subscription on server "
                                     +:+ IP server +:+ ": " +:+ e)
                   | None => None
                   end).
Proof.
  unfold deleteSubscriptionFromServer. intros Hr.
  apply is_run_mbind in Hr as (t1 & t2 & x & -> & Hc & Hr).
  apply getRedfishClient_run in Hc as ->.
  destruct x as [e | c].
  - apply is_run_Ret in Hr as [-> ->]. left. eauto.
  - right. apply deferLogout_run in Hr as (tr' & -> & Hr).
    run_inv; [left | right | right]; eauto 10.
Qed.


Lemma getServerSubscriptions_run server tr r :
  is_run (getServerSubscriptions server) tr r →
    (∃ e, tr = [did (Gofish (Connect (configOf server))) (inl e);
                did (LogPrintf (connectLine server (inl e))) ()] ∧
          r = inl ("failed to connect to server " +:+ IP server +:+ ": " +:+ e)) ∨
    (∃ c e, tr = [did (Gofish (Connect (configOf server))) (inr c);
                  did (LogPrintf (connectLine server (inr c))) ();
                  did (Gofish (GetEventService c)) (inl e);
                  did (Gofish (Logout c)) ()] ∧
            r = inl ("failed to get event service on server "
                     +:+ IP server +:+ ": " +:+ e)) ∨
    (∃ c es l, tr = [did (Gofish (Connect (configOf server))) (inr c);
                     did (LogPrintf (connectLine server (inr c))) ();
                     did (Gofish (GetEventService c)) (inr es);
                     did (Gofish (GetEventSubscriptions es)) l;
                     did (Gofish (Logout c)) ()] ∧
               r = match l with
                   | inl e => inl ("failed to get event subscriptions on server "
                                   +:+ IP server +:+ ": " +:+ e)
                   | inr subscriptions => inr subscriptions
                   end).
Proof.
  unfold getServerSubscriptions. intros Hr.
  apply is_run_mbind in Hr as (t1 & t2 & x & -> & Hc & Hr).
  apply getRedfishClient_run in Hc as ->.
  destruct x as [e | c].
  - apply is_run_Ret in Hr as [-> ->]. left. eauto.
  - right. apply deferLogout_run in Hr as (tr' & -> & Hr).
    run_inv; [left | right | right]; eauto 10.
Qed.

(** The requests that [deleteSubscriptionFromServer] puts on the wire. *)
Lemma deleteSubscriptionFromServer_calls server uri tr r :
  is_run (deleteSubscriptionFromServer server uri) tr r →
  omap connectOf tr = [configOf server] ∧
  (omap deleteOf tr = [] ∨ omap deleteOf tr = [uri]) ∧
  omap deletedOf tr = match r with Some _ => [] | None => [uri] end ∧
  (r = None → omap deleteOf tr = [uri]) ∧
  (sessionOpened tr → omap deleteOf tr = [uri]).
Proof.
  intros Hr. apply deleteSubscriptionFromServer_run in Hr.
  destruct Hr as [(e & -> & ->) | [(c & e & -> & ->) | (c & es & d & -> & ->)]].
  - repeat split; auto; try discriminate.
    intros (? & ? & ? & ? & ? & E). discriminate E.
  - repeat split; auto; try discriminate.
    intros (? & ? & ? & ? & ? & E). discriminate E.
  - destruct d; repeat split; auto; discriminate.
Qed.

(** The loop of [deleteConflictingSubscriptions] walks the subscriptions
    with the payload's destination, in order, and stops at the first one it
    cannot delete. *)
Lemma deleteConflictingLoop_run server payload subscriptions tr r :
  is_run (deleteConflictingLoop server payload subscriptions) tr r →
  let matching :=
    filter (λ s, edDestination s = Destination payload) subscriptions in
  omap deleteOf tr `prefix_of` (edODataID <$> matching) ∧
  omap deletedOf tr `prefix_of` (edODataID <$> matching) ∧
  (r = None → omap deletedOf tr = edODataID <$> matching).
Proof.
  revert tr. induction subscriptions as [| s rest IH]; intros tr;
    cbn [deleteConflictingLoop].
  - intros Hr. apply is_run_Ret in Hr as [-> ->]. done.
  - destruct (String.eqb_spec (edDestination s) (Destination payload)) as [E | E].
    + rewrite filter_cons_True by done. intros Hr.
      apply is_run_mbind in Hr as (t1 & t2 & e & -> & Hd & Hr).
      apply deleteSubscriptionFromServer_calls in Hd
        as (_ & Hatt & Hdone & Hok & _).
      rewrite !omap_app. destruct e as [e |].
      * apply is_run_Ret in Hr as [-> ->]. rewrite !app_nil_r, Hdone.
        split; [| split; [apply prefix_nil | discriminate]].
        destruct Hatt as [-> | ->]; [apply prefix_nil |].
        apply (prefix_app [_] [] _), prefix_nil.
      * apply is_run_mbind in Hr as (t3 & t4 & u & -> & Hl & Hr).
        apply is_run_logPrintf in Hl as ->.
        destruct (IH _ Hr) as (IH1 & IH2 & IH3).
        rewrite (Hok eq_refl), Hdone. cbn [fmap list_fmap omap list_omap app].
        split; [by apply prefix_cons |].
        split; [by apply prefix_cons |].
        intros Hn. by rewrite IH3.
    + rewrite filter_cons_False by done. apply IH.
Qed.

Lemma deleteConflictingLoop_no_listing server payload subscriptions tr r :
  is_run (deleteConflictingLoop server payload subscriptions) tr r →
  omap listedOf tr = [].
Proof.
  intros Hr.
  destruct (uses_reaches _ _ _ _
              (uses_deleteConflictingLoop server payload subscriptions) Hr)
    as [_ Htr].
  eapply omap_outside; [| exact Htr].
  intros [a r'] Ha. by destruct a as [[]| | | | |].
Qed.


(** The three ways [createSubscription] can go.  In the third, the cleanup
    has run and returned [cleanup]; whatever that is, the create call
    follows and alone decides the result. *)
Lemma createSubscription_run server payload tr x :
  is_run (createSubscription server payload) tr x →
    (∃ e, tr = [did (Gofish (Connect (configOf server))) (inl e);
                did (LogPrintf (connectLine server (inl e))) ()] ∧
          x = ("", Some ("failed to connect to server " +:+ IP server
                         +:+ ": " +:+ e))) ∨
    (∃ c e, tr = [did (Gofish (Connect (configOf server))) (inr c);
                  did (LogPrintf (connectLine server (inr c))) ();
                  did (Gofish (GetEventService c)) (inl e);
                  did (Gofish (Logout c)) ()] ∧
            x = ("", Some ("failed to get event service on server "
                           +:+ IP server +:+ ": " +:+ e))) ∨
    (∃ c es trc cleanup r,
        is_run (deleteConflictingSubscriptions server payload) trc cleanup ∧
        tr = [did (Gofish (Connect (configOf server))) (inr c);
              did (LogPrintf (connectLine server (inr c))) ();
              did (Gofish (GetEventService c)) (inr es)]
             ++ trc ++
             [did (Gofish (CreateEventSubscription es (Destination payload)
                             (EventTypes payload) (HTTPHeaders payload)
                             (Protocol payload) (Context_ payload)
                             (Oem payload))) r;
              did (Gofish (Logout c)) ()] ∧
        x = match r with
            | inl e => ("", Some ("failed to create legacy subscription: " +:+ e))
            | inr uri => (uri, None)
            end).
Proof.
  unfold createSubscription. intros Hr.
  apply is_run_mbind in Hr as (t1 & t2 & y & -> & Hc & Hr).
  apply getRedfishClient_run in Hc as ->.
  destruct y as [e | c].
  - apply is_run_Ret in Hr as [-> ->]. left. eauto.
  - right. apply deferLogout_run in Hr as (tr' & -> & Hr).
    apply is_run_mbind in Hr as (t3 & t4 & es & -> & Hes & Hr).
    apply (is_run_lib (GetEventService c)) in Hes as ->.
    destruct es as [e | es].
    + apply is_run_Ret in Hr as [-> ->]. left. eauto.
    + right.
      apply is_run_mbind in Hr as (trc & t5 & cleanup & -> & Hcl & Hr).
      unfold isV1_5, createLegacySubscription in Hr.
      apply is_run_mbind in Hr as (t6 & t7 & r & -> & Hcr & Hr).
      apply (is_run_lib (CreateEventSubscription _ _ _ _ _ _ _)) in Hcr as ->.
      exists c, es, trc, cleanup, r. split; [exact Hcl |].
      destruct r; apply is_run_Ret in Hr as [-> ->];
        (split; [by rewrite <- !app_assoc | done]).
Qed.

Lemma cleanup_issues_no_create server payload tr r :
  is_run (deleteConflictingSubscriptions server payload) tr r →
  omap createOf tr = [].
Proof.
  intros Hr.
  destruct (uses_reaches _ _ _ _
              (uses_deleteConflictingSubscriptions server payload) Hr)
    as [_ Htr].
  eapply omap_outside; [| exact Htr].
  intros [a r'] Ha. by destruct a as [[]| | | | |].
Qed.

End ClientRuns.

(** ** Steps, schedules and logs *)

Section ExecFacts.
Context `{Backend}.

Lemma fire_spec who a st r st' :
  fire who a st = Some (r, st') →
  events st' = events st ++ [(who, did a r)] ∧
  chanCap st' = chanCap st ∧
  errChan st' = errChan st ++ sends [(who, did a r)] ∧
  subscriptionMap st' = applyStores (stores [(who, did a r)]) (subscriptionMap st).
Proof.
  unfold fire. destruct (effect a st) as [[r0 st0] |] eqn:E; [| done].
  intros [= <- <-]. revert E.
  destruct a as [c | line | | | key value | err]; simpl;
    [destruct (gofish c (world st)) as [r1 w] | | destruct (mu st)
    | destruct (mu st) | | case_bool_decide]; try done;
    intros [= <- <-]; simpl; rewrite ?app_nil_r; done.
Qed.

(** A step outside the synchronisation class is always enabled and leaves
    the shared variables alone. *)
Lemma fire_client who a st :
  isSync a = false →
  ∃ r st', fire who a st = Some (r, st') ∧
    mu st' = mu st ∧ subscriptionMap st' = subscriptionMap st ∧
    errChan st' = errChan st ∧ chanCap st' = chanCap st.
Proof.
  unfold fire. destruct a as [c | line | | | key value | err]; simpl; try done.
  - destruct (gofish c (world st)) as [r1 w]. eauto 10.
  - eauto 10.
Qed.

Lemma interp_sound {A} who (p : prog A) st x st' :
  interp who p st = Some (x, st') →
  ∃ tr, events st' = events st ++ ((who,.) <$> tr) ∧ is_run p tr x.
Proof.
  revert st. induction p as [y | a k IH]; intros st; simpl.
  - intros [= <- <-]. exists []. rewrite app_nil_r. by rewrite is_run_Ret.
  - destruct (fire who a st) as [[r st1] |] eqn:E; [| done].
    intros Hi. apply IH in Hi as (tr & Hev & Hr).
    apply fire_spec in E as (E & _).
    exists (did a r :: tr). rewrite Hev, E, <- app_assoc. split; [done |].
    apply is_run_Vis. eauto.
Qed.

(** A single-target operation, run on its own, returns. *)
Lemma interp_total {A} who (p : prog A) st :
  uses isClientOp p →
  ∃ x st' tr, interp who p st = Some (x, st') ∧
    events st' = events st ++ ((who,.) <$> tr) ∧ is_run p tr x ∧
    mu st' = mu st ∧ subscriptionMap st' = subscriptionMap st ∧
    errChan st' = errChan st ∧ chanCap st' = chanCap st.
Proof.
  revert st. induction p as [y | a k IH]; intros st; simpl.
  - intros _. exists y, st, []. rewrite app_nil_r, is_run_Ret. done.
  - intros [Ha Hk].
    destruct (fire_client who a st (client_not_sync a Ha))
      as (r & st1 & E & E1 & E2 & E3 & E4).
    rewrite E. destruct (IH r st1 (Hk r)) as (x & st' & tr & Hi & Hev & Hr & E5).
    exists x, st', (did a r :: tr). split; [exact Hi |].
    apply fire_spec in E as (E & _).
    rewrite Hev, E, <- app_assoc. split; [done |]. split.
    + apply is_run_Vis. eauto.
    + destruct E5 as (-> & -> & -> & ->). done.
Qed.

Lemma step_spec mk i pool st pool' st' :
  step mk i pool st = (pool', st') →
  (pool' = pool ∧ st' = st) ∨
  ∃ a k r, pool !! i = Some (Vis a k) ∧
    fire (mk i) a st = Some (r, st') ∧ pool' = <[i := k r]> pool.
Proof.
  unfold step. destruct (pool !! i) as [[u | a k] |] eqn:E;
    [intros [= <- <-]; by left | | intros [= <- <-]; by left].
  destruct (fire (mk i) a st) as [[r st1] |] eqn:F;
    intros [= <- <-]; [right; eauto 10 | by left].
Qed.

Lemma eventsOf_app who (l1 l2 : list (actor * item)) :
  eventsOf who (l1 ++ l2) = eventsOf who l1 ++ eventsOf who l2.
Proof. apply omap_app. Qed.

Lemma eventsOf_cons_eq who it (log : list (actor * item)) :
  eventsOf who ((who, it) :: log) = it :: eventsOf who log.
Proof. unfold eventsOf. cbn [omap list_omap]. simpl. by rewrite decide_True. Qed.

Lemma eventsOf_cons_ne who who' it (log : list (actor * item)) :
  who' ≠ who → eventsOf who ((who', it) :: log) = eventsOf who log.
Proof.
  intros Hne. unfold eventsOf. cbn [omap list_omap]. simpl.
  by rewrite decide_False.
Qed.

Lemma sends_app (l1 l2 : list (actor * item)) :
  sends (l1 ++ l2) = sends l1 ++ sends l2.
Proof. apply omap_app. Qed.

Lemma stores_app (l1 l2 : list (actor * item)) :
  stores (l1 ++ l2) = stores l1 ++ stores l2.
Proof. apply omap_app. Qed.

Lemma applyStores_app l1 l2 m :
  applyStores (l1 ++ l2) m = applyStores l2 (applyStores l1 m).
Proof. apply foldl_app. Qed.

(** What a schedule does to a pool, read off the log. *)
Lemma exec_tracks mk `{!Inj (=) (=) mk} sched pool0 st0 pool st :
  exec mk sched pool0 st0 = (pool, st) →
  ∃ new,
    events st = events st0 ++ new ∧
    tracks mk pool0 pool new ∧
    Forall (λ e, ∃ i, i < length pool0 ∧ e.1 = mk i) new ∧
    errChan st = errChan st0 ++ sends new ∧
    subscriptionMap st = applyStores (stores new) (subscriptionMap st0) ∧
    chanCap st = chanCap st0.
Proof.
  revert pool0 st0. induction sched as [| i sched IH]; intros pool0 st0; simpl.
  - intros [= <- <-]. exists []. rewrite !app_nil_r.
    repeat split; auto. intros i p0 Hp. exists p0. split; [done |].
    apply reaches_refl.
  - destruct (step mk i pool0 st0) as [pool1 st1] eqn:S. intros E.
    apply IH in E as (new & Hev & [Hlen Htr] & Hact & Hch & Hmap & Hcap).
    apply step_spec in S as [[-> ->] | (a & k & r & Hi & F & ->)].
    { exists new. repeat split; auto. }
    apply fire_spec in F as (F1 & F2 & F3 & F4).
    rewrite length_insert in Hlen, Hact.
    exists ((mk i, did a r) :: new). split; [| split; [| split; [| split; [| split]]]].
    + rewrite Hev, F1, <- app_assoc. done.
    + split; [exact Hlen |]. intros j p0 Hj.
      destruct (decide (j = i)) as [-> | Hne].
      * rewrite Hi in Hj. injection Hj as <-.
        destruct (Htr i (k r)) as (p & Hp & Hr).
        { apply list_lookup_insert_eq. by eapply lookup_lt_Some. }
        exists p. split; [exact Hp |]. rewrite eventsOf_cons_eq.
        simpl. right. eauto.
      * destruct (Htr j p0) as (p & Hp & Hr).
        { by rewrite list_lookup_insert_ne. }
        exists p. split; [exact Hp |].
        rewrite eventsOf_cons_ne; [exact Hr |]. intros E. by apply (inj mk) in E.
    + constructor; [| exact Hact]. exists i. split; [| done].
      by eapply lookup_lt_Some.
    + rewrite Hch, F3. change ((mk i, did a r) :: new) with ([(mk i, did a r)] ++ new).
      by rewrite sends_app, app_assoc.
    + rewrite Hmap, F4. change ((mk i, did a r) :: new) with ([(mk i, did a r)] ++ new).
      by rewrite stores_app, applyStores_app.
    + congruence.
Qed.

Lemma finished_Ret (p : prog unit) : finished p = true → p = Ret ().
Proof. destruct p as [[] |]; [done | discriminate]. Qed.

(** At the join, the log holds one complete run of every goroutine. *)
Lemma goAndWait_runs mk `{!Inj (=) (=) mk} sched pool0 st0 st :
  goAndWait mk sched pool0 st0 = Some st →
  ∃ new,
    events st = events st0 ++ new ∧
    (∀ i p0, pool0 !! i = Some p0 → is_run p0 (eventsOf (mk i) new) ()) ∧
    Forall (λ e, ∃ i, i < length pool0 ∧ e.1 = mk i) new ∧
    errChan st = errChan st0 ++ sends new ∧
    subscriptionMap st = applyStores (stores new) (subscriptionMap st0) ∧
    chanCap st = chanCap st0.
Proof.
  unfold goAndWait. destruct (exec mk sched pool0 st0) as [pool st1] eqn:E.
  destruct (forallb finished pool) eqn:F; [| done]. intros [= <-].
  apply exec_tracks in E as (new & Hev & [Hlen Htr] & Hrest); [| done].
  exists new. split; [exact Hev |]. split; [| exact Hrest].
  intros i p0 Hp. destruct (Htr i p0 Hp) as (p & Hpi & Hr).
  rewrite forallb_forall in F.
  assert (p = Ret ()) as ->; [| exact Hr].
  apply finished_Ret, F, list_elem_of_In, list_elem_of_lookup. eauto.
Qed.

End ExecFacts.

(** ** Interleavings *)

Section Interleaving.
Context `{Handles}.

Lemma bind_nothing {A B} (l : list A) : l ≫= (λ _, @nil B) = [].
Proof. induction l; [done |]. by rewrite bind_cons. Qed.

Lemma omap_as_bind {A B} (f : A → option B) (l : list A) :
  omap f l = l ≫= (λ x, option_list (f x)).
Proof.
  induction l as [| x l IH]; [done |].
  rewrite bind_cons. cbn [omap list_omap]. rewrite IH. by destruct (f x).
Qed.

Lemma seq_bind_lookup {A B} (l : list A) (g : nat → list B) (h : A → list B)
    (start : nat) :
  (∀ i x, l !! i = Some x → g (start + i) = h x) →
  seq start (length l) ≫= g = l ≫= h.
Proof.
  revert start. induction l as [| x l IH]; intros start Hg; [done |].
  cbn [length seq]. rewrite !bind_cons. f_equal.
  - rewrite <- (Hg 0 x eq_refl). f_equal. lia.
  - apply IH. intros i y Hy. rewrite <- (Hg (S i) y Hy). f_equal. lia.
Qed.

Lemma list_choice {A B} (P : nat → A → B → Prop) (l : list A) :
  (∀ i a, l !! i = Some a → ∃ b, P i a b) →
  ∃ bs, length bs = length l ∧
        ∀ i a b, l !! i = Some a → bs !! i = Some b → P i a b.
Proof.
  revert P. induction l as [| a l IH]; intros P HP.
  - exists []. split; [done |]. intros i a b Ha. by rewrite lookup_nil in Ha.
  - destruct (HP 0 a eq_refl) as [b Hb].
    destruct (IH (λ i, P (S i))) as (bs & Hlen & Hbs).
    { intros i a' Ha'. by apply (HP (S i)). }
    exists (b :: bs). split; [simpl; by rewrite Hlen |].
    intros [| i] a' b'; simpl.
    + by intros [= <-] [= <-].
    + apply Hbs.
Qed.

(** A log whose steps all belong to the actors [whos] is, projection by
    projection, a shuffle of the logs of these actors. *)
Lemma interleave {B} (f : item → option B) (whos : list actor)
    (log : list (actor * item)) :
  NoDup whos → Forall (λ e, e.1 ∈ whos) log →
  omap (λ e, f e.2) log ≡ₚ whos ≫= (λ who, omap f (eventsOf who log)).
Proof.
  intros Hnd. induction 1 as [| [w it] log Hw _ IH].
  - cbn. by rewrite bind_nothing.
  - simpl in Hw. apply list_elem_of_split in Hw as (l1 & l2 & ->).
    apply NoDup_app in Hnd as Hnd'. destruct Hnd' as (_ & Hl1 & Hnd2).
    apply NoDup_cons in Hnd2 as [Hl2 _].
    rewrite bind_app, bind_cons, eventsOf_cons_eq.
    rewrite (Forall_bind_ext _ (λ who, omap f (eventsOf who log)) l1).
    2:{ apply Forall_forall. intros who Hin. rewrite eventsOf_cons_ne; [done |].
        intros ->. apply (Hl1 who Hin). by left. }
    rewrite (Forall_bind_ext _ (λ who, omap f (eventsOf who log)) l2).
    2:{ apply Forall_forall. intros who Hin. rewrite eventsOf_cons_ne; [done |].
        by intros ->. }
    rewrite bind_app, bind_cons in IH.
    cbn [omap list_omap]. simpl. destruct (f it) as [b |].
    + rewrite IH, <- app_comm_cons. apply Permutation_middle.
    + exact IH.
Qed.

Lemma eventsOf_fmap who (tr : list item) :
  eventsOf who ((who,.) <$> tr) = tr.
Proof.
  induction tr as [| it tr IH]; [done |].
  rewrite fmap_cons, eventsOf_cons_eq. by rewrite IH.
Qed.

Lemma eventsOf_other who who' (tr : list item) :
  who' ≠ who → eventsOf who ((who',.) <$> tr) = [].
Proof.
  intros Hne. induction tr as [| it tr IH]; [done |].
  rewrite fmap_cons, eventsOf_cons_ne by done. exact IH.
Qed.

Lemma eventsOf_absent who (log : list (actor * item)) :
  Forall (λ e, e.1 ≠ who) log → eventsOf who log = [].
Proof.
  induction 1 as [| [w it] log Hw _ IH]; [done |].
  by rewrite eventsOf_cons_ne.
Qed.

End Interleaving.

(** ** The goroutine bodies *)

Section Workers.
Context `{Handles}.

(** A create goroutine runs [createSubscription] and then reports its
    outcome: one send on failure, one store under the lock on success. *)
Lemma createWorker_run payload server tr :
  is_run (createWorker payload server) tr () ↔
  ∃ tr1 outcome,
    is_run (createSubscription server payload) tr1 outcome ∧
    tr = tr1 ++ workerTail server outcome.
Proof.
  unfold createWorker. rewrite is_run_mbind. split.
  - intros (tr1 & tr2 & [uri err] & -> & Hc & Ht).
    exists tr1, (uri, err). split; [exact Hc |]. f_equal.
    unfold workerTail. simpl. destruct err as [e |].
    + by apply (is_run_perform (ChanSend _)) in Ht.
    + apply is_run_mbind in Ht as (t1 & t2 & [] & -> & H1 & Ht).
      apply (is_run_perform MuLock) in H1 as ->.
      apply is_run_mbind in Ht as (t3 & t4 & [] & -> & H2 & Ht).
      apply (is_run_perform (MapStore _ _)) in H2 as ->.
      apply is_run_mbind in Ht as (t5 & t6 & [] & -> & H3 & Ht).
      apply (is_run_perform MuUnlock) in H3 as ->.
      by apply is_run_logPrintf in Ht as ->.
  - intros (tr1 & [uri err] & Hc & ->).
    exists tr1, (workerTail server (uri, err)), (uri, err).
    split; [done |]. split; [exact Hc |].
    unfold workerTail. simpl. destruct err as [e |].
    + by apply (is_run_perform (ChanSend _)).
    + apply is_run_Vis. eexists (), _. split; [done |].
      apply is_run_Vis. eexists (), _. split; [done |].
      apply is_run_Vis. eexists (), _. split; [done |].
      by apply is_run_logPrintf.
Qed.

Lemma createSubscription_quiet server payload tr outcome :
  is_run (createSubscription server payload) tr outcome →
  omap storeOf tr = [] ∧ omap sendOf tr = [].
Proof.
  intros Hr.
  destruct (uses_reaches _ _ _ _ (uses_createSubscription server payload) Hr)
    as [_ Htr].
  split; (eapply omap_outside; [| exact Htr]);
    intros [a r'] Ha; by destruct a as [[]| | | | |].
Qed.

Lemma workerTail_stores server outcome :
  omap storeOf (workerTail server outcome)
  = option_list (successOf (server, outcome)).
Proof. destruct outcome as [uri [e |]]; reflexivity. Qed.

Lemma workerTail_sends server outcome :
  omap sendOf (workerTail server outcome)
  = option_list (failureOf (server, outcome)).
Proof. destruct outcome as [uri [e |]]; reflexivity. Qed.

(** A rollback goroutine looks its server up, runs the delete operation on
    what it found and logs one line. *)
Lemma deleteWorker_run servers ip uri tr :
  is_run (deleteWorker servers (ip, uri)) tr () →
  ∃ tr1 r line,
    is_run (deleteSubscriptionFromServer (getServerInfo servers ip) uri) tr1 r ∧
    tr = tr1 ++ [did (LogPrintf line) ()].
Proof.
  unfold deleteWorker. rewrite is_run_mbind.
  intros (tr1 & tr2 & r & -> & Hd & Hl).
  destruct r as [e |]; apply is_run_logPrintf in Hl as ->; eauto.
Qed.

Lemma getServerInfo_hit servers ip :
  ip ∈ IP <$> servers →
  getServerInfo servers ip ∈ servers ∧ IP (getServerInfo servers ip) = ip.
Proof.
  induction servers as [| s rest IH]; simpl.
  - intros Hin. by apply elem_of_nil in Hin.
  - destruct (String.eqb_spec (IP s) ip) as [E | E].
    + intros _. split; [by left | done].
    + intros Hin. apply elem_of_cons in Hin as [-> | Hin]; [done |].
      destruct (IH Hin) as [H1 H2]. split; [by right | done].
Qed.

Lemma getServerInfo_miss servers ip :
  ip ∉ IP <$> servers → getServerInfo servers ip = zeroServer.
Proof.
  induction servers as [| s rest IH]; simpl; [done |].
  intros Hin. apply not_elem_of_cons in Hin as [Hne Hin].
  destruct (String.eqb_spec (IP s) ip) as [E | E]; [congruence | auto].
Qed.

End Workers.

(** ** The map built by a sequence of stores *)

Section Stores.

Lemma applyStores_snoc l kv (m : gmap string string) :
  applyStores (l ++ [kv]) m = <[kv.1 := kv.2]> (applyStores l m).
Proof. unfold applyStores. by rewrite foldl_app. Qed.

(** An entry of the map is the last store to its key. *)
Lemma lookup_applyStores l (m : gmap string string) k v :
  applyStores l m !! k = Some v → (k, v) ∈ l ∨ m !! k = Some v.
Proof.
  induction l as [| [k' v'] l IH] using rev_ind; [by right |].
  rewrite applyStores_snoc. simpl. rewrite lookup_insert.
  case_decide as E.
  - intros [= <-]. subst k'. left. apply elem_of_app. right. by left.
  - intros Hl. destruct (IH Hl) as [Hin | Hm]; [left | by right].
    apply elem_of_app. by left.
Qed.

Lemma dom_applyStores l (m : gmap string string) :
  dom (applyStores l m) = list_to_set l.*1 ∪ dom m.
Proof.
  induction l as [| [k' v'] l IH] using rev_ind.
  - simpl. by rewrite (left_id_L ∅ (∪)).
  - rewrite applyStores_snoc, dom_insert_L, IH, fmap_app, list_to_set_app_L.
    simpl. apply set_eq. intros x.
    rewrite !elem_of_union, elem_of_singleton, elem_of_empty. tauto.
Qed.

Lemma remove_dups_length_le (l : list string) :
  (length (remove_dups l) ≤ length l)%nat.
Proof.
  induction l as [| x l IH]; simpl; [done |].
  destruct (decide_rel _ _ _); simpl; lia.
Qed.

Lemma remove_dups_length_lt (l : list string) :
  ¬ NoDup l → (length (remove_dups l) < length l)%nat.
Proof.
  induction l as [| x l IH]; simpl.
  - intros Hn. destruct Hn. constructor.
  - intros Hn. destruct (decide_rel _ _ _) as [Hin | Hin]; simpl.
    + pose proof (remove_dups_length_le l). lia.
    + assert (¬ NoDup l) as Hl.
      { intros Hl. apply Hn. by constructor. }
      specialize (IH Hl). lia.
Qed.

Lemma size_list_to_set_dups (l : list string) :
  size (list_to_set l : gset string) = length (remove_dups l).
Proof.
  rewrite <- (size_list_to_set (C := gset string) (remove_dups l))
    by apply NoDup_remove_dups.
  f_equal. apply set_eq. intros x.
  by rewrite !elem_of_list_to_set, elem_of_remove_dups.
Qed.

Lemma dom_applyStores_empty l :
  dom (applyStores l (∅ : gmap string string)) = list_to_set l.*1.
Proof. by rewrite dom_applyStores, dom_empty_L, (right_id_L ∅ (∪)). Qed.

End Stores.

(** ** The two phases of a fleet create *)

Section Phases.
Context `{Backend}.

Lemma actors_NoDup (mk : nat → actor) `{!Inj (=) (=) mk} n :
  NoDup (mk <$> seq 0 n).
Proof. apply (NoDup_fmap_2 mk), NoDup_seq. Qed.

Lemma log_actors (mk : nat → actor) n (log : list (actor * item)) :
  Forall (λ e, ∃ i, (i < n)%nat ∧ e.1 = mk i) log →
  Forall (λ e, e.1 ∈ mk <$> seq 0 n) log.
Proof.
  intros Hlog. eapply Forall_impl; [exact Hlog |]. intros e (i & Hi & ->).
  apply list_elem_of_fmap. exists i. split; [done |].
  apply elem_of_seq. lia.
Qed.

(** The part of a log that a pool wrote, split by goroutine. *)
Lemma pool_projection {B} (f : item → option B) (mk : nat → actor)
    `{!Inj (=) (=) mk} n (log : list (actor * item)) :
  Forall (λ e, ∃ i, (i < n)%nat ∧ e.1 = mk i) log →
  omap (λ e, f e.2) log ≡ₚ seq 0 n ≫= (λ i, omap f (eventsOf (mk i) log)).
Proof.
  intros Hlog.
  rewrite (interleave f (mk <$> seq 0 n) log);
    [| by apply actors_NoDup | by apply log_actors].
  induction (seq 0 n) as [| i l IH]; [done |].
  rewrite fmap_cons, !bind_cons. by rewrite IH.
Qed.

(** At the join of the create phase every goroutine has run
    [createSubscription] to an outcome; the stores in the log are the
    successes, the channel holds the failures, and the map is what the stores
    built. *)
Lemma createPhase_summary sched servers payload w st1 :
  createPhase sched servers payload w = Some st1 →
  ∃ outcomes,
    length outcomes = length servers ∧
    (∀ i s o, servers !! i = Some s → outcomes !! i = Some o →
       returned (createSubscription s payload)
         (eventsOf (Creator i) (events st1)) o) ∧
    stores (events st1) ≡ₚ omap successOf (zip servers outcomes) ∧
    errChan st1 ≡ₚ omap failureOf (zip servers outcomes) ∧
    subscriptionMap st1 = applyStores (stores (events st1)) ∅ ∧
    Forall (λ e, ∃ i, e.1 = Creator i) (events st1).
Proof.
  unfold createPhase. intros Hgo.
  apply goAndWait_runs in Hgo as (new & Hev & Hruns & Hact & Hch & Hmap & _);
    [| apply _].
  simpl in Hev, Hch, Hmap. rewrite length_fmap in Hact. rewrite Hev.
  destruct (list_choice
    (λ i s o, ∃ tr1, is_run (createSubscription s payload) tr1 o ∧
                     eventsOf (Creator i) new = tr1 ++ workerTail s o) servers)
    as (outcomes & Hlen & Hout).
  { intros i s Hs. specialize (Hruns i (createWorker payload s)).
    rewrite list_lookup_fmap, Hs in Hruns. specialize (Hruns eq_refl).
    apply createWorker_run in Hruns as (tr1 & o & Hr & E). eauto. }
  assert (Hper : ∀ (B : Type) (f : item → option B)
             (g : RedfishServer * (string * option error) → option B),
             (∀ s o tr, is_run (createSubscription s payload) tr o →
                        omap f tr = []) →
             (∀ s o, omap f (workerTail s o) = option_list (g (s, o))) →
             omap (λ e, f e.2) new ≡ₚ omap g (zip servers outcomes)).
  { intros B f g Hquiet Htail.
    rewrite (pool_projection f Creator (length servers) new Hact).
    rewrite omap_as_bind.
    replace (length servers) with (length (zip servers outcomes))
      by (rewrite length_zip; lia).
    rewrite (seq_bind_lookup (zip servers outcomes) _
               (λ x, option_list (g x)) 0); [done |].
    intros i [s o] Hi. apply lookup_zip_with_Some in Hi
      as (s' & o' & [= <- <-] & Hs & Ho).
    destruct (Hout i s o Hs Ho) as (tr1 & Hr & E). simpl.
    by rewrite E, omap_app, (Hquiet s o tr1 Hr), Htail. }
  exists outcomes. split; [exact Hlen |]. split; [| split; [| split; [| split]]].
  - intros i s o Hs Ho. destruct (Hout i s o Hs Ho) as (tr1 & Hr & E).
    exists tr1, (workerTail s o). done.
  - apply (Hper _ storeOf successOf).
    + intros s o tr Hr. by destruct (createSubscription_quiet _ _ _ _ Hr).
    + apply workerTail_stores.
  - rewrite Hch. apply (Hper _ sendOf failureOf).
    + intros s o tr Hr. by destruct (createSubscription_quiet _ _ _ _ Hr).
    + apply workerTail_sends.
  - exact Hmap.
  - eapply Forall_impl; [exact Hact |]. intros e (i & _ & E). eauto.
Qed.

Lemma uses_deleteWorker servers entry :
  uses isClientOp (deleteWorker servers entry).
Proof.
  destruct entry as [ip uri]. unfold deleteWorker.
  apply uses_mbind.
  { eapply uses_mono; [| apply uses_deleteSubscriptionFromServer].
    intros a Ha. by apply cleanup_client, delete_cleanup. }
  intros [e |]; by apply uses_perform.
Qed.

(** The rollback pass: after the announcement, the log holds, for every
    entry of the map, one run of the delete operation on the descriptor
    found for the entry's address, followed by one log line. *)
Lemma rollback_summary rsched servers (m : gmap string string) st st2 :
  DeleteSubscriptionsFromAllServers rsched servers m st = Some st2 →
  ∃ new,
    events st2
    = events st ++ (Main, did (LogPrintf "Unsubscribing from servers...") ())
                   :: new ∧
    Forall (λ e, ∃ j, (j < size m)%nat ∧ e.1 = Deleter j) new ∧
    (∀ j ip uri, map_to_list m !! j = Some (ip, uri) →
       ∃ tr r line,
         is_run (deleteSubscriptionFromServer (getServerInfo servers ip) uri)
           tr r ∧
         eventsOf (Deleter j) new = tr ++ [did (LogPrintf line) ()]) ∧
    subscriptionMap st2 = subscriptionMap st ∧
    errChan st2 = errChan st.
Proof.
  unfold DeleteSubscriptionsFromAllServers.
  destruct (interp Main _ st) as [[u st1] |] eqn:Hlog; [| done].
  simpl in Hlog. injection Hlog as _ <-. intros Hgo.
  apply goAndWait_runs in Hgo as (new & Hev & Hruns & Hact & Hch & Hmap & _);
    [| apply _].
  simpl in Hev, Hch, Hmap.
  rewrite length_fmap, length_map_to_list in Hact.
  assert (Hworker : ∀ j ip uri, map_to_list m !! j = Some (ip, uri) →
    ∃ tr r line,
      is_run (deleteSubscriptionFromServer (getServerInfo servers ip) uri) tr r ∧
      eventsOf (Deleter j) new = tr ++ [did (LogPrintf line) ()]).
  { intros j ip uri Hj. specialize (Hruns j (deleteWorker servers (ip, uri))).
    rewrite list_lookup_fmap, Hj in Hruns. specialize (Hruns eq_refl).
    apply deleteWorker_run in Hruns as (tr & r & line & Hr & E). eauto. }
  assert (Hquiet : ∀ (B : Type) (f : item → option B),
             (∀ it, isClientOp it.1 = true → f it = None) →
             omap (λ e, f e.2) new = []).
  { intros B f Hf. apply Permutation_nil_r.
    rewrite (pool_projection f Deleter (size m) new Hact).
    rewrite <- (length_map_to_list m).
    rewrite (seq_bind_lookup (map_to_list m) _ (λ _, []) 0);
      [by rewrite bind_nothing |].
    intros j [ip uri] Hj. specialize (Hruns j (deleteWorker servers (ip, uri))).
    rewrite list_lookup_fmap, Hj in Hruns. specialize (Hruns eq_refl).
    destruct (uses_reaches _ _ _ _ (uses_deleteWorker servers (ip, uri)) Hruns)
      as [_ Htr].
    eapply omap_outside; [exact Hf | exact Htr]. }
  exists new. split; [| split; [exact Hact | split; [exact Hworker | split]]].
  - rewrite Hev. by rewrite <- app_assoc.
  - rewrite Hmap. unfold stores. rewrite (Hquiet _ storeOf); [done |].
    intros [a r] Ha. by destruct a as [[]| | | | |].
  - rewrite Hch. unfold sends. rewrite (Hquiet _ sendOf), app_nil_r; [done |].
    intros [a r] Ha. by destruct a as [[]| | | | |].
Qed.

End Phases.

(** ** Running goroutines to their ends *)

Section Termination.
Context `{Backend}.

Lemma exec_app mk s1 s2 pool st :
  exec mk (s1 ++ s2) pool st
  = let '(pool1, st1) := exec mk s1 pool st in exec mk s2 pool1 st1.
Proof.
  revert pool st. induction s1 as [| i s1 IH]; intros pool st; simpl; [done |].
  destruct (step mk i pool st) as [pool1 st1]. apply IH.
Qed.

(** A goroutine that could run to its end on its own does so when the
    schedule names it often enough. *)
Lemma run_alone mk i (p : prog unit) pool st st' :
  pool !! i = Some p → interp (mk i) p st = Some ((), st') →
  ∃ n, exec mk (replicate n i) pool st = (<[i := Ret ()]> pool, st').
Proof.
  revert pool st. induction p as [[] | a k IH]; intros pool st Hp; simpl.
  - intros [= <-]. exists 0. simpl. by rewrite list_insert_id.
  - destruct (fire (mk i) a st) as [[r st1] |] eqn:F; [| done]. intros Hi.
    destruct (IH r (<[i := k r]> pool) st1) as [n Hn]; [| exact Hi |].
    { apply list_lookup_insert_eq. by eapply lookup_lt_Some. }
    exists (S n). simpl. unfold step. rewrite Hp, F.
    by rewrite Hn, list_insert_insert_eq.
Qed.

(** Running the goroutines one after the other. *)
Lemma run_in_turn mk (Inv : nat → state → Prop) (pool : list (prog unit)) :
  (∀ i p st, pool !! i = Some p → Inv i st →
     ∃ st', interp (mk i) p st = Some ((), st') ∧ Inv (S i) st') →
  ∀ st, Inv 0 st →
  ∃ sched st', goAndWait mk sched pool st = Some st' ∧ Inv (length pool) st'.
Proof.
  intros Hturn.
  assert (Hgen : ∀ n j cur st,
    j + n = length pool → length cur = length pool → Inv j st →
    (∀ i, (i < j)%nat → cur !! i = Some (Ret ())) →
    (∀ i, (j ≤ i)%nat → cur !! i = pool !! i) →
    ∃ sched cur' st', exec mk sched cur st = (cur', st') ∧
      forallb finished cur' = true ∧ Inv (length pool) st').
  { induction n as [| n IH]; intros j cur st Hj Hlen HI Hdone Htodo.
    - exists [], cur, st. split; [done |]. split.
      + apply forallb_forall. intros p Hin.
        apply list_elem_of_In, list_elem_of_lookup in Hin as [i Hi].
        rewrite Hdone in Hi; [by injection Hi as <- |].
        apply lookup_lt_Some in Hi. lia.
      + by replace (length pool) with j by lia.
    - destruct (lookup_lt_is_Some_2 pool j) as [p Hp]; [lia |].
      destruct (Hturn j p st Hp HI) as (st1 & Hi & HI1).
      destruct (run_alone mk j p cur st st1) as [k Hk]; [| exact Hi |].
      { by rewrite Htodo. }
      destruct (IH (S j) (<[j := Ret ()]> cur) st1)
        as (sched & cur' & st' & He & Hf & HI'); [lia | | exact HI1 | | |].
      { by rewrite length_insert. }
      { intros i Hlt. destruct (decide (i = j)) as [-> | Hne].
        - apply list_lookup_insert_eq. lia.
        - rewrite list_lookup_insert_ne by done. apply Hdone. lia. }
      { intros i Hle. rewrite list_lookup_insert_ne by lia. apply Htodo. lia. }
      exists (replicate k j ++ sched), cur', st'.
      rewrite exec_app, Hk. done. }
  intros st HI.
  destruct (Hgen (length pool) 0 pool st) as (sched & cur' & st' & He & Hf & HI');
    [done | done | exact HI | intros i Hi; lia | done |].
  exists sched, st'. unfold goAndWait. by rewrite He, Hf.
Qed.

End Termination.

(** ** The error channel never fills up *)

Section Channel.
Context `{Backend}.

Lemma sendsAtMost_quiet {A} n (p : prog A) :
  uses isClientOp p → sendsAtMost n p.
Proof.
  induction p as [x | a k IH]; simpl; [done |].
  intros [Ha Hk]. destruct a as [c | | | | |]; try done; intros r; by apply IH.
Qed.

Lemma sendsAtMost_bind {A B} n (p : prog A) (f : A → prog B) :
  uses isClientOp p → (∀ x, sendsAtMost n (f x)) → sendsAtMost n (bind p f).
Proof.
  induction p as [x | a k IH]; simpl; [auto |].
  intros [Ha Hk] Hf. destruct a as [c | | | | |]; try done;
    intros r; by apply IH.
Qed.

(** Each create goroutine sends at most once. *)
Lemma createWorker_sends payload server :
  sendsAtMost 1 (createWorker payload server).
Proof.
  unfold createWorker. apply sendsAtMost_bind.
  - apply uses_createSubscription.
  - intros [uri [e |]]; simpl; done.
Qed.

Lemma sum_list_insert (bs : list nat) i n m :
  bs !! i = Some n → sum_list (<[i := m]> bs) + n = sum_list bs + m.
Proof.
  revert i. induction bs as [| b bs IH]; intros [| i]; simpl; try done.
  - intros [= ->]. lia.
  - intros Hi. specialize (IH i Hi). lia.
Qed.

(** A step never lets the errors in the channel plus the sends still
    allowed grow. *)
Lemma step_budget mk i pool st pool' st' bs :
  Forall2 sendsAtMost bs pool → step mk i pool st = (pool', st') →
  ∃ bs', Forall2 sendsAtMost bs' pool' ∧
    length (errChan st') + sum_list bs' ≤ length (errChan st) + sum_list bs ∧
    chanCap st' = chanCap st.
Proof.
  intros Hbs Hstep.
  apply step_spec in Hstep as [[-> ->] | (a & k & r & Hi & F & ->)].
  { exists bs. split; [done | split; [lia | done]]. }
  apply fire_spec in F as (_ & Hcap & Hch & _).
  destruct (Forall2_lookup_r _ _ _ _ _ Hbs Hi) as (n & Hn & Hsend).
  assert (Hkeep : (∀ r, sendsAtMost n (k r)) → sends [(mk i, did a r)] = [] →
    ∃ bs', Forall2 sendsAtMost bs' (<[i := k r]> pool) ∧
      length (errChan st') + sum_list bs' ≤ length (errChan st) + sum_list bs ∧
      chanCap st' = chanCap st).
  { intros Hk Hs. exists bs. rewrite Hch, Hs, app_nil_r.
    split; [| split; [lia | done]].
    rewrite <- (list_insert_id bs i n Hn). by apply Forall2_insert. }
  destruct a as [c | line | | | key value | err]; simpl in Hsend;
    try (apply Hkeep; [exact Hsend | reflexivity]).
  destruct n as [| m]; [done |].
  exists (<[i := m]> bs). split; [by apply Forall2_insert |].
  split; [| done]. rewrite Hch. cbn. rewrite length_app. simpl.
  pose proof (sum_list_insert bs i (S m) m Hn). lia.
Qed.

Lemma exec_budget mk sched pool st pool' st' bs :
  Forall2 sendsAtMost bs pool → exec mk sched pool st = (pool', st') →
  ∃ bs', Forall2 sendsAtMost bs' pool' ∧
    length (errChan st') + sum_list bs' ≤ length (errChan st) + sum_list bs ∧
    chanCap st' = chanCap st.
Proof.
  revert pool st bs. induction sched as [| i sched IH]; intros pool st bs Hbs.
  - simpl. intros [= <- <-]. exists bs. split; [done | split; [lia | done]].
  - simpl. destruct (step mk i pool st) as [pool1 st1] eqn:S. intros He.
    destruct (step_budget _ _ _ _ _ _ _ Hbs S) as (bs1 & Hbs1 & Hle1 & Hcap1).
    destruct (IH _ _ _ Hbs1 He) as (bs' & Hbs' & Hle & Hcap).
    exists bs'. split; [done | split; [lia | congruence]].
Qed.

Lemma sum_list_lookup_le (bs : list nat) i n :
  bs !! i = Some n → n ≤ sum_list bs.
Proof.
  revert i. induction bs as [| b bs IH]; intros [| i]; simpl; try done.
  - intros [= ->]. lia.
  - intros Hi. specialize (IH i Hi). lia.
Qed.

End Channel.

(** ** No schedule leads to a deadlock *)

Section Progress.
Context `{Backend}.

Lemma disciplined_bind {A} h (p : prog A) (f : A → prog unit) :
  uses isClientOp p → (∀ x, disciplined h (f x)) → disciplined h (bind p f).
Proof.
  induction p as [x | a k IH]; simpl; [auto |].
  intros [Ha Hk] Hf. destruct a as [c | | | | |]; try done;
    intros r; by apply IH.
Qed.

Lemma createWorker_disciplined payload server :
  disciplined false (createWorker payload server).
Proof.
  unfold createWorker. apply disciplined_bind.
  - apply uses_createSubscription.
  - intros [uri [e |]]; simpl; done.
Qed.

(** A disciplined goroutine, scheduled on its own while no other goroutine
    holds the mutex and while the channel has room for its sends, runs to
    its end. *)
Lemma alone_completes who (p : prog unit) h n st :
  disciplined h p → sendsAtMost n p →
  mu st = h → length (errChan st) + n ≤ chanCap st →
  ∃ st', interp who p st = Some ((), st') ∧ mu st' = false ∧
    length (errChan st') ≤ length (errChan st) + n ∧
    chanCap st' = chanCap st.
Proof.
  revert h n st. induction p as [[] | a k IH]; intros h n st; simpl.
  - intros -> _ Hmu _. exists st. split; [done |]. split; [done |].
    split; [lia | done].
  - unfold fire.
    destruct a as [c | line | | | key value | err]; simpl.
    + intros Hd Hs Hmu Hroom. destruct (gofish c (world st)) as [r w'].
      destruct (IH r h n (record who (did (Gofish c) r)
                  (mkState w' (mu st) (subscriptionMap st) (errChan st)
                     (chanCap st) (events st))))
        as (st' & Hi & Hrest); auto.
      exists st'. by rewrite Hi.
    + intros Hd Hs Hmu Hroom.
      destruct (IH () h n (record who (did (LogPrintf line) ()) st))
        as (st' & Hi & Hrest); auto.
      exists st'. by rewrite Hi.
    + intros [-> Hd] Hs Hmu Hroom. rewrite Hmu.
      destruct (IH () true n (record who (did MuLock ())
                  (mkState (world st) true (subscriptionMap st) (errChan st)
                     (chanCap st) (events st))))
        as (st' & Hi & Hrest); auto.
      exists st'. by rewrite Hi.
    + intros [-> Hd] Hs Hmu Hroom. rewrite Hmu.
      destruct (IH () false n (record who (did MuUnlock ())
                  (mkState (world st) false (subscriptionMap st) (errChan st)
                     (chanCap st) (events st))))
        as (st' & Hi & Hrest); auto.
      exists st'. by rewrite Hi.
    + intros Hd Hs Hmu Hroom.
      destruct (IH () h n (record who (did (MapStore key value) ())
                  (mkState (world st) (mu st)
                     (<[key := value]> (subscriptionMap st)) (errChan st)
                     (chanCap st) (events st))))
        as (st' & Hi & Hrest); auto.
      exists st'. by rewrite Hi.
    + intros [-> Hd] Hs Hmu Hroom. destruct n as [| n]; [done |].
      rewrite bool_decide_eq_true_2 by lia.
      destruct (IH () false n (record who (did (ChanSend err) ())
                  (mkState (world st) (mu st) (subscriptionMap st)
                     (errChan st ++ [err]) (chanCap st) (events st))))
        as (st' & Hi & Hmu' & Hlen & Hcap); auto.
      { simpl. rewrite length_app. simpl. lia. }
      exists st'. rewrite Hi. split; [done |]. split; [done |].
      simpl in Hlen, Hcap. rewrite length_app in Hlen. simpl in Hlen.
      split; [lia | done].
Qed.

Lemma createInit_poolInv servers payload w :
  poolInv (createWorker payload <$> servers) (createInit servers w) None
    (replicate (length servers) 1).
Proof.
  split; [done |]. split; [done |]. split; [| split].
  - intros i p Hp. apply list_lookup_fmap_Some in Hp as (s & -> & _).
    apply createWorker_disciplined.
  - apply Forall2_replicate_l; [by rewrite length_fmap |].
    apply Forall_fmap, Forall_forall. intros s _. apply createWorker_sends.
  - simpl. rewrite sum_list_replicate. lia.
Qed.

(** A step keeps the invariant. *)
Lemma step_poolInv mk i pool st pool' st' holder bs :
  poolInv pool st holder bs → step mk i pool st = (pool', st') →
  ∃ holder' bs', poolInv pool' st' holder' bs' ∧ chanCap st' = chanCap st.
Proof.
  intros (Hmu & Hvalid & Hdisc & Hbs & Hroom) Hstep.
  apply step_spec in Hstep as [[-> ->] | (a & k & r & Hi & F & ->)].
  { exists holder, bs. done. }
  pose proof (Hdisc i _ Hi) as Hd.
  destruct (Forall2_lookup_r _ _ _ _ _ Hbs Hi) as (n & Hn & Hsend).
  pose proof (lookup_lt_Some _ _ _ Hi) as Hlt.
  assert (Hother : ∀ (hold : option nat) j p (q : prog unit),
            <[i := q]> pool !! j = Some p → j ≠ i → pool !! j = Some p).
  { intros _ j p q Hj Hne. by rewrite list_lookup_insert_ne in Hj. }
  unfold fire in F.
  destruct a as [c | line | | | key value | err]; simpl in F, Hd, Hsend.
  - destruct (gofish c (world st)) as [r' w']. injection F as <- <-.
    exists holder, bs. split; [| done]. split; [done |].
    split; [by intros h Hh; rewrite length_insert; apply Hvalid |].
    split; [| split; [| done]].
    + intros j p Hj. destruct (decide (j = i)) as [-> | Hne].
      * rewrite list_lookup_insert_eq in Hj by done. injection Hj as <-. apply Hd.
      * apply Hdisc. by rewrite list_lookup_insert_ne in Hj.
    + rewrite <- (list_insert_id bs i n Hn). by apply Forall2_insert.
  - injection F as <- <-.
    exists holder, bs. split; [| done]. split; [done |].
    split; [by intros h Hh; rewrite length_insert; apply Hvalid |].
    split; [| split; [| done]].
    + intros j p Hj. destruct (decide (j = i)) as [-> | Hne].
      * rewrite list_lookup_insert_eq in Hj by done. injection Hj as <-. apply Hd.
      * apply Hdisc. by rewrite list_lookup_insert_ne in Hj.
    + rewrite <- (list_insert_id bs i n Hn). by apply Forall2_insert.
  - destruct (mu st) eqn:Emu; [done |]. injection F as <- <-.
    destruct holder as [h |]; [done |]. destruct Hd as [_ Hd].
    exists (Some i), bs. split; [| done]. split; [done |].
    split; [by intros h [= <-]; rewrite length_insert |].
    split; [| split; [| done]].
    + intros j p Hj. destruct (decide (j = i)) as [-> | Hne].
      * rewrite list_lookup_insert_eq in Hj by done. injection Hj as <-.
        rewrite bool_decide_eq_true_2 by done. apply Hd.
      * rewrite bool_decide_eq_false_2 by congruence.
        rewrite list_lookup_insert_ne in Hj by done.
        by apply (Hdisc j p).
    + rewrite <- (list_insert_id bs i n Hn). by apply Forall2_insert.
  - destruct (mu st) eqn:Emu; [| done]. injection F as <- <-.
    destruct Hd as [Hh Hd]. apply bool_decide_eq_true_1 in Hh. subst holder.
    exists None, bs. split; [| done]. split; [done |].
    split; [done |]. split; [| split; [| done]].
    + intros j p Hj. destruct (decide (j = i)) as [-> | Hne].
      * rewrite list_lookup_insert_eq in Hj by done. injection Hj as <-. apply Hd.
      * rewrite list_lookup_insert_ne in Hj by done.
        specialize (Hdisc j p Hj).
        by rewrite bool_decide_eq_false_2 in Hdisc by congruence.
    + rewrite <- (list_insert_id bs i n Hn). by apply Forall2_insert.
  - injection F as <- <-.
    exists holder, bs. split; [| done]. split; [done |].
    split; [by intros h Hh; rewrite length_insert; apply Hvalid |].
    split; [| split; [| done]].
    + intros j p Hj. destruct (decide (j = i)) as [-> | Hne].
      * rewrite list_lookup_insert_eq in Hj by done. injection Hj as <-. apply Hd.
      * apply Hdisc. by rewrite list_lookup_insert_ne in Hj.
    + rewrite <- (list_insert_id bs i n Hn). by apply Forall2_insert.
  - destruct (bool_decide _) eqn:Hfree; simpl in F; [| done].
    injection F as <- <-.
    destruct Hd as [Hh Hd]. destruct n as [| n]; simpl in Hsend; [done |].
    exists holder, (<[i := n]> bs). split; [| done]. split; [done |].
    split; [by intros h Hh'; rewrite length_insert; apply Hvalid |].
    split; [| split].
    + intros j p Hj. destruct (decide (j = i)) as [-> | Hne].
      * rewrite list_lookup_insert_eq in Hj by done. injection Hj as <-.
        rewrite Hh. apply Hd.
      * apply Hdisc. by rewrite list_lookup_insert_ne in Hj.
    + by apply Forall2_insert.
    + simpl. rewrite length_app. simpl.
      pose proof (sum_list_insert bs i (S n) n Hn). lia.
Qed.

Lemma exec_poolInv mk sched pool st pool' st' holder bs :
  poolInv pool st holder bs → exec mk sched pool st = (pool', st') →
  ∃ holder' bs', poolInv pool' st' holder' bs' ∧ chanCap st' = chanCap st.
Proof.
  revert pool st holder bs.
  induction sched as [| i sched IH]; intros pool st holder bs Hinv; simpl.
  - intros [= <- <-]. eauto.
  - destruct (step mk i pool st) as [pool1 st1] eqn:S. intros He.
    destruct (step_poolInv _ _ _ _ _ _ _ _ Hinv S) as (h1 & bs1 & Hinv1 & Hc1).
    destruct (IH _ _ _ _ Hinv1 He) as (h' & bs' & Hinv' & Hc').
    exists h', bs'. split; [done | congruence].
Qed.

(** From a state in which nobody holds the mutex, the goroutines can be run
    to their ends one after the other. *)
Lemma free_pool_completes mk pool st bs :
  poolInv pool st None bs →
  ∃ sched st', goAndWait mk sched pool st = Some st'.
Proof.
  intros (Hmu & _ & Hdisc & Hbs & Hroom).
  destruct (run_in_turn mk
    (λ i st', mu st' = false ∧ chanCap st' = chanCap st ∧
              length (errChan st') + sum_list (drop i bs) ≤ chanCap st)
    pool) with (st := st) as (sched & st' & Hgo & _).
  - intros i p st1 Hp (Hmu1 & Hcap1 & Hroom1).
    destruct (Forall2_lookup_r _ _ _ _ _ Hbs Hp) as (n & Hn & Hsend).
    rewrite (drop_S _ _ _ Hn) in Hroom1. simpl in Hroom1.
    destruct (alone_completes (mk i) p false n st1)
      as (st2 & Hi & Hmu2 & Hlen2 & Hcap2); [by apply (Hdisc i p) | done | done
      | lia |].
    exists st2. split; [exact Hi |]. split; [done |].
    split; [congruence | lia].
  - rewrite drop_0. done.
  - eauto.
Qed.

(** From every state that a schedule can lead to, the schedule can be
    continued so that all goroutines return. *)
Lemma poolInv_completes mk pool st holder bs :
  poolInv pool st holder bs →
  ∃ ext st', goAndWait mk ext pool st = Some st'.
Proof.
  destruct holder as [h |]; [| apply free_pool_completes].
  intros (Hmu & Hvalid & Hdisc & Hbs & Hroom).
  destruct (lookup_lt_is_Some_2 pool h (Hvalid h eq_refl)) as [p Hp].
  destruct (Forall2_lookup_r _ _ _ _ _ Hbs Hp) as (n & Hn & Hsend).
  pose proof (sum_list_lookup_le _ _ _ Hn) as Hle.
  pose proof (Hdisc h p Hp) as Hd. rewrite bool_decide_eq_true_2 in Hd by done.
  destruct (alone_completes (mk h) p true n st Hd Hsend Hmu)
    as (st1 & Hi & Hmu1 & Hlen1 & Hcap1); [lia |].
  destruct (run_alone mk h p pool st st1 Hp Hi) as [k Hk].
  destruct (free_pool_completes mk (<[h := Ret ()]> pool) st1 (<[h := 0]> bs))
    as (sched & st' & Hgo).
  { split; [done |]. split; [done |]. split; [| split].
    - intros j q Hj. destruct (decide (j = h)) as [-> | Hne].
      + rewrite list_lookup_insert_eq in Hj by (by eapply lookup_lt_Some).
        by injection Hj as <-.
      + rewrite list_lookup_insert_ne in Hj by done.
        specialize (Hdisc j q Hj).
        by rewrite bool_decide_eq_false_2 in Hdisc by congruence.
    - by apply Forall2_insert.
    - pose proof (sum_list_insert bs h n 0 Hn). lia. }
  exists (replicate k h ++ sched), st'. unfold goAndWait in *.
  by rewrite exec_app, Hk.
Qed.

(** The create phase cannot get stuck: whatever the schedule has done so
    far, it has a continuation under which [wg.Wait()] returns. *)
Lemma createPhase_no_deadlock sched servers payload w :
  ∃ ext st1, createPhase (sched ++ ext) servers payload w = Some st1.
Proof.
  unfold createPhase, goAndWait.
  destruct (exec Creator sched (createWorker payload <$> servers)
              (createInit servers w)) as [pool st] eqn:He.
  destruct (exec_poolInv _ _ _ _ _ _ _ _ (createInit_poolInv servers payload w) He)
    as (holder & bs & Hinv & _).
  destruct (poolInv_completes Creator _ _ _ _ Hinv) as (ext & st1 & Hgo).
  exists ext, st1. unfold goAndWait in Hgo. by rewrite exec_app, He.
Qed.

(** The rollback goroutines never wait for one another. *)
Lemma step_uses mk Q i pool st pool' st' :
  Forall (uses Q) pool → step mk i pool st = (pool', st') →
  Forall (uses Q) pool'.
Proof.
  intros Hu Hstep.
  apply step_spec in Hstep as [[-> ->] | (a & k & r & Hi & F & ->)]; [done |].
  apply Forall_insert; [done |].
  rewrite Forall_lookup in Hu. destruct (Hu i _ Hi) as [_ Hk]. apply Hk.
Qed.

Lemma exec_uses mk Q sched pool st pool' st' :
  Forall (uses Q) pool → exec mk sched pool st = (pool', st') →
  Forall (uses Q) pool'.
Proof.
  revert pool st. induction sched as [| i sched IH]; intros pool st Hu; simpl.
  - by intros [= <- <-].
  - destruct (step mk i pool st) as [pool1 st1] eqn:S. apply IH.
    by eapply step_uses.
Qed.

Lemma quiet_pool_completes mk pool st :
  Forall (uses isClientOp) pool →
  ∃ sched st', goAndWait mk sched pool st = Some st'.
Proof.
  intros Hu.
  destruct (run_in_turn mk (λ _ _, True) pool) with (st := st)
    as (sched & st' & Hgo & _); [| done | eauto].
  intros i p st1 Hp _. rewrite Forall_lookup in Hu.
  destruct (interp_total (mk i) p st1 (Hu i p Hp)) as ([] & st2 & tr & Hi & _).
  eauto.
Qed.

Lemma DeleteSubscriptionsFromAllServers_no_deadlock rsched servers
    (m : gmap string string) st :
  ∃ ext st2,
    DeleteSubscriptionsFromAllServers (rsched ++ ext) servers m st = Some st2.
Proof.
  unfold DeleteSubscriptionsFromAllServers, goAndWait. simpl.
  destruct (exec Deleter rsched (deleteWorker servers <$> map_to_list m)
              (record Main (did (LogPrintf "Unsubscribing from servers...") ()) st))
    as [pool st1] eqn:He.
  assert (Forall (uses isClientOp) pool) as Hu.
  { eapply exec_uses; [| exact He].
    apply Forall_fmap, Forall_forall. intros e _. apply uses_deleteWorker. }
  destruct (quiet_pool_completes Deleter pool st1 Hu) as (ext & st2 & Hgo).
  exists ext, st2. unfold goAndWait in Hgo. by rewrite exec_app, He.
Qed.

(** Whatever the two schedules have done so far, they have continuations
    under which the call returns. *)
Lemma CreateSubscriptionsForAllServers_no_deadlock sched rsched servers
    payload w :
  ∃ ext rext res,
    CreateSubscriptionsForAllServers (sched ++ ext) (rsched ++ rext) servers
      payload w = Some res.
Proof.
  destruct (createPhase_no_deadlock sched servers payload w)
    as (ext & st1 & H1).
  destruct (DeleteSubscriptionsFromAllServers_no_deadlock rsched servers
              (subscriptionMap st1) st1) as (rext & st2 & H2).
  exists ext, rext. unfold CreateSubscriptionsForAllServers.
  rewrite H1. simpl. case_bool_decide; [rewrite H2 |]; eauto.
Qed.

(** In particular, for every input and every backend there are schedules
    under which the call returns. *)
Lemma CreateSubscriptionsForAllServers_returns servers payload w :
  ∃ sched rsched res,
    CreateSubscriptionsForAllServers sched rsched servers payload w = Some res.
Proof.
  destruct (CreateSubscriptionsForAllServers_no_deadlock [] [] servers payload w)
    as (ext & rext & res & Hres).
  eauto.
Qed.

End Progress.

(** * The claims *)

(** ** Single-target client *)

Section ClientClaims.
Context `{Handles}.

Lemma sameRuns_refl {A} (p : prog A) : sameRuns p p.
Proof. by intros tr x. Qed.

Lemma sameRuns_mbind {A B} (p p' : prog A) (f g : A → prog B) :
  sameRuns p p' → (∀ x, sameRuns (f x) (g x)) → sameRuns (p ≫= f) (p' ≫= g).
Proof.
  intros Hp Hf tr y. rewrite !is_run_mbind.
  split; intros (t1 & t2 & x & -> & H1 & H2); exists t1, t2, x;
    (split; [done |]); split; by (apply Hp || apply Hf).
Qed.

Lemma deleteConflictingLoop_destination server payload payload' l :
  Destination payload' = Destination payload →
  deleteConflictingLoop server payload' l = deleteConflictingLoop server payload l.
Proof.
  intros E. induction l as [| s rest IH]; cbn [deleteConflictingLoop]; [done |].
  by rewrite E, IH.
Qed.

(** The cleanup looks at nothing but the destination of the payload. *)
Lemma deleteConflictingSubscriptions_destination server payload payload' :
  Destination payload' = Destination payload →
  sameRuns (deleteConflictingSubscriptions server payload')
           (deleteConflictingSubscriptions server payload).
Proof.
  intros E. unfold deleteConflictingSubscriptions.
  apply sameRuns_mbind; [apply sameRuns_refl |].
  intros [e | l]; [apply sameRuns_refl |].
  rewrite (deleteConflictingLoop_destination _ _ _ _ E). apply sameRuns_refl.
Qed.

(** [createSubscription] does not look at the modern-shape fields. *)
Lemma createSubscription_modern_fields server payload rp rt pol :
  sameRuns (createSubscription server (withModernFields payload rp rt pol))
           (createSubscription server payload).
Proof.
  unfold createSubscription.
  apply sameRuns_mbind; [apply sameRuns_refl |].
  intros [e | c]; [apply sameRuns_refl |]. unfold deferLogout.
  apply sameRuns_mbind; [| intros x; apply sameRuns_refl].
  apply sameRuns_mbind; [apply sameRuns_refl |].
  intros [e | es]; [apply sameRuns_refl |].
  apply sameRuns_mbind; [| intros _; apply sameRuns_refl].
  by apply deleteConflictingSubscriptions_destination.
Qed.

(** C7. For every server and every payload, the version check yields
    false and every run of [createSubscription] issues no create request
    other than the legacy one, which carries exactly the destination, the
    event types, the headers, the protocol, the context and the Oem data of
    the payload; it is issued as soon as the session and its event service
    were obtained.  The registry prefixes, the resource types and the
    delivery-retry policy of the payload have no influence on any run. *)
Theorem createSubscription_always_legacy server payload tr outcome :
  is_run (createSubscription server payload) tr outcome →
  isV1_5 = false ∧
  (omap createOf tr = [] ∨ omap createOf tr = [legacyRequest payload]) ∧
  (sessionOpened tr → omap createOf tr = [legacyRequest payload]) ∧
  (∀ registryPrefixes resourceTypes deliveryRetryPolicy,
     sameRuns
       (createSubscription server
          (withModernFields payload registryPrefixes resourceTypes
             deliveryRetryPolicy))
       (createSubscription server payload)).
Proof.
  intros Hr. split; [reflexivity |].
  split; [| split; [| intros; apply createSubscription_modern_fields]].
  - apply createSubscription_run in Hr.
    destruct Hr as [(e & -> & _) | [(c & e & -> & _) |
      (c & es & trc & cl & r & Hcl & -> & _)]]; [by left | by left | right].
    rewrite !omap_app, (cleanup_issues_no_create _ _ _ _ Hcl). done.
  - intros (config & c' & line' & es' & rest & E).
    apply createSubscription_run in Hr.
    destruct Hr as [(e & -> & _) | [(c & e & -> & _) |
      (c & es & trc & cl & r & Hcl & -> & _)]]; [discriminate E | discriminate E |].
    rewrite !omap_app, (cleanup_issues_no_create _ _ _ _ Hcl). done.
Qed.

(** C6. In every run of the cleanup in which the controller reported the
    subscriptions [subscriptions], the delete requests go, in order, to
    subscriptions whose destination equals the payload's, and to nothing
    else; when the cleanup returns without error, the subscriptions whose
    deletion was acknowledged are exactly those with the payload's
    destination.  Nothing of the payload but its destination is looked at. *)
Theorem cleanup_deletes_matching_destination server payload tr r subscriptions :
  is_run (deleteConflictingSubscriptions server payload) tr r →
  omap listedOf tr = [Listed subscriptions] →
  let matching :=
    filter (λ s, edDestination s = Destination payload) subscriptions in
  omap deleteOf tr `prefix_of` (edODataID <$> matching) ∧
  (∀ uri, uri ∈ omap deleteOf tr →
     ∃ s, s ∈ subscriptions ∧ edODataID s = uri ∧
          edDestination s = Destination payload) ∧
  (r = None → omap deletedOf tr = edODataID <$> matching) ∧
  (∀ payload', Destination payload' = Destination payload →
     sameRuns (deleteConflictingSubscriptions server payload')
              (deleteConflictingSubscriptions server payload)).
Proof.
  intros Hr Hl matching.
  assert (Hmain : omap deleteOf tr `prefix_of` (edODataID <$> matching) ∧
                  (r = None → omap deletedOf tr = edODataID <$> matching)).
  { unfold deleteConflictingSubscriptions in Hr.
    apply is_run_mbind in Hr as (t1 & t2 & l & -> & Hg & Hr).
    apply getServerSubscriptions_run in Hg.
    rewrite omap_app in Hl. rewrite !omap_app.
    destruct Hg as [(e & -> & ->) | [(c & e & -> & ->) |
      (c & es & [e | subs] & -> & ->)]].
    - apply is_run_Ret in Hr as [-> ->]. discriminate Hl.
    - apply is_run_Ret in Hr as [-> ->]. discriminate Hl.
    - apply is_run_Ret in Hr as [-> ->]. discriminate Hl.
    - rewrite (deleteConflictingLoop_no_listing _ _ _ _ _ Hr) in Hl.
      injection Hl as ->.
      destruct (deleteConflictingLoop_run _ _ _ _ _ Hr) as (H1 & _ & H3).
      done. }
  destruct Hmain as [Hpre Hall]. split; [exact Hpre |].
  split; [| split; [exact Hall |]].
  - intros uri Hin. destruct Hpre as [rest Hpre].
    assert (uri ∈ edODataID <$> matching) as Hm.
    { rewrite Hpre. apply elem_of_app. by left. }
    apply list_elem_of_fmap in Hm as (s & -> & Hs).
    apply list_elem_of_filter in Hs as [Hd Hs]. eauto.
  - intros payload' E. by apply deleteConflictingSubscriptions_destination.
Qed.

End ClientClaims.

(** ** Fleet orchestrator *)

Section FleetFacts.
Context `{Backend}.

(** The two ways [CreateSubscriptionsForAllServers] returns. *)
Lemma CreateSubscriptionsForAllServers_cases sched rsched servers payload w
    m e st :
  CreateSubscriptionsForAllServers sched rsched servers payload w
  = Some (m, e, st) →
  ∃ st1, createPhase sched servers payload w = Some st1 ∧
    ((errChan st1 = [] ∧ m = Some (subscriptionMap st1) ∧ e = None ∧ st = st1) ∨
     (errChan st1 ≠ [] ∧ m = None ∧
      e = Some ("subscription process encountered errors: "
                +:+ fmtStrings (errChan st1)) ∧
      DeleteSubscriptionsFromAllServers rsched servers (subscriptionMap st1) st1
      = Some st)).
Proof.
  unfold CreateSubscriptionsForAllServers.
  destruct (createPhase sched servers payload w) as [st1 |]; [| done].
  simpl. case_bool_decide as Hlen.
  - destruct (DeleteSubscriptionsFromAllServers _ _ _ _) as [st2 |] eqn:D;
      [| done].
    intros [= <- <- <-]. exists st1. split; [done |]. right.
    split; [| done]. intros E. rewrite E in Hlen. simpl in Hlen. lia.
  - intros [= <- <- <-]. exists st1. split; [done |]. left.
    split; [| done]. destruct (errChan st1); [done | simpl in Hlen; lia].
Qed.

(** The rollback adds nothing to what the log says of the create
    goroutines. *)
Lemma rollback_keeps_creators rsched servers (m : gmap string string) st st2 i :
  DeleteSubscriptionsFromAllServers rsched servers m st = Some st2 →
  eventsOf (Creator i) (events st2) = eventsOf (Creator i) (events st).
Proof.
  intros Hd. apply rollback_summary in Hd as (new & -> & Hact & _).
  rewrite eventsOf_app, eventsOf_cons_ne by done.
  rewrite (eventsOf_absent (Creator i) new), app_nil_r; [done |].
  eapply Forall_impl; [exact Hact |]. intros ev (j & _ & ->). done.
Qed.

(** What the log of a returned call says about the create phase. *)
Lemma fleet_summary sched rsched servers payload w m e st :
  CreateSubscriptionsForAllServers sched rsched servers payload w
  = Some (m, e, st) →
  ∃ st1 outcomes,
    createPhase sched servers payload w = Some st1 ∧
    length outcomes = length servers ∧
    (∀ i s o, servers !! i = Some s →
       (outcomes !! i = Some o ↔
        returned (createSubscription s payload)
          (eventsOf (Creator i) (events st)) o)) ∧
    stores (events st1) ≡ₚ omap successOf (zip servers outcomes) ∧
    errChan st1 ≡ₚ omap failureOf (zip servers outcomes) ∧
    subscriptionMap st1 = applyStores (stores (events st1)) ∅.
Proof.
  intros Hc.
  apply CreateSubscriptionsForAllServers_cases in Hc as (st1 & Hp & Hc).
  destruct (createPhase_summary _ _ _ _ _ Hp)
    as (outcomes & Hlen & Hout & Hst & Hch & Hmap & _).
  exists st1, outcomes. split; [exact Hp |]. split; [exact Hlen |].
  split; [| done].
  assert (Hev : ∀ i, eventsOf (Creator i) (events st)
                     = eventsOf (Creator i) (events st1)).
  { intros i. destruct Hc as [(_ & _ & _ & ->) | (_ & _ & _ & Hd)]; [done |].
    by eapply rollback_keeps_creators. }
  intros i s o Hs. rewrite Hev.
  destruct (lookup_lt_is_Some_2 outcomes i) as [o' Ho'].
  { rewrite Hlen. by eapply lookup_lt_Some. }
  specialize (Hout i s o' Hs Ho'). split.
  - intros Ho. by rewrite Ho in Ho'; injection Ho' as <-.
  - intros Hr. by rewrite (returned_det _ _ _ _ Hr Hout).
Qed.

Lemma zip_lookup_Some {A B} (l : list A) (k : list B) i a b :
  zip l k !! i = Some (a, b) ↔ l !! i = Some a ∧ k !! i = Some b.
Proof.
  rewrite lookup_zip_with_Some. split.
  - by intros (x & y & [= -> ->] & Hx & Hy).
  - intros [Hx Hy]. eauto.
Qed.

Lemma NoDup_remove_dups_length (l : list string) :
  NoDup l → length (remove_dups l) = length l.
Proof.
  induction 1 as [| x l Hx _ IH]; simpl; [done |].
  destruct (decide_rel _ _ _); [done |]. simpl. by rewrite IH.
Qed.

Lemma elem_of_successes servers (outcomes : list (string * option error)) x :
  x ∈ omap successOf (zip servers outcomes) ↔
  ∃ i s uri, servers !! i = Some s ∧ outcomes !! i = Some (uri, None) ∧
             x = (IP s, uri).
Proof.
  rewrite list_elem_of_omap. split.
  - intros ([s [uri err]] & Hin & Hs).
    apply list_elem_of_lookup in Hin as [i Hi].
    apply zip_lookup_Some in Hi as [Hs' Ho].
    unfold successOf in Hs. simpl in Hs. destruct err; [done |].
    injection Hs as <-. eauto 10.
  - intros (i & s & uri & Hs & Ho & ->). exists (s, (uri, None)).
    split; [| done]. apply list_elem_of_lookup. exists i.
    by apply zip_lookup_Some.
Qed.

Lemma elem_of_failures servers (outcomes : list (string * option error)) x :
  x ∈ omap failureOf (zip servers outcomes) ↔
  ∃ i s uri err, servers !! i = Some s ∧ outcomes !! i = Some (uri, Some err) ∧
                 x = failureMessage s err.
Proof.
  rewrite list_elem_of_omap. split.
  - intros ([s [uri err]] & Hin & Hs).
    apply list_elem_of_lookup in Hin as [i Hi].
    apply zip_lookup_Some in Hi as [Hs' Ho].
    unfold failureOf in Hs. simpl in Hs. destruct err as [err |]; [| done].
    injection Hs as <-. eauto 10.
  - intros (i & s & uri & err & Hs & Ho & ->). exists (s, (uri, Some err)).
    split; [| done]. apply list_elem_of_lookup. exists i.
    by apply zip_lookup_Some.
Qed.

(** The call returns a map exactly when no create failed. *)
Lemma returned_map_all_created sched rsched servers payload w entries e st :
  CreateSubscriptionsForAllServers sched rsched servers payload w
  = Some (Some entries, e, st) →
  ∀ i s, servers !! i = Some s →
    ∃ uri, createReturned payload (events st) i s (uri, None).
Proof.
  intros Hc i s Hs.
  destruct (fleet_summary _ _ _ _ _ _ _ _ Hc)
    as (st1 & outcomes & Hp & Hlen & Hout & _ & Hch & _).
  apply CreateSubscriptionsForAllServers_cases in Hc as (st1' & Hp' & Hc).
  rewrite Hp in Hp'. injection Hp' as <-.
  destruct Hc as [(Hnil & _) | (_ & [=] & _)].
  destruct (lookup_lt_is_Some_2 outcomes i) as [[uri err] Ho].
  { rewrite Hlen. by eapply lookup_lt_Some. }
  destruct err as [err |].
  - rewrite Hnil in Hch. symmetry in Hch. apply Permutation_nil_r in Hch.
    assert (failureMessage s err ∈ omap failureOf (zip servers outcomes)) as Hin.
    { apply elem_of_failures. eauto 10. }
    rewrite Hch in Hin. by apply elem_of_nil in Hin.
  - exists uri. by apply (Hout i s).
Qed.

Lemma returned_nil_some_failed sched rsched servers payload w e st :
  CreateSubscriptionsForAllServers sched rsched servers payload w
  = Some (None, e, st) →
  ∃ i s uri err, servers !! i = Some s ∧
    createReturned payload (events st) i s (uri, Some err).
Proof.
  intros Hc.
  destruct (fleet_summary _ _ _ _ _ _ _ _ Hc)
    as (st1 & outcomes & Hp & Hlen & Hout & _ & Hch & _).
  apply CreateSubscriptionsForAllServers_cases in Hc as (st1' & Hp' & Hc).
  rewrite Hp in Hp'. injection Hp' as <-.
  destruct Hc as [(_ & [=] & _) | (Hne & _)].
  destruct (errChan st1) as [| msg rest] eqn:E; [done |].
  assert (msg ∈ omap failureOf (zip servers outcomes)) as Hin.
  { rewrite <- Hch. by left. }
  apply elem_of_failures in Hin as (i & s & uri & err & Hs & Ho & _).
  exists i, s, uri, err. split; [done |]. by apply (Hout i s).
Qed.

Lemma successes_keys servers (outcomes : list (string * option error)) :
  length outcomes = length servers →
  Forall (λ o, o.2 = None) outcomes →
  (omap successOf (zip servers outcomes)).*1 = IP <$> servers.
Proof.
  revert outcomes.
  induction servers as [| s servers IH]; intros [| [uri err] outcomes];
    try done.
  simpl. intros [= Hlen] Hall. apply Forall_cons in Hall as [Herr Hall].
  simpl in Herr. subst err. cbn. f_equal. by apply IH.
Qed.

(** When the call returns a map, no create failed; the keys of the map are
    the addresses of the list and every entry is an identifier that the
    create of a server at that address returned. *)
Lemma success_summary sched rsched servers payload w entries e st :
  CreateSubscriptionsForAllServers sched rsched servers payload w
  = Some (Some entries, e, st) →
  e = None ∧
  dom entries = list_to_set (IP <$> servers) ∧
  (∀ ip uri, entries !! ip = Some uri →
     ∃ i s, servers !! i = Some s ∧ IP s = ip ∧
            createReturned payload (events st) i s (uri, None)).
Proof.
  intros Hc. pose proof (returned_map_all_created _ _ _ _ _ _ _ _ Hc) as Hall.
  destruct (fleet_summary _ _ _ _ _ _ _ _ Hc)
    as (st1 & outcomes & Hp & Hlen & Hout & Hst & Hch & Hmap).
  apply CreateSubscriptionsForAllServers_cases in Hc as (st1' & Hp' & Hc).
  rewrite Hp in Hp'. injection Hp' as <-.
  destruct Hc as [(Hnil & [= ->] & -> & ->) | (_ & [=] & _)].
  split; [done |]. split.
  - rewrite Hmap, dom_applyStores_empty.
    assert (Hkeys : (stores (events st1)).*1 ≡ₚ IP <$> servers).
    { rewrite Hst. rewrite successes_keys; [done | done |].
      apply Forall_lookup. intros i [uri err] Ho. simpl.
      destruct (lookup_lt_is_Some_2 servers i) as [s Hs].
      { rewrite <- Hlen. by eapply lookup_lt_Some. }
      destruct (Hall i s Hs) as [uri' Hr]. apply (Hout i s) in Hr; [| done].
      congruence. }
    apply set_eq. intros x. by rewrite !elem_of_list_to_set, Hkeys.
  - intros ip uri Hl. rewrite Hmap in Hl.
    apply lookup_applyStores in Hl as [Hl | Hl];
      [| by rewrite lookup_empty in Hl].
    rewrite Hst in Hl.
    apply elem_of_successes in Hl as (i & s & u & Hs & Ho & [= -> ->]).
    exists i, s. split; [done |]. split; [done |]. by apply (Hout i s).
Qed.

End FleetFacts.

Section FleetClaims.
Context `{Backend}.



(** C5. Whenever the call returns and the [createSubscription] of some
    server returned an error, the returned map is nil and the returned error
    is the fixed prefix followed by the per-server failure messages, joined
    by spaces between square brackets in the order in which they arrived, as
    [fmt] renders a slice of strings: one message for every server whose
    create failed, naming that server and carrying the error its create
    returned, and no other message.  The call does return: whatever the
    schedules have done, they can be continued so that it does. *)
Theorem failure_reports_every_error sched rsched servers payload w m e st :
  CreateSubscriptionsForAllServers sched rsched servers payload w
  = Some (m, e, st) →
  (∃ i s uri err, servers !! i = Some s ∧
     createReturned payload (events st) i s (uri, Some err)) →
  m = None ∧
  (∃ (msgs : list string) (outcomes : list (string * option error)),
    e = Some ("subscription process encountered errors: "
              +:+ "[" +:+ String.concat " " msgs +:+ "]") ∧
    msgs ≠ [] ∧
    length outcomes = length servers ∧
    (∀ i s o, servers !! i = Some s →
       (outcomes !! i = Some o ↔ createReturned payload (events st) i s o)) ∧
    msgs ≡ₚ omap failureOf (zip servers outcomes) ∧
    (∀ msg, msg ∈ msgs ↔
       ∃ i s uri err, servers !! i = Some s ∧
         createReturned payload (events st) i s (uri, Some err) ∧
         msg = "subscription failed on server " +:+ IP s +:+ ": " +:+ err)) ∧
  (∃ ext rext res,
     CreateSubscriptionsForAllServers (sched ++ ext) (rsched ++ rext) servers
       payload w = Some res).
Proof.
  intros Hc (i & s & uri & err & Hs & Hfail).
  destruct (fleet_summary _ _ _ _ _ _ _ _ Hc)
    as (st1 & outcomes & Hp & Hlen & Hout & Hst & Hch & Hmap).
  apply CreateSubscriptionsForAllServers_cases in Hc as (st1' & Hp' & Hc).
  rewrite Hp in Hp'. injection Hp' as <-.
  apply (Hout i s) in Hfail; [| exact Hs].
  assert (failureMessage s err ∈ errChan st1) as Hin.
  { rewrite Hch. apply elem_of_failures. eauto 10. }
  destruct Hc as [(Hnil & _) | (Hne & -> & -> & Hd)].
  { rewrite Hnil in Hin. by apply elem_of_nil in Hin. }
  split; [done |].
  split; [| apply CreateSubscriptionsForAllServers_no_deadlock].
  exists (errChan st1), outcomes.
  split; [done |]. split; [done |]. split; [done |]. split; [exact Hout |].
  split; [exact Hch |].
  intros msg. rewrite Hch, elem_of_failures. split.
  - intros (i' & s' & u & err' & Hs' & Ho' & ->). exists i', s', u, err'.
    split; [done |]. split; [by apply (Hout i' s') | done].
  - intros (i' & s' & u & err' & Hs' & Ho' & ->). exists i', s', u, err'.
    split; [done |]. split; [by apply (Hout i' s') | done].
Qed.

(** C2. For every list of servers with pairwise distinct addresses,
    whenever the call returns and the [createSubscription] of every server
    returned without error, the returned error is nil and the returned map
    has exactly one entry per server: its keys are the addresses of the
    list, its size is the length of the list, and the entry at a server's
    address is the identifier that the create of that server returned.  The
    call does return: whatever the schedules have done, they can be
    continued so that it does. *)
Theorem success_returns_every_identifier sched rsched servers payload w m e st :
  NoDup (IP <$> servers) →
  CreateSubscriptionsForAllServers sched rsched servers payload w
  = Some (m, e, st) →
  (∀ i s, servers !! i = Some s →
     ∃ uri, createReturned payload (events st) i s (uri, None)) →
  e = None ∧
  (∃ entries : gmap string string,
     m = Some entries ∧
     size entries = length servers ∧
     dom entries = list_to_set (IP <$> servers) ∧
     (∀ i s uri, servers !! i = Some s →
        createReturned payload (events st) i s (uri, None) →
        entries !! IP s = Some uri)) ∧
  (∃ ext rext res,
     CreateSubscriptionsForAllServers (sched ++ ext) (rsched ++ rext) servers
       payload w = Some res).
Proof.
  intros Hnd Hc Hall.
  assert (∃ entries, m = Some entries) as [entries ->].
  { destruct m as [entries |]; [by eexists |].
    destruct (returned_nil_some_failed _ _ _ _ _ _ _ Hc)
      as (i & s & uri & err & Hs & Hr).
    destruct (Hall i s Hs) as [uri' Hr'].
    by pose proof (returned_det _ _ _ _ Hr Hr'). }
  destruct (success_summary _ _ _ _ _ _ _ _ Hc) as (-> & Hdom & Hentry).
  split; [done |].
  split; [| apply CreateSubscriptionsForAllServers_no_deadlock].
  exists entries. split; [done |].
  split; [| split; [exact Hdom |]].
  - rewrite <- size_dom, Hdom, size_list_to_set by done. apply length_fmap.
  - intros i s uri Hs Hr.
    assert (IP s ∈ dom entries) as Hin.
    { rewrite Hdom, elem_of_list_to_set. apply list_elem_of_fmap.
      exists s. split; [done |]. by eapply list_elem_of_lookup_2. }
    apply elem_of_dom in Hin as [v Hv]. rewrite Hv. f_equal.
    destruct (Hentry _ _ Hv) as (i' & s' & Hs' & E & Hr').
    assert (i' = i) as ->.
    { apply (NoDup_lookup _ _ _ (IP s) Hnd); rewrite list_lookup_fmap;
        [rewrite Hs'; simpl; by rewrite E | by rewrite Hs]. }
    rewrite Hs in Hs'. injection Hs' as <-.
    by pose proof (returned_det _ _ _ _ Hr Hr') as [= ->].
Qed.

(** C9. For every list in which two descriptors have the same address,
    whenever the call returns a map, the map has one entry per distinct
    address: its size is the number of distinct addresses, which is smaller
    than the number of servers; the entry at an address is the identifier
    that the create of one server at that address returned, and any other
    identifier created for that address is not recorded for it. *)
Theorem duplicate_addresses_share_an_entry sched rsched servers payload w
    entries e st :
  CreateSubscriptionsForAllServers sched rsched servers payload w
  = Some (Some entries, e, st) →
  (∃ i j s s', i ≠ j ∧ servers !! i = Some s ∧ servers !! j = Some s' ∧
               IP s = IP s') →
  size entries = length (remove_dups (IP <$> servers)) ∧
  size entries < length servers ∧
  (∀ ip, ip ∈ IP <$> servers →
     ∃ i s uri, servers !! i = Some s ∧ IP s = ip ∧
       createReturned payload (events st) i s (uri, None) ∧
       entries !! ip = Some uri ∧
       ∀ j s' uri', servers !! j = Some s' → IP s' = ip →
         createReturned payload (events st) j s' (uri', None) →
         uri' ≠ uri → (ip, uri') ∉ map_to_list entries).
Proof.
  intros Hc (i & j & s & s' & Hne & Hs & Hs' & E).
  destruct (success_summary _ _ _ _ _ _ _ _ Hc) as (-> & Hdom & Hentry).
  assert (Hsize : size entries = length (remove_dups (IP <$> servers))).
  { by rewrite <- size_dom, Hdom, size_list_to_set_dups. }
  split; [exact Hsize |]. split.
  - rewrite Hsize, <- (length_fmap IP servers).
    apply remove_dups_length_lt. intros Hnd. apply Hne.
    apply (NoDup_lookup _ _ _ (IP s) Hnd); rewrite list_lookup_fmap;
      [by rewrite Hs | rewrite Hs'; simpl; by rewrite E].
  - intros ip Hip.
    assert (ip ∈ dom entries) as Hin by by rewrite Hdom, elem_of_list_to_set.
    apply elem_of_dom in Hin as [uri Hv].
    destruct (Hentry _ _ Hv) as (i1 & s1 & Hs1 & E1 & Hr1).
    exists i1, s1, uri. split; [done |]. split; [done |]. split; [done |].
    split; [done |].
    intros j' s2 uri' _ _ _ Hdiff Hin.
    apply elem_of_map_to_list in Hin. congruence.
Qed.

(** C8. The error channel is created with the number of servers as its
    capacity and each create goroutine sends at most once on any path.  So,
    under every schedule and at every moment, the errors sent so far all sit
    in the channel and do not exceed its capacity, and whenever a goroutine
    is about to send, the channel has room and the send goes through. *)
Theorem error_channel_never_full sched servers payload w pool st :
  exec Creator sched (createWorker payload <$> servers) (createInit servers w)
  = (pool, st) →
  chanCap (createInit servers w) = length servers ∧
  chanCap st = length servers ∧
  Forall (sendsAtMost 1) (createWorker payload <$> servers) ∧
  errChan st = sends (events st) ∧
  length (sends (events st)) ≤ chanCap st ∧
  (∀ i err k, pool !! i = Some (Vis (ChanSend err) k) →
     length (errChan st) < chanCap st ∧
     is_Some (fire (Creator i) (ChanSend err) st)).
Proof.
  intros He. split; [done |].
  destruct (exec_tracks _ _ _ _ _ _ He)
    as (new & Hev & _ & _ & Hch & _ & Hcap).
  simpl in Hev, Hch, Hcap. subst new.
  assert (Hworkers : Forall (sendsAtMost 1) (createWorker payload <$> servers)).
  { apply Forall_fmap, Forall_forall. intros s _. apply createWorker_sends. }
  destruct (exec_budget _ _ _ _ _ _ (replicate (length servers) 1)
              (Forall2_replicate_l _ _ _ _ (length_fmap _ _) Hworkers) He)
    as (bs & Hbs & Hle & _).
  simpl in Hle. rewrite sum_list_replicate in Hle.
  split; [done |]. split; [done |]. split; [done |].
  split; [rewrite <- Hch, Hcap; lia |].
  intros i err k Hi.
  destruct (Forall2_lookup_r _ _ _ _ _ Hbs Hi) as (n & Hn & Hsend).
  simpl in Hsend. destruct n as [| n]; [done |].
  pose proof (sum_list_lookup_le _ _ _ Hn).
  assert (length (errChan st) < chanCap st) as Hroom by (rewrite Hcap; lia).
  split; [exact Hroom |].
  unfold fire. simpl. by rewrite bool_decide_eq_true_2.
Qed.

(** A rollback goroutine whose connection attempt is refused logs the
    refusal twice, once in [getRedfishClient] and once on return, and does
    nothing else. *)
Lemma deleteWorker_refused servers ip uri tr e :
  is_run (deleteWorker servers (ip, uri)) tr () →
  head tr
  = Some (did (Gofish (Connect (configOf (getServerInfo servers ip)))) (inl e)) →
  let server := getServerInfo servers ip in
  tr = [did (Gofish (Connect (configOf server))) (inl e);
        did (LogPrintf ("Error connecting to redfish server " +:+ IP server
                        +:+ ": " +:+ e)) ();
        did (LogPrintf ("Failed to delete event subscription on server "
                        +:+ IP server +:+ ": "
                        +:+ ("failed to connect to server " +:+ IP server
                             +:+ ": " +:+ e))) ()].
Proof.
  unfold deleteWorker. intros Hr Hhd.
  apply is_run_mbind in Hr as (tr1 & tr2 & r & -> & Hd & Hl).
  apply deleteSubscriptionFromServer_run in Hd
    as [(e' & -> & ->) | [(c & e' & -> & ->) | (c & es & d & -> & ->)]];
    simpl in Hhd; [| discriminate Hhd | discriminate Hhd].
  injection Hhd as ->. by apply is_run_logPrintf in Hl as ->.
Qed.

(** The rollback goroutine of an entry whose address is unknown. *)
Lemma unknown_address_zero_run rsched servers
    (m : gmap string string) st st2 j ip uri :
  DeleteSubscriptionsFromAllServers rsched servers m st = Some st2 →
  map_to_list m !! j = Some (ip, uri) →
  (ip ∉ IP <$> servers) →
  ∃ rollback,
    events st2 = events st ++ announcement :: rollback ∧
    (∃ tr r line,
       is_run (deleteSubscriptionFromServer zeroServer uri) tr r ∧
       eventsOf (Deleter j) rollback = tr ++ [did (LogPrintf line) ()]) ∧
    (∀ e, head (eventsOf (Deleter j) rollback)
          = Some (did (Gofish (Connect (configOf zeroServer))) (inl e)) →
       eventsOf (Deleter j) rollback
       = [did (Gofish (Connect (configOf zeroServer))) (inl e);
          did (LogPrintf ("Error connecting to redfish server : " +:+ e)) ();
          did (LogPrintf ("Failed to delete event subscription on server : "
                          +:+ ("failed to connect to server : " +:+ e))) ()]) ∧
    (∀ j' ip' uri', map_to_list m !! j' = Some (ip', uri') →
       ∃ tr r line,
         is_run (deleteSubscriptionFromServer (getServerInfo servers ip') uri')
           tr r ∧
         eventsOf (Deleter j') rollback = tr ++ [did (LogPrintf line) ()]).
Proof.
  intros Hd Hj Hmiss.
  pose proof (getServerInfo_miss _ _ Hmiss) as Hzero.
  unfold DeleteSubscriptionsFromAllServers in Hd. simpl in Hd.
  apply goAndWait_runs in Hd as (new & Hev & Hruns & _); [| apply _].
  exists new. split; [by rewrite Hev; simpl; rewrite <- app_assoc |].
  assert (Hall : ∀ j' ip' uri', map_to_list m !! j' = Some (ip', uri') →
            is_run (deleteWorker servers (ip', uri'))
              (eventsOf (Deleter j') new) ()).
  { intros j' ip' uri' Hj'.
    specialize (Hruns j' (deleteWorker servers (ip', uri'))).
    rewrite list_lookup_fmap, Hj' in Hruns. by apply Hruns. }
  split; [| split].
  - pose proof (deleteWorker_run _ _ _ _ (Hall _ _ _ Hj))
      as (tr & r & line & Hr & E).
    rewrite Hzero in Hr. eauto 10.
  - intros e Hhd.
    pose proof (deleteWorker_refused servers ip uri _ e (Hall _ _ _ Hj)) as Href.
    rewrite Hzero in Href. by apply Href.
  - intros j' ip' uri' Hj'. by apply deleteWorker_run, Hall.
Qed.

(** C10. For every address that no descriptor of the list has,
    [getServerInfo] returns the zero value, whose address, user name and
    password are empty, and the rollback goroutine of an entry with such an
    address runs the delete operation on that zero value: its steps are one
    run of [deleteSubscriptionFromServer] on the zero value followed by one
    log line, the connection being attempted with the configuration built
    from the zero value; when that attempt fails, the goroutine only logs. *)
Theorem unknown_address_uses_zero_value rsched servers
    (m : gmap string string) st st2 j ip uri :
  DeleteSubscriptionsFromAllServers rsched servers m st = Some st2 →
  map_to_list m !! j = Some (ip, uri) →
  (ip ∉ IP <$> servers) →
  getServerInfo servers ip = zeroServer ∧
  (IP zeroServer = "" ∧ Username zeroServer = "" ∧ Password zeroServer = "") ∧
  ∃ rollback,
    events st2 = events st ++ announcement :: rollback ∧
    (∃ tr r line,
       is_run (deleteSubscriptionFromServer zeroServer uri) tr r ∧
       eventsOf (Deleter j) rollback = tr ++ [did (LogPrintf line) ()]) ∧
    omap connectOf (eventsOf (Deleter j) rollback) = [configOf zeroServer] ∧
    (∀ e, head (eventsOf (Deleter j) rollback)
          = Some (did (Gofish (Connect (configOf zeroServer))) (inl e)) →
       eventsOf (Deleter j) rollback
       = [did (Gofish (Connect (configOf zeroServer))) (inl e);
          did (LogPrintf ("Error connecting to redfish server : " +:+ e)) ();
          did (LogPrintf ("Failed to delete event subscription on server : "
                          +:+ ("failed to connect to server : " +:+ e))) ()]).
Proof.
  intros Hd Hj Hmiss.
  split; [by apply getServerInfo_miss |]. split; [done |].
  destruct (unknown_address_zero_run _ _ _ _ _ _ _ _ Hd Hj Hmiss)
    as (new & Hev & (tr & r & line & Hr & E) & Href & _).
  exists new. split; [exact Hev |]. split; [eauto 10 |]. split; [| exact Href].
  rewrite E, omap_app.
  by destruct (deleteSubscriptionFromServer_calls _ _ _ _ Hr) as (-> & _).
Qed.

(** C4, as the code has it.  An entry whose address no descriptor of the
    list has is not skipped: its rollback goroutine attempts exactly one
    connection, configured from the zero value (empty endpoint, empty user
    name and password), and sends at most one delete request, for the
    entry's identifier; when the connection is refused, it sends none and
    only logs.  The pass goes on all the same: every entry of the map gets
    its run of the delete operation, and the function has no error to
    return. *)
Theorem unknown_address_is_attempted rsched servers
    (m : gmap string string) st st2 j ip uri :
  DeleteSubscriptionsFromAllServers rsched servers m st = Some st2 →
  map_to_list m !! j = Some (ip, uri) →
  (ip ∉ IP <$> servers) →
  ∃ rollback,
    events st2 = events st ++ announcement :: rollback ∧
    omap connectOf (eventsOf (Deleter j) rollback)
    = [{| Endpoint := ""; cfgUsername := ""; cfgPassword := "";
          Insecure := true |}] ∧
    (omap deleteOf (eventsOf (Deleter j) rollback) = [] ∨
     omap deleteOf (eventsOf (Deleter j) rollback) = [uri]) ∧
    (∀ e, head (eventsOf (Deleter j) rollback)
          = Some (did (Gofish (Connect (configOf zeroServer))) (inl e)) →
       omap deleteOf (eventsOf (Deleter j) rollback) = [] ∧
       omap logOf (eventsOf (Deleter j) rollback)
       = ["Error connecting to redfish server : " +:+ e;
          "Failed to delete event subscription on server : "
          +:+ ("failed to connect to server : " +:+ e)]) ∧
    (∀ j' ip' uri', map_to_list m !! j' = Some (ip', uri') →
       ∃ tr r line,
         is_run (deleteSubscriptionFromServer (getServerInfo servers ip') uri')
           tr r ∧
         eventsOf (Deleter j') rollback = tr ++ [did (LogPrintf line) ()]).
Proof.
  intros Hd Hj Hmiss.
  destruct (unknown_address_zero_run _ _ _ _ _ _ _ _ Hd Hj Hmiss)
    as (new & Hev & (tr & r & line & Hr & E) & Href & Hall).
  exists new. split; [exact Hev |].
  destruct (deleteSubscriptionFromServer_calls _ _ _ _ Hr) as (Hc & Hdel & _).
  split; [by rewrite E, omap_app, Hc |].
  split; [rewrite E, omap_app, app_nil_r; exact Hdel |].
  split; [| exact Hall].
  intros e Hhd. by rewrite (Href e Hhd).
Qed.

End FleetClaims.

(** * Lemmas for the further properties *)

(** ** Sessions *)

Section Sessions.
Context `{Handles}.

Lemma deleteSubscriptionFromServer_sessions server uri tr r :
  is_run (deleteSubscriptionFromServer server uri) tr r →
  omap closedOf tr = omap openedOf tr.
Proof.
  intros Hr. apply deleteSubscriptionFromServer_run in Hr
    as [(e & -> & _) | [(c & e & -> & _) | (c & es & d & -> & _)]]; done.
Qed.

Lemma getServerSubscriptions_sessions server tr r :
  is_run (getServerSubscriptions server) tr r →
  omap closedOf tr = omap openedOf tr.
Proof.
  intros Hr. apply getServerSubscriptions_run in Hr
    as [(e & -> & _) | [(c & e & -> & _) | (c & es & d & -> & _)]]; done.
Qed.

Lemma deleteConflictingLoop_sessions server payload subscriptions tr r :
  is_run (deleteConflictingLoop server payload subscriptions) tr r →
  omap closedOf tr = omap openedOf tr.
Proof.
  revert tr. induction subscriptions as [| s rest IH]; intros tr;
    cbn [deleteConflictingLoop].
  - intros Hr. by apply is_run_Ret in Hr as [-> ->].
  - destruct (String.eqb (edDestination s) (Destination payload)); [| apply IH].
    intros Hr. apply is_run_mbind in Hr as (t1 & t2 & e & -> & Hd & Hr).
    apply deleteSubscriptionFromServer_sessions in Hd.
    rewrite !omap_app, Hd. f_equal. destruct e as [e |].
    + by apply is_run_Ret in Hr as [-> ->].
    + apply is_run_mbind in Hr as (t3 & t4 & u & -> & Hl & Hr).
      apply is_run_logPrintf in Hl as ->. by apply IH in Hr.
Qed.

Lemma deleteConflictingSubscriptions_sessions server payload tr r :
  is_run (deleteConflictingSubscriptions server payload) tr r →
  omap closedOf tr = omap openedOf tr.
Proof.
  unfold deleteConflictingSubscriptions. intros Hr.
  apply is_run_mbind in Hr as (t1 & t2 & l & -> & Hl & Hr).
  apply getServerSubscriptions_sessions in Hl. rewrite !omap_app, Hl. f_equal.
  destruct l as [e | subs].
  - by apply is_run_Ret in Hr as [-> ->].
  - by apply deleteConflictingLoop_sessions in Hr.
Qed.

Lemma createSubscription_sessions server payload tr x :
  is_run (createSubscription server payload) tr x →
  omap closedOf tr ≡ₚ omap openedOf tr ∧
  last (omap closedOf tr) = head (omap openedOf tr).
Proof.
  intros Hr. apply createSubscription_run in Hr
    as [(e & -> & _) | [(c & e & -> & _) | (c & es & trc & cl & r & Hc & -> & _)]];
    [done | done |].
  apply deleteConflictingSubscriptions_sessions in Hc.
  rewrite !omap_app, Hc. cbn [omap list_omap app]. simpl.
  split.
  - rewrite app_nil_r. symmetry. apply Permutation_cons_append.
  - by rewrite last_snoc.
Qed.

End Sessions.

(** ** The log of a fleet operation, goroutine by goroutine *)

Section FleetLog.
Context `{Backend}.

(** What holds of the steps of every goroutine holds of every step. *)
Lemma pool_Forall (Q : item → Prop) (mk : nat → actor) n
    (log : list (actor * item)) :
  Forall (λ e, ∃ i, i < n ∧ e.1 = mk i) log →
  (∀ i, i < n → Forall Q (eventsOf (mk i) log)) →
  Forall (λ e, Q e.2) log.
Proof.
  intros Hact HQ. apply Forall_forall. intros e He.
  destruct (proj1 (Forall_forall _ _) Hact e He) as (i & Hi & Ei).
  apply (proj1 (Forall_forall _ _) (HQ i Hi)).
  unfold eventsOf. apply list_elem_of_omap. exists e. split; [done |].
  by rewrite decide_True.
Qed.

Lemma log_outside {B} (Q : action → bool) (f : item → option B)
    (log : list (actor * item)) :
  (∀ it, Q it.1 = true → f it = None) →
  Forall (λ e, Q e.2.1 = true) log → omap (λ e, f e.2) log = [].
Proof.
  intros Hf. induction 1 as [| e log He _ IH]; [done |].
  change (omap (λ e, f e.2) (e :: log))
    with (from_option (λ y, y :: omap (λ e, f e.2) log)
            (omap (λ e, f e.2) log) (f e.2)).
  by rewrite (Hf e.2 He).
Qed.

Lemma bind_Permutation {A B} (l : list A) (f g : A → list B) :
  (∀ x, x ∈ l → f x ≡ₚ g x) → l ≫= f ≡ₚ l ≫= g.
Proof.
  induction l as [| x l IH]; intros Hfg; [done |].
  rewrite !bind_cons. rewrite (Hfg x) by by left.
  rewrite IH; [done |]. intros y Hy. apply Hfg. by right.
Qed.

(** Two projections that agree, up to order, on the steps of every
    goroutine agree, up to order, on the log. *)
Lemma pool_balance {B} (f g : item → option B) (mk : nat → actor)
    `{!Inj (=) (=) mk} n (log : list (actor * item)) :
  Forall (λ e, ∃ i, i < n ∧ e.1 = mk i) log →
  (∀ i, i < n → omap f (eventsOf (mk i) log) ≡ₚ omap g (eventsOf (mk i) log)) →
  omap (λ e, f e.2) log ≡ₚ omap (λ e, g e.2) log.
Proof.
  intros Hact Hfg.
  rewrite (pool_projection f mk n log Hact), (pool_projection g mk n log Hact).
  apply bind_Permutation. intros i Hi. apply Hfg.
  apply elem_of_seq in Hi. lia.
Qed.

(** The log of the create phase: one complete run of the goroutine body per
    server. *)
Lemma createPhase_log sched servers payload w st1 :
  createPhase sched servers payload w = Some st1 →
  Forall (λ e, ∃ i, i < length servers ∧ e.1 = Creator i) (events st1) ∧
  ∀ i s, servers !! i = Some s →
    is_run (createWorker payload s) (eventsOf (Creator i) (events st1)) ().
Proof.
  unfold createPhase. intros Hgo.
  apply goAndWait_runs in Hgo as (new & Hev & Hruns & Hact & _); [| apply _].
  simpl in Hev. rewrite length_fmap in Hact. rewrite Hev.
  split; [exact Hact |]. intros i s Hi. apply Hruns.
  by rewrite list_lookup_fmap, Hi.
Qed.

(** The log of a rollback: the announcement, then one complete run of the
    goroutine body per entry. *)
Lemma rollback_log rsched servers (m : gmap string string) st st2 :
  DeleteSubscriptionsFromAllServers rsched servers m st = Some st2 →
  ∃ new,
    events st2 = events st ++ announcement :: new ∧
    Forall (λ e, ∃ j, j < size m ∧ e.1 = Deleter j) new ∧
    ∀ j entry, map_to_list m !! j = Some entry →
      is_run (deleteWorker servers entry) (eventsOf (Deleter j) new) ().
Proof.
  unfold DeleteSubscriptionsFromAllServers.
  destruct (interp Main _ st) as [[u st1] |] eqn:Hlog; [| done].
  simpl in Hlog. injection Hlog as _ <-. intros Hgo.
  apply goAndWait_runs in Hgo as (new & Hev & Hruns & Hact & _); [| apply _].
  simpl in Hev. rewrite length_fmap, length_map_to_list in Hact.
  exists new. split; [by rewrite Hev, <- app_assoc |].
  split; [exact Hact |]. intros j entry Hj. apply Hruns.
  by rewrite list_lookup_fmap, Hj.
Qed.

(** The keys of the map at the join are addresses of the list. *)
Lemma createPhase_keys sched servers payload w st1 ip uri :
  createPhase sched servers payload w = Some st1 →
  subscriptionMap st1 !! ip = Some uri → ip ∈ IP <$> servers.
Proof.
  intros Hp Hip.
  apply createPhase_summary in Hp
    as (outcomes & Hlen & _ & Hst & _ & Hmap & _).
  rewrite Hmap in Hip. apply lookup_applyStores in Hip as [Hin | Hin];
    [| by rewrite lookup_empty in Hin].
  rewrite Hst in Hin. apply elem_of_successes in Hin
    as (i & s & u & Hi & _ & [= -> _]).
  apply list_elem_of_fmap. exists s. split; [done |].
  by eapply list_elem_of_lookup_2.
Qed.

(** A property of the steps of every create goroutine, of the announcement
    and of every rollback goroutine is a property of every step of a fleet
    create. *)
Lemma fleet_Forall (Q : item → Prop) sched rsched servers payload w m e st :
  CreateSubscriptionsForAllServers sched rsched servers payload w
  = Some (m, e, st) →
  (∀ s tr, s ∈ servers → is_run (createWorker payload s) tr () → Forall Q tr) →
  Q announcement.2 →
  (∀ ip uri tr, ip ∈ IP <$> servers →
     is_run (deleteWorker servers (ip, uri)) tr () → Forall Q tr) →
  Forall (λ e, Q e.2) (events st).
Proof.
  intros Hc Hcreate Hann Hdelete.
  apply CreateSubscriptionsForAllServers_cases in Hc as (st1 & Hp & Hcase).
  destruct (createPhase_log _ _ _ _ _ Hp) as [Hact Hruns].
  assert (H1 : Forall (λ e, Q e.2) (events st1)).
  { apply (pool_Forall Q Creator (length servers)); [exact Hact |].
    intros i Hi. destruct (lookup_lt_is_Some_2 servers i Hi) as [s Hs].
    apply (Hcreate s); [by eapply list_elem_of_lookup_2 | by apply Hruns]. }
  destruct Hcase as [(_ & _ & _ & ->) | (_ & _ & _ & Hd)]; [exact H1 |].
  apply rollback_log in Hd as (new & -> & Hact2 & Hruns2).
  apply Forall_app. split; [exact H1 |]. apply Forall_cons.
  split; [exact Hann |].
  apply (pool_Forall Q Deleter (size (subscriptionMap st1))); [exact Hact2 |].
  intros j Hj. rewrite <- length_map_to_list in Hj.
  destruct (lookup_lt_is_Some_2 _ j Hj) as [[ip uri] Hs].
  apply (Hdelete ip uri); [| by apply Hruns2].
  apply (createPhase_keys _ _ _ _ _ _ uri Hp).
  by apply elem_of_map_to_list, (list_elem_of_lookup_2 _ j).
Qed.

(** Likewise for two projections that agree up to order. *)
Lemma fleet_balance {B} (f g : item → option B) sched rsched servers payload
    w m e st :
  CreateSubscriptionsForAllServers sched rsched servers payload w
  = Some (m, e, st) →
  (∀ s tr, is_run (createWorker payload s) tr () → omap f tr ≡ₚ omap g tr) →
  f announcement.2 = g announcement.2 →
  (∀ entry tr, is_run (deleteWorker servers entry) tr () →
     omap f tr ≡ₚ omap g tr) →
  omap (λ e, f e.2) (events st) ≡ₚ omap (λ e, g e.2) (events st).
Proof.
  intros Hc Hcreate Hann Hdelete.
  apply CreateSubscriptionsForAllServers_cases in Hc as (st1 & Hp & Hcase).
  destruct (createPhase_log _ _ _ _ _ Hp) as [Hact Hruns].
  assert (H1 : omap (λ e, f e.2) (events st1) ≡ₚ omap (λ e, g e.2) (events st1)).
  { apply (pool_balance f g Creator (length servers)); [exact Hact |].
    intros i Hi. destruct (lookup_lt_is_Some_2 servers i Hi) as [s Hs].
    apply (Hcreate s). by apply Hruns. }
  destruct Hcase as [(_ & _ & _ & ->) | (_ & _ & _ & Hd)]; [exact H1 |].
  apply rollback_log in Hd as (new & -> & Hact2 & Hruns2).
  rewrite !omap_app, H1. apply Permutation_app_head.
  cbn [omap list_omap]. rewrite Hann.
  assert (H2 : omap (λ e, f e.2) new ≡ₚ omap (λ e, g e.2) new).
  { apply (pool_balance f g Deleter (size (subscriptionMap st1)));
      [exact Hact2 |].
    intros j Hj. rewrite <- length_map_to_list in Hj.
    destruct (lookup_lt_is_Some_2 _ j Hj) as [entry Hs].
    apply (Hdelete entry). by apply Hruns2. }
  destruct (g announcement.2); by rewrite H2.
Qed.

End FleetLog.

(** ** Sessions and connections of the fleet operations *)

Ltac uses_steps :=
  repeat first
    [ exact I
    | apply uses_perform; reflexivity
    | apply uses_mbind; [| intros ?]
    | match goal with
      | |- uses _ (match ?x with _ => _ end) => destruct x
      end ].

Section FleetSessions.
Context `{Backend}.

Lemma createWorker_sessions payload server tr :
  is_run (createWorker payload server) tr () →
  omap closedOf tr ≡ₚ omap openedOf tr.
Proof.
  intros Hr. apply createWorker_run in Hr as (tr1 & [uri err] & Hr & ->).
  apply createSubscription_sessions in Hr as [Hr _].
  rewrite !omap_app, Hr. by destruct err.
Qed.

Lemma deleteWorker_sessions servers entry tr :
  is_run (deleteWorker servers entry) tr () →
  omap closedOf tr ≡ₚ omap openedOf tr.
Proof.
  destruct entry as [ip uri]. intros Hr.
  apply deleteWorker_run in Hr as (tr1 & r & line & Hr & ->).
  apply deleteSubscriptionFromServer_sessions in Hr.
  by rewrite !omap_app, Hr.
Qed.

Lemma eventsOf_elem_of who (log : list (actor * item)) it :
  it ∈ eventsOf who log ↔ (who, it) ∈ log.
Proof.
  unfold eventsOf. rewrite list_elem_of_omap. split.
  - intros ([who' it'] & Hin & E). simpl in E.
    destruct (decide (who' = who)) as [-> |]; [| done]. by injection E as ->.
  - intros Hin. exists (who, it). split; [done |]. simpl. by rewrite decide_True.
Qed.

Lemma uses_connectsTo_getRedfishClient server :
  uses (connectsTo server) (getRedfishClient server).
Proof.
  unfold getRedfishClient, lib, logPrintf.
  apply uses_mbind; [apply uses_perform; by apply bool_decide_eq_true |].
  intros [e | c]; uses_steps.
Qed.

Lemma uses_connectsTo_deleteSubscriptionFromServer server uri :
  uses (connectsTo server) (deleteSubscriptionFromServer server uri).
Proof.
  unfold deleteSubscriptionFromServer.
  apply uses_mbind; [apply uses_connectsTo_getRedfishClient |].
  intros [e | c]; [exact I |]. apply uses_deferLogout; [done |].
  unfold lib. uses_steps.
Qed.

Lemma uses_connectsTo_getServerSubscriptions server :
  uses (connectsTo server) (getServerSubscriptions server).
Proof.
  unfold getServerSubscriptions.
  apply uses_mbind; [apply uses_connectsTo_getRedfishClient |].
  intros [e | c]; [exact I |]. apply uses_deferLogout; [done |].
  unfold lib. uses_steps.
Qed.

Lemma uses_connectsTo_deleteConflictingSubscriptions server payload :
  uses (connectsTo server) (deleteConflictingSubscriptions server payload).
Proof.
  unfold deleteConflictingSubscriptions.
  apply uses_mbind; [apply uses_connectsTo_getServerSubscriptions |].
  intros [e | subscriptions]; [exact I |].
  induction subscriptions as [| s rest IH]; cbn [deleteConflictingLoop];
    [exact I |].
  destruct (String.eqb _ _); [| exact IH].
  apply uses_mbind; [apply uses_connectsTo_deleteSubscriptionFromServer |].
  intros [e |]; [exact I |].
  apply uses_mbind; [by apply uses_perform | intros _; exact IH].
Qed.

Lemma uses_connectsTo_createSubscription server payload :
  uses (connectsTo server) (createSubscription server payload).
Proof.
  unfold createSubscription.
  apply uses_mbind; [apply uses_connectsTo_getRedfishClient |].
  intros [e | c]; [exact I |]. apply uses_deferLogout; [done |].
  apply uses_mbind; [by apply uses_perform |].
  intros [e | es]; [exact I |].
  apply uses_mbind; [apply uses_connectsTo_deleteConflictingSubscriptions |].
  intros _. unfold isV1_5, createLegacySubscription, lib. uses_steps.
Qed.

Lemma uses_connectsTo_createWorker payload server :
  uses (connectsTo server) (createWorker payload server).
Proof.
  unfold createWorker.
  apply uses_mbind; [apply uses_connectsTo_createSubscription |].
  intros [uri [e |]]; unfold logPrintf; uses_steps.
Qed.

Lemma uses_connectsTo_deleteWorker servers ip uri :
  uses (connectsTo (getServerInfo servers ip)) (deleteWorker servers (ip, uri)).
Proof.
  unfold deleteWorker.
  apply uses_mbind; [apply uses_connectsTo_deleteSubscriptionFromServer |].
  intros [e |]; by apply uses_perform.
Qed.

Lemma connectsTo_connectOf server (tr : list item) :
  Forall (λ it, connectsTo server it.1 = true) tr →
  Forall (λ it, ∀ config, connectOf it = Some config → config = configOf server)
    tr.
Proof.
  intros Htr. eapply Forall_impl; [exact Htr |].
  intros [a r] Ha config Hc. unfold connectOf in Hc.
  simpl in *. destruct a as [[] | | | | |]; try done.
  injection Hc as <-. by apply bool_decide_eq_true in Ha.
Qed.

End FleetSessions.

(** ** Results of the single-target operations *)

Section Results.
Context `{Handles}.

Lemma omap_outside_list {A B} (f : A → option B) (l : list A) :
  (∀ x, x ∈ l → f x = None) → omap f l = [].
Proof.
  induction l as [| x l IH]; intros Hf; [done |].
  cbn [omap list_omap]. rewrite (Hf x) by by left.
  apply IH. intros y Hy. apply Hf. by right.
Qed.

Lemma cleanup_outside {B} (f : item → option B) server payload tr r :
  (∀ it, isCleanupOp it.1 = true → f it = None) →
  is_run (deleteConflictingSubscriptions server payload) tr r →
  omap f tr = [].
Proof.
  intros Hf Hr.
  destruct (uses_reaches _ _ _ _
              (uses_deleteConflictingSubscriptions server payload) Hr)
    as [_ Htr].
  eapply omap_outside; [exact Hf | exact Htr].
Qed.

Lemma createSubscription_created server payload tr uri err :
  is_run (createSubscription server payload) tr (uri, err) →
  omap createdOf tr = (if err is None then [uri] else []) ∧
  (∀ msg, err = Some msg →
     uri = "" ∧
     ∃ e, msg = "failed to connect to server " +:+ IP server +:+ ": " +:+ e ∨
          msg = "failed to get event service on server " +:+ IP server
                +:+ ": " +:+ e ∨
          msg = "failed to create legacy subscription: " +:+ e).
Proof.
  intros Hr. apply createSubscription_run in Hr
    as [(e & -> & [= -> ->]) | [(c & e & -> & [= -> ->])
        | (c & es & trc & cl & r & Hc & -> & E)]].
  - split; [done |]. intros msg [= <-]. split; [done |]. exists e. by left.
  - split; [done |]. intros msg [= <-]. split; [done |]. exists e.
    right. by left.
  - assert (Hno : omap createdOf trc = []).
    { eapply cleanup_outside; [| exact Hc].
      intros [a r'] Ha. by destruct a as [[]| | | | |]. }
    rewrite !omap_app, Hno.
    destruct r as [e | u]; injection E as -> ->.
    + split; [done |]. intros msg [= <-]. split; [done |]. exists e.
      right. by right.
    + split; [done |]. by intros msg.
Qed.

(** The loop of the cleanup: one session per subscription it tries to
    delete; it stops at the first deletion that fails. *)
Lemma deleteConflictingLoop_outcome server payload subscriptions tr r :
  is_run (deleteConflictingLoop server payload subscriptions) tr r →
  let matching :=
    filter (λ s, edDestination s = Destination payload) subscriptions in
  omap reportedOf tr = [] ∧
  match r with
  | None => length (omap connectOf tr) = length matching
  | Some msg =>
      length (omap deletedOf tr) < length matching ∧
      length (omap connectOf tr) = S (length (omap deletedOf tr)) ∧
      ∃ s e, s ∈ matching ∧
        msg = "failed to delete event subscription " +:+ edID s
              +:+ ", on server " +:+ IP server +:+ ": " +:+ e
  end.
Proof.
  revert tr. induction subscriptions as [| s rest IH]; intros tr;
    cbn [deleteConflictingLoop].
  - intros Hr. by apply is_run_Ret in Hr as [-> ->].
  - destruct (String.eqb_spec (edDestination s) (Destination payload)) as [E | E].
    + rewrite filter_cons_True by done. intros Hr.
      apply is_run_mbind in Hr as (t1 & t2 & e & -> & Hd & Hr).
      assert (Hrep : omap reportedOf t1 = []).
      { destruct (uses_reaches _ _ _ _
                    (uses_deleteSubscriptionFromServer server (edODataID s)) Hd)
          as [_ Htr].
        eapply omap_outside; [| exact Htr].
        intros [a r'] Ha. by destruct a as [[]| | | | |]. }
      apply deleteSubscriptionFromServer_calls in Hd
        as (Hcon & _ & Hdone & _ & _).
      rewrite !omap_app, Hrep, Hcon, Hdone. destruct e as [e |].
      * apply is_run_Ret in Hr as [-> ->]. split; [done |]. simpl.
        split; [lia |]. split; [done |]. exists s, e. split; [by left | done].
      * apply is_run_mbind in Hr as (t3 & t4 & u & -> & Hl & Hr).
        apply is_run_logPrintf in Hl as ->.
        destruct (IH _ Hr) as [IH1 IH2]. split; [exact IH1 |].
        cbn [omap list_omap app length]. destruct r as [msg |].
        -- destruct IH2 as (I1 & I2 & s' & e & Hs' & ->).
           split; [simpl; lia |]. split; [simpl in *; lia |].
           exists s', e. split; [by right | done].
        -- simpl in *. lia.
    + rewrite filter_cons_False by done. apply IH.
Qed.

End Results.

(** ** Shared variables *)

Section Shared.
Context `{Backend}.

Lemma exec_nil mk sched (st : state) : exec mk sched [] st = ([], st).
Proof. induction sched as [| i sched IH]; [done | exact IH]. Qed.

(** A pool of single-target operations leaves the mutex, the map and the
    channel as they are. *)
Lemma exec_client mk sched pool st pool' st' :
  Forall (uses isClientOp) pool → exec mk sched pool st = (pool', st') →
  mu st' = mu st ∧ subscriptionMap st' = subscriptionMap st ∧
  errChan st' = errChan st ∧ chanCap st' = chanCap st.
Proof.
  revert pool st. induction sched as [| i sched IH]; intros pool st Hu; simpl.
  - by intros [= <- <-].
  - destruct (step mk i pool st) as [pool1 st1] eqn:S. intros He.
    pose proof (step_uses _ _ _ _ _ _ _ Hu S) as Hu1.
    destruct (IH _ _ Hu1 He) as (I1 & I2 & I3 & I4).
    rewrite I1, I2, I3, I4. clear IH He I1 I2 I3 I4.
    apply step_spec in S as [[-> ->] | (a & k & r & Hi & F & ->)]; [done |].
    pose proof (proj1 (Forall_lookup _ _) Hu i _ Hi) as [Ha _].
    destruct (fire_client (mk i) a st (client_not_sync a Ha))
      as (r' & st'' & F' & Hst). rewrite F in F'. by injection F' as _ <-.
Qed.

Lemma guarded_bind {A} h (p : prog A) (f : A → prog unit) :
  uses isClientOp p → (∀ x, guarded h (f x)) → guarded h (bind p f).
Proof.
  induction p as [x | a k IH]; simpl; [auto |].
  intros [Ha Hk] Hf. destruct a as [c | | | | |]; try done;
    intros r; by apply IH.
Qed.

Lemma createWorker_guarded payload server :
  guarded false (createWorker payload server).
Proof.
  unfold createWorker. apply guarded_bind.
  - apply uses_createSubscription.
  - intros [uri [e |]]; simpl; done.
Qed.

Lemma createInit_lockInv servers payload w :
  lockInv (createWorker payload <$> servers) (createInit servers w) None.
Proof.
  split; [done |]. intros i p Hi.
  apply list_lookup_fmap_Some in Hi as (s & -> & _).
  apply createWorker_guarded.
Qed.

Lemma step_lockInv mk i pool st pool' st' holder :
  lockInv pool st holder → step mk i pool st = (pool', st') →
  ∃ holder', lockInv pool' st' holder'.
Proof.
  intros [Hmu Hg] Hstep.
  apply step_spec in Hstep as [[-> ->] | (a & k & r & Hi & F & ->)].
  { by exists holder. }
  pose proof (Hg i _ Hi) as Hd.
  assert (Hsame : ∀ st1 : state, mu st1 = mu st →
            (∀ r, guarded (bool_decide (holder = Some i)) (k r)) →
            lockInv (<[i := k r]> pool) st1 holder).
  { intros st1 E Hk. split; [by rewrite E |]. intros j p Hj.
    destruct (decide (j = i)) as [-> | Hne].
    - rewrite list_lookup_insert_eq in Hj by by eapply lookup_lt_Some.
      injection Hj as <-. apply Hk.
    - rewrite list_lookup_insert_ne in Hj by done. by apply Hg. }
  unfold fire in F.
  destruct a as [c | line | | | key value | err]; simpl in F, Hd.
  - destruct (gofish c (world st)) as [r' w']. injection F as <- <-.
    exists holder. by apply Hsame.
  - injection F as <- <-. exists holder. by apply Hsame.
  - destruct (mu st) eqn:Emu; [done |]. injection F as <- <-.
    destruct holder as [h |]; [done |]. destruct Hd as [_ Hd].
    exists (Some i). split; [done |]. intros j p Hj.
    destruct (decide (j = i)) as [-> | Hne].
    + rewrite list_lookup_insert_eq in Hj by by eapply lookup_lt_Some.
      injection Hj as <-. rewrite bool_decide_eq_true_2 by done. apply Hd.
    + rewrite bool_decide_eq_false_2 by congruence.
      rewrite list_lookup_insert_ne in Hj by done. by apply (Hg j p).
  - destruct (mu st) eqn:Emu; [| done]. injection F as <- <-.
    destruct Hd as [Hh Hd]. apply bool_decide_eq_true_1 in Hh. subst holder.
    exists None. split; [done |]. intros j p Hj.
    destruct (decide (j = i)) as [-> | Hne].
    + rewrite list_lookup_insert_eq in Hj by by eapply lookup_lt_Some.
      injection Hj as <-. apply Hd.
    + rewrite list_lookup_insert_ne in Hj by done. specialize (Hg j p Hj).
      by rewrite bool_decide_eq_false_2 in Hg by congruence.
  - injection F as <- <-. destruct Hd as [Hh Hd]. exists holder.
    apply Hsame; [done |]. intros r. rewrite Hh. apply Hd.
  - destruct (bool_decide _) eqn:Hfree; simpl in F; [| done].
    injection F as <- <-. exists holder. by apply Hsame.
Qed.

Lemma exec_lockInv mk sched pool st pool' st' holder :
  lockInv pool st holder → exec mk sched pool st = (pool', st') →
  ∃ holder', lockInv pool' st' holder'.
Proof.
  revert pool st holder.
  induction sched as [| i sched IH]; intros pool st holder Hinv; simpl.
  - intros [= <- <-]. by exists holder.
  - destruct (step mk i pool st) as [pool1 st1] eqn:S.
    destruct (step_lockInv _ _ _ _ _ _ _ Hinv S) as (holder1 & Hinv1).
    by apply IH with holder1.
Qed.

Lemma filter_none {A} (P : A → Prop) `{!∀ x, Decision (P x)} (l : list A) :
  (∀ i x, l !! i = Some x → ¬ P x) → filter P l = [].
Proof.
  induction l as [| x l IH]; intros Hno; [done |].
  rewrite filter_cons_False by apply (Hno 0 x eq_refl).
  apply IH. intros i y Hy. apply (Hno (S i) y Hy).
Qed.

(** At most the member at one position of a list has a property. *)
Lemma filter_at_most_one {A} (P : A → Prop) `{!∀ x, Decision (P x)}
    (l : list A) h :
  (∀ i x, l !! i = Some x → P x → i = h) → length (filter P l) ≤ 1.
Proof.
  revert h. induction l as [| x l IH]; intros h Hone; [simpl; lia |].
  rewrite filter_cons. destruct (decide (P x)) as [Hx | Hx].
  - assert (E : filter P l = []); [| by rewrite E].
    apply filter_none.
    intros i y Hy Py. pose proof (Hone 0 x eq_refl Hx).
    pose proof (Hone (S i) y Hy Py). lia.
  - apply (IH (pred h)). intros i y Hy Py.
    pose proof (Hone (S i) y Hy Py). lia.
Qed.

Lemma lockInv_exclusion pool st holder :
  lockInv pool st holder →
  length (filter (λ p, inCriticalSection p = true) pool)
  ≤ (if mu st then 1 else 0).
Proof.
  intros [Hmu Hg].
  assert (Hin : ∀ i p, pool !! i = Some p → inCriticalSection p = true →
            holder = Some i).
  { intros i p Hi Hp. specialize (Hg i p Hi).
    destruct p as [| a k]; [done |].
    destruct a as [c | | | | |]; try done; simpl in Hg;
      destruct Hg as [Hh _]; by apply bool_decide_eq_true_1 in Hh. }
  rewrite Hmu. destruct holder as [h |].
  - apply (filter_at_most_one _ _ h). intros i p Hi Hp.
    specialize (Hin i p Hi Hp). by injection Hin.
  - assert (E : filter (λ p, inCriticalSection p = true) pool = []);
      [| by rewrite E].
    apply filter_none.
    intros i p Hi Hp. by specialize (Hin i p Hi Hp).
Qed.

End Shared.

(** ** Counting the requests of a fleet operation *)

Section Counting.
Context `{Backend}.

Lemma bind_singleton {A B} (f : A → B) (l : list A) :
  l ≫= (λ x, [f x]) = f <$> l.
Proof. induction l as [| x l IH]; [done |]. by rewrite bind_cons, IH. Qed.

Lemma bind_submseteq {A B} (l : list A) (f g : A → list B) :
  (∀ x, x ∈ l → f x ⊆+ g x) → l ≫= f ⊆+ l ≫= g.
Proof.
  induction l as [| x l IH]; intros Hfg; [done |].
  rewrite !bind_cons. apply submseteq_app; [apply Hfg; by left |].
  apply IH. intros y Hy. apply Hfg. by right.
Qed.

Lemma omap_fmap_snd {A B C} (f : A → option (B * C)) (l : list A) :
  omap (λ x, snd <$> f x) l = (omap f l).*2.
Proof.
  induction l as [| x l IH]; [done |]. cbn [omap list_omap].
  destruct (f x) as [[b c] |]; simpl; by rewrite IH.
Qed.

Lemma outcomes_partition (l : list (RedfishServer * (string * option error))) :
  length (omap successOf l) + length (omap failureOf l) = length l.
Proof.
  induction l as [| [s [uri [e |]]] l IH]; [done | |];
    cbn [omap list_omap]; unfold successOf at 1, failureOf at 1;
    cbn [fst snd length]; lia.
Qed.

Lemma client_outside {B} (f : item → option B) {A} (p : prog A) tr x :
  uses isClientOp p → (∀ it, isClientOp it.1 = true → f it = None) →
  is_run p tr x → omap f tr = [].
Proof.
  intros Hu Hf Hr. destruct (uses_reaches _ _ _ _ Hu Hr) as [_ Htr].
  eapply omap_outside; [exact Hf | exact Htr].
Qed.

(** A create goroutine issues the legacy request of the payload, once, or
    no create request at all. *)
Lemma createSubscription_requests server payload tr uri err :
  is_run (createSubscription server payload) tr (uri, err) →
  omap createOf tr ⊆+ [legacyRequest payload] ∧
  (err = None → omap createOf tr = [legacyRequest payload]).
Proof.
  intros Hr. apply createSubscription_run in Hr
    as [(e & -> & E) | [(c & e & -> & E)
        | (c & es & trc & cl & r & Hc & -> & E)]].
  - split; [apply submseteq_nil_l | by injection E as -> ->].
  - split; [apply submseteq_nil_l | by injection E as -> ->].
  - rewrite !omap_app, (cleanup_issues_no_create _ _ _ _ Hc). done.
Qed.

Lemma createWorker_requests payload server tr :
  is_run (createWorker payload server) tr () →
  omap createOf tr ⊆+ [legacyRequest payload].
Proof.
  intros Hr. apply createWorker_run in Hr as (tr1 & [uri err] & Hr & ->).
  apply createSubscription_requests in Hr as [Hr _].
  rewrite omap_app. by destruct err; rewrite app_nil_r.
Qed.

(** What a create goroutine stores is what its controller answered to the
    create request. *)
Lemma createWorker_created payload server tr :
  is_run (createWorker payload server) tr () →
  omap createdOf tr = omap (λ it, snd <$> storeOf it) tr.
Proof.
  intros Hr. apply createWorker_run in Hr as (tr1 & [uri err] & Hr & ->).
  assert (Hq : omap (λ it, snd <$> storeOf it) tr1 = []).
  { eapply client_outside; [apply uses_createSubscription | | exact Hr].
    intros [a r] Ha. by destruct a as [[]| | | | |]. }
  apply createSubscription_created in Hr as [Hr _].
  rewrite !omap_app, Hr, Hq. by destruct err.
Qed.

Lemma deleteWorker_delete_ops servers entry :
  uses isDeleteOp (deleteWorker servers entry).
Proof.
  destruct entry as [ip uri]. unfold deleteWorker.
  apply uses_mbind; [apply uses_deleteSubscriptionFromServer |].
  intros [e |]; by apply uses_perform.
Qed.

Lemma deleteWorker_calls servers ip uri tr :
  is_run (deleteWorker servers (ip, uri)) tr () →
  omap connectOf tr = [configOf (getServerInfo servers ip)] ∧
  omap deleteOf tr ⊆+ [uri].
Proof.
  intros Hr. apply deleteWorker_run in Hr as (tr1 & r & line & Hr & ->).
  apply deleteSubscriptionFromServer_calls in Hr as (Hc & Hd & _).
  rewrite !omap_app, Hc. split; [done |].
  destruct Hd as [-> | ->]; [apply submseteq_nil_l | done].
Qed.

End Counting.

(** * Further properties of the single-target operations *)

Section ClientProperties.
Context `{Handles}.

(** X1. Every run of [createSubscription] closes each session it opened,
    those of the cleanup included: the sessions closed are, up to order, the
    sessions opened.  The session opened first, on which the subscription is
    created, is the one closed last. *)
Theorem createSubscription_closes_every_session server payload tr outcome :
  is_run (createSubscription server payload) tr outcome →
  omap closedOf tr ≡ₚ omap openedOf tr ∧
  last (omap closedOf tr) = head (omap openedOf tr).
Proof. apply createSubscription_sessions. Qed.


(** X3. [getServerInfo] returns the first descriptor of the list that has
    the address: a descriptor at a position before which no descriptor has
    its address is the one returned for its address. *)
Theorem getServerInfo_first_match servers i s :
  servers !! i = Some s →
  (∀ j s', j < i → servers !! j = Some s' → IP s' ≠ IP s) →
  getServerInfo servers (IP s) = s.
Proof.
  revert i. induction servers as [| s0 rest IH]; intros i Hi Hfirst; [done |].
  simpl. destruct i as [| i].
  - injection Hi as ->. by rewrite String.eqb_refl.
  - destruct (String.eqb_spec (IP s0) (IP s)) as [E | E].
    + by destruct (Hfirst 0 s0 (Nat.lt_0_succ i) eq_refl).
    + apply (IH i Hi). intros j s' Hj Hs'. apply (Hfirst (S j) s'); [lia | done].
Qed.

(** X4. [createV1_5Subscription] makes one request, of the v1.5 shape, which
    carries the destination, the registry prefixes, the resource types, the
    headers, the protocol, the context, the delivery-retry policy and the Oem
    data of the payload; it returns the identifier answered, or the empty
    identifier and the error of the request under its prefix.  The event
    types of the payload have no influence on any run. *)
Theorem createV1_5Subscription_request eventService payload tr uri err :
  is_run (createV1_5Subscription eventService payload) tr (uri, err) →
  omap createOf tr = [modernRequest payload] ∧
  length tr = 1 ∧
  omap createdOf tr = (if err is None then [uri] else []) ∧
  (∀ msg, err = Some msg →
     uri = "" ∧
     ∃ e, msg = "failed to create v1.5 subscription: " +:+ e ∧
          Forall (λ it, it.2 = Failed e) tr) ∧
  (∀ eventTypes,
     sameRuns
       (createV1_5Subscription eventService (withEventTypes payload eventTypes))
       (createV1_5Subscription eventService payload)).
Proof.
  unfold createV1_5Subscription. intros Hr.
  apply is_run_mbind in Hr as (t1 & t2 & r & -> & Hl & Hr).
  apply (is_run_lib (CreateEventSubscriptionInstance _ _ _ _ _ _ _ _ _)) in Hl
    as ->.
  destruct r as [e | u]; apply is_run_Ret in Hr as [-> [= -> ->]].
  - split; [done |]. split; [done |]. split; [done |].
    split; [| intros ets; apply sameRuns_refl].
    intros msg [= <-]. split; [done |]. exists e. split; [done |].
    by apply Forall_cons.
  - split; [done |]. split; [done |]. split; [done |].
    split; [by intros msg | intros ets; apply sameRuns_refl].
Qed.

(** X5. [deleteConflictingSubscriptions] opens one session for the listing
    and one more for every subscription it tries to delete.  When the
    listing fails it returns an error and requests no deletion.  When it
    returns nil, it opened one session per subscription with the payload's
    destination; when a deletion fails it stops there: fewer deletions were
    acknowledged than there are such subscriptions, and the error names the
    subscription and the server. *)
Theorem cleanup_outcome server payload tr r :
  is_run (deleteConflictingSubscriptions server payload) tr r →
  match omap reportedOf tr with
  | [] =>
      is_Some r ∧ omap deleteOf tr = [] ∧
      omap connectOf tr = [configOf server]
  | subscriptions :: more =>
      more = [] ∧
      let matching :=
        filter (λ s, edDestination s = Destination payload) subscriptions in
      match r with
      | None => length (omap connectOf tr) = 1 + length matching
      | Some msg =>
          length (omap deletedOf tr) < length matching ∧
          length (omap connectOf tr) = 2 + length (omap deletedOf tr) ∧
          ∃ s e, s ∈ matching ∧
            msg = "failed to delete event subscription " +:+ edID s
                  +:+ ", on server " +:+ IP server +:+ ": " +:+ e
      end
  end.
Proof.
  unfold deleteConflictingSubscriptions. intros Hr.
  apply is_run_mbind in Hr as (t1 & t2 & l & -> & Hl & Hr).
  apply getServerSubscriptions_run in Hl
    as [(e & -> & ->) | [(c & e & -> & ->) | (c & es & [e | subs] & -> & ->)]].
  - by apply is_run_Ret in Hr as [-> ->].
  - by apply is_run_Ret in Hr as [-> ->].
  - by apply is_run_Ret in Hr as [-> ->].
  - apply deleteConflictingLoop_outcome in Hr as [Hrep Hout].
    rewrite !omap_app, Hrep. cbn [omap list_omap app]. simpl.
    split; [done |]. destruct r as [msg |].
    + destruct Hout as (H1 & H2 & H3). split; [exact H1 |].
      split; [by rewrite H2 | exact H3].
    + by rewrite Hout.
Qed.

(** X6. [deleteSubscriptionFromServer] returns nil exactly when the
    controller acknowledged the deletion of the subscription.  It attempts
    one connection, to the server given, closes the session it opened, and
    an error it returns is that of the connection, of the event service or of
    the delete request, under a prefix that names the server. *)
Theorem deleteSubscriptionFromServer_result server uri tr r :
  is_run (deleteSubscriptionFromServer server uri) tr r →
  (r = None ↔ omap deletedOf tr = [uri]) ∧
  omap connectOf tr = [configOf server] ∧
  omap closedOf tr = omap openedOf tr ∧
  (∀ msg, r = Some msg →
     omap deletedOf tr = [] ∧
     ∃ e, msg = "failed to connect to server " +:+ IP server +:+ ": " +:+ e ∨
          msg = "failed to get event service on server " +:+ IP server
                +:+ ": " +:+ e ∨
          msg = "failed to delete event subscription on server " +:+ IP server
                +:+ ": " +:+ e).
Proof.
  intros Hr. pose proof (deleteSubscriptionFromServer_sessions _ _ _ _ Hr) as Hs.
  apply deleteSubscriptionFromServer_run in Hr
    as [(e & -> & ->) | [(c & e & -> & ->) | (c & es & [e |] & -> & ->)]].
  - split; [done |]. split; [done |]. split; [done |].
    intros msg [= <-]. split; [done |]. exists e. by left.
  - split; [done |]. split; [done |]. split; [done |].
    intros msg [= <-]. split; [done |]. exists e. right. by left.
  - split; [done |]. split; [done |]. split; [done |].
    intros msg [= <-]. split; [done |]. exists e. right. by right.
  - split; [done |]. split; [done |]. split; [done |]. by intros msg.
Qed.

(** X7. [getServerSubscriptions] returns a list exactly when the controller
    reported it, and returns it as reported.  It attempts one connection, to
    the server given, closes the session it opened, requests no deletion and
    no creation, and an error it returns is that of the connection, of the
    event service or of the listing, under a prefix that names the server. *)
Theorem getServerSubscriptions_result server tr r :
  is_run (getServerSubscriptions server) tr r →
  (∀ subscriptions,
     r = inr subscriptions ↔ omap reportedOf tr = [subscriptions]) ∧
  omap connectOf tr = [configOf server] ∧
  omap closedOf tr = omap openedOf tr ∧
  omap deleteOf tr = [] ∧ omap createOf tr = [] ∧
  (∀ msg, r = inl msg →
     omap reportedOf tr = [] ∧
     ∃ e, msg = "failed to connect to server " +:+ IP server +:+ ": " +:+ e ∨
          msg = "failed to get event service on server " +:+ IP server
                +:+ ": " +:+ e ∨
          msg = "failed to get event subscriptions on server " +:+ IP server
                +:+ ": " +:+ e).
Proof.
  intros Hr. pose proof (getServerSubscriptions_sessions _ _ _ Hr) as Hs.
  apply getServerSubscriptions_run in Hr
    as [(e & -> & ->) | [(c & e & -> & ->) | (c & es & [e | l] & -> & ->)]].
  - split; [done |]. do 4 (split; [done |]).
    intros msg [= <-]. split; [done |]. exists e. by left.
  - split; [done |]. do 4 (split; [done |]).
    intros msg [= <-]. split; [done |]. exists e. right. by left.
  - split; [done |]. do 4 (split; [done |]).
    intros msg [= <-]. split; [done |]. exists e. right. by right.
  - split; [| by do 4 (split; [done |])].
    intros l'. split; [by intros [= ->] | by intros [= ->]].
Qed.

End ClientProperties.

(** * Further properties of the fleet operations *)

Section FleetProperties.
Context `{Backend}.

(** A rollback takes only steps of [deleteSubscriptionFromServer] and log
    lines, and leaves the mutex, the map and the channel as they are. *)
Lemma rollback_steps rsched servers (m : gmap string string) st st2 :
  DeleteSubscriptionsFromAllServers rsched servers m st = Some st2 →
  ∃ new,
    events st2 = events st ++ announcement :: new ∧
    Forall (λ e, ∃ j, j < size m ∧ e.1 = Deleter j) new ∧
    (∀ j entry, map_to_list m !! j = Some entry →
       is_run (deleteWorker servers entry) (eventsOf (Deleter j) new) ()) ∧
    Forall (λ e, isDeleteOp e.2.1 = true) new ∧
    mu st2 = mu st ∧ subscriptionMap st2 = subscriptionMap st ∧
    errChan st2 = errChan st ∧ chanCap st2 = chanCap st.
Proof.
  intros Hd. destruct (rollback_log _ _ _ _ _ Hd) as (new & Hev & Hact & Hruns).
  exists new. split; [exact Hev |]. split; [exact Hact |].
  split; [exact Hruns |]. split.
  - apply (pool_Forall (λ it, isDeleteOp it.1 = true) Deleter (size m));
      [exact Hact |].
    intros j Hj. rewrite <- length_map_to_list in Hj.
    destruct (lookup_lt_is_Some_2 _ j Hj) as [entry Hs].
    exact (proj2 (uses_reaches _ _ _ _ (deleteWorker_delete_ops servers entry)
                    (Hruns j entry Hs))).
  - revert Hd. unfold DeleteSubscriptionsFromAllServers.
    destruct (interp Main _ st) as [[u st1] |] eqn:Hlog; [| done].
    simpl in Hlog. injection Hlog as _ <-. unfold goAndWait.
    destruct (exec _ _ _ _) as [pool' st'] eqn:He.
    destruct (forallb finished pool'); [| done]. intros [= <-].
    apply exec_client in He; [exact He |].
    apply Forall_fmap, Forall_forall. intros entry _.
    apply uses_deleteWorker.
Qed.

(** X8. Whenever [CreateSubscriptionsForAllServers] returns, every session
    that any of its goroutines opened, in the create phase or in the
    rollback, has been closed: over the whole log, the sessions closed are,
    up to order, the sessions opened. *)
Theorem fleet_closes_every_session sched rsched servers payload w m e st :
  CreateSubscriptionsForAllServers sched rsched servers payload w
  = Some (m, e, st) →
  omap (λ ev, closedOf ev.2) (events st)
  ≡ₚ omap (λ ev, openedOf ev.2) (events st).
Proof.
  intros Hc. apply (fleet_balance closedOf openedOf _ _ _ _ _ _ _ _ Hc).
  - intros s tr. apply createWorker_sessions.
  - done.
  - intros entry tr. apply deleteWorker_sessions.
Qed.

(** X9. Whenever [CreateSubscriptionsForAllServers] returns, the
    connections attempted, in the create phase and in the rollback, are
    those to the servers of the list: every attempt is configured from a
    descriptor of the list (its address as endpoint, its user name and
    password) with certificate verification switched off, and every
    descriptor of the list had its attempt. *)
Theorem fleet_contacts_the_listed_servers sched rsched servers payload w
    m e st :
  CreateSubscriptionsForAllServers sched rsched servers payload w
  = Some (m, e, st) →
  (∀ config, config ∈ omap (λ ev, connectOf ev.2) (events st) →
     Insecure config = true ∧ ∃ s, s ∈ servers ∧ config = configOf s) ∧
  (∀ s, s ∈ servers →
     configOf s ∈ omap (λ ev, connectOf ev.2) (events st)).
Proof.
  intros Hc. split.
  - intros config Hin. apply list_elem_of_omap in Hin as (ev & Hev & Hcon).
    assert (Hall : Forall (λ ev, ∀ config, connectOf ev.2 = Some config →
                      ∃ s, s ∈ servers ∧ config = configOf s) (events st)).
    { apply (fleet_Forall (λ it, ∀ config, connectOf it = Some config →
                             ∃ s, s ∈ servers ∧ config = configOf s)
               _ _ _ _ _ _ _ _ Hc).
      - intros s tr Hs Hr.
        destruct (uses_reaches _ _ _ _ (uses_connectsTo_createWorker payload s)
                    Hr) as [_ Htr].
        apply connectsTo_connectOf in Htr.
        eapply Forall_impl; [exact Htr |]. intros it Hit c Hc'.
        exists s. split; [done | by apply Hit].
      - done.
      - intros ip uri tr Hip Hr.
        destruct (uses_reaches _ _ _ _
                    (uses_connectsTo_deleteWorker servers ip uri) Hr)
          as [_ Htr].
        apply connectsTo_connectOf in Htr.
        eapply Forall_impl; [exact Htr |]. intros it Hit c Hc'.
        exists (getServerInfo servers ip).
        split; [by apply getServerInfo_hit | by apply Hit]. }
    destruct (proj1 (Forall_forall _ _) Hall ev Hev config Hcon)
      as (s & Hs & ->).
    split; [done | by exists s].
  - intros s Hs. apply list_elem_of_lookup in Hs as [i Hi].
    apply CreateSubscriptionsForAllServers_cases in Hc as (st1 & Hp & Hcase).
    destruct (createPhase_log _ _ _ _ _ Hp) as [_ Hruns].
    specialize (Hruns i s Hi).
    apply createWorker_run in Hruns as (tr1 & outcome & Hr & E).
    assert (Hin : ∃ r, (Creator i, did (Gofish (Connect (configOf s))) r)
                       ∈ events st1).
    { apply createSubscription_run in Hr
        as [(e0 & -> & _) | [(c & e0 & -> & _)
            | (c & es & trc & cl & r & _ & -> & _)]];
        eexists; apply eventsOf_elem_of; rewrite E; by left. }
    destruct Hin as [r Hin].
    apply list_elem_of_omap. exists (Creator i, did (Gofish (Connect (configOf s))) r).
    split; [| done].
    destruct Hcase as [(_ & _ & _ & ->) | (_ & _ & _ & Hd)]; [done |].
    apply rollback_log in Hd as (new & -> & _). apply elem_of_app. by left.
Qed.

End FleetProperties.

Section FleetAccounting.
Context `{Backend}.

Lemma seq_bind_submseteq {A B} (l : list A) (g : nat → list B)
    (h : A → list B) (start : nat) :
  (∀ i x, l !! i = Some x → g (start + i) ⊆+ h x) →
  seq start (length l) ≫= g ⊆+ l ≫= h.
Proof.
  revert start. induction l as [| x l IH]; intros start Hg; [done |].
  cbn [length seq]. rewrite !bind_cons. apply submseteq_app.
  - rewrite <- (Nat.add_0_r start) at 1. by apply Hg.
  - apply IH. intros i y Hy. rewrite Nat.add_succ_l, <- Nat.add_succ_r.
    by apply Hg.
Qed.

(** X10. With no server, [CreateSubscriptionsForAllServers] returns an
    empty map, which is not nil, and a nil error, under every schedule and
    without a step; with an empty map, [DeleteSubscriptionsFromAllServers]
    logs its announcement and returns. *)
Theorem empty_fleet_takes_no_step :
  (∀ sched rsched payload w,
     CreateSubscriptionsForAllServers sched rsched [] payload w
     = Some (Some ∅, None, createInit [] w)) ∧
  (∀ rsched servers st,
     DeleteSubscriptionsFromAllServers rsched servers ∅ st
     = Some (record Main announcement.2 st)).
Proof.
  split.
  - intros sched rsched payload w.
    unfold CreateSubscriptionsForAllServers, createPhase, goAndWait.
    simpl. by rewrite exec_nil.
  - intros rsched servers st.
    unfold DeleteSubscriptionsFromAllServers, goAndWait. simpl.
    rewrite map_to_list_empty. simpl. by rewrite exec_nil.
Qed.

(** X11. Whenever [DeleteSubscriptionsFromAllServers] returns, what was
    done after its announcement is, for every entry of the map, one
    connection attempt to the descriptor that [getServerInfo] finds for the
    entry's address and at most one delete request, for the entry's
    identifier; every step is a step of [deleteSubscriptionFromServer] or a
    log line, taken by one of its goroutines, and the mutex, the map and the
    channel of the caller are as they were. *)
Theorem rollback_contract rsched servers (m : gmap string string) st st2 :
  DeleteSubscriptionsFromAllServers rsched servers m st = Some st2 →
  ∃ rollback,
    events st2 = events st ++ announcement :: rollback ∧
    Forall (λ e, isDeleteOp e.2.1 = true ∧ ∃ j, e.1 = Deleter j) rollback ∧
    omap (λ e, connectOf e.2) rollback
    ≡ₚ (λ entry, configOf (getServerInfo servers entry.1)) <$> map_to_list m ∧
    omap (λ e, deleteOf e.2) rollback ⊆+ (map_to_list m).*2 ∧
    mu st2 = mu st ∧ subscriptionMap st2 = subscriptionMap st ∧
    errChan st2 = errChan st.
Proof.
  intros Hd. apply rollback_steps in Hd
    as (new & Hev & Hact & Hruns & Hops & Hmu & Hmap & Hch & _).
  exists new. split; [exact Hev |].
  split; [| split; [| split; [| done]]].
  - apply Forall_forall. intros ev Hin. split.
    + by apply (proj1 (Forall_forall _ _) Hops).
    + destruct (proj1 (Forall_forall _ _) Hact ev Hin) as (j & _ & E). eauto.
  - rewrite (pool_projection connectOf Deleter (size m) new Hact).
    rewrite <- (length_map_to_list m).
    rewrite (seq_bind_lookup (map_to_list m) _
               (λ entry, [configOf (getServerInfo servers entry.1)]) 0).
    + by rewrite bind_singleton.
    + intros j [ip uri] Hj.
      exact (proj1 (deleteWorker_calls _ _ _ _ (Hruns j _ Hj))).
  - rewrite (pool_projection deleteOf Deleter (size m) new Hact).
    rewrite <- (length_map_to_list m), <- (bind_singleton snd).
    apply (seq_bind_submseteq _ _ _ 0). intros j [ip uri] Hj.
    exact (proj2 (deleteWorker_calls _ _ _ _ (Hruns j _ Hj))).
Qed.

(** X12. Under every schedule, and at every point of it, at most one
    create goroutine is between its [mu.Lock()] and the return of its
    [mu.Unlock()], where the map is written, and none is when the mutex is
    free. *)
Theorem map_writes_are_exclusive sched servers payload w pool st :
  exec Creator sched (createWorker payload <$> servers) (createInit servers w)
  = (pool, st) →
  length (filter (λ p, inCriticalSection p = true) pool)
  ≤ (if mu st then 1 else 0).
Proof.
  intros He.
  destruct (exec_lockInv _ _ _ _ _ _ _ (createInit_lockInv servers payload w) He)
    as (holder & Hinv).
  by apply lockInv_exclusion with holder.
Qed.

Lemma createPhase_unlocked sched servers payload w st1 :
  createPhase sched servers payload w = Some st1 →
  mu st1 = false ∧ chanCap st1 = length servers.
Proof.
  unfold createPhase, goAndWait.
  destruct (exec _ _ _ _) as [pool st] eqn:He.
  destruct (forallb finished pool) eqn:Hfin; [| done]. intros [= <-].
  destruct (exec_poolInv _ _ _ _ _ _ _ _ (createInit_poolInv servers payload w) He)
    as (holder & bs & (Hmu & Hvalid & Hdisc & _) & Hcap).
  split; [| exact Hcap]. rewrite Hmu. destruct holder as [h |]; [| done].
  destruct (lookup_lt_is_Some_2 pool h (Hvalid h eq_refl)) as [p Hp].
  specialize (Hdisc h p Hp). rewrite bool_decide_eq_true_2 in Hdisc by done.
  pose proof (proj1 (forallb_forall _ _) Hfin p) as Hf.
  destruct p as [u | a k]; [done |].
  discriminate Hf. apply list_elem_of_In. by eapply list_elem_of_lookup_2.
Qed.

(** X13. Whenever [CreateSubscriptionsForAllServers] returns, the mutex is
    free and every server is accounted for once: the number of map writes
    and the number of errors in the channel add up to the number of servers,
    which is the capacity of the channel.  The map is returned exactly when
    the channel is empty. *)
Theorem fleet_create_accounts_for_every_server sched rsched servers payload w
    m e st :
  CreateSubscriptionsForAllServers sched rsched servers payload w
  = Some (m, e, st) →
  mu st = false ∧
  length (stores (events st)) + length (errChan st) = length servers ∧
  chanCap st = length servers ∧
  (is_Some m ↔ errChan st = []) ∧ (is_Some m ↔ e = None).
Proof.
  intros Hc.
  apply CreateSubscriptionsForAllServers_cases in Hc as (st1 & Hp & Hcase).
  destruct (createPhase_unlocked _ _ _ _ _ Hp) as [Hmu Hcap].
  assert (Hsum : length (stores (events st1)) + length (errChan st1)
                 = length servers).
  { apply createPhase_summary in Hp
      as (outcomes & Hlen & _ & Hst & Herr & _).
    rewrite Hst, Herr, outcomes_partition, length_zip_with. lia. }
  destruct Hcase as [(Hnil & -> & -> & ->) | (Hne & -> & -> & Hd)].
  - split; [done |]. split; [done |]. split; [done |].
    split; (split; [done | by eexists]).
  - apply rollback_steps in Hd
      as (new & Hev & _ & _ & Hops & Hmu2 & _ & Hch & Hcap2).
    assert (Hq : stores new = []).
    { apply (log_outside isDeleteOp storeOf); [| exact Hops].
      intros [a r] Ha. by destruct a as [[]| | | | |]. }
    split; [congruence |]. split.
    { rewrite Hev, Hch. change (announcement :: new) with ([announcement] ++ new).
      rewrite !stores_app, Hq.
      change (stores [announcement]) with (@nil (string * string)).
      by rewrite !app_nil_r. }
    split; [congruence |].
    split; (split; [by intros [? ?] | ]); [by rewrite Hch | done].
Qed.

End FleetAccounting.

Section FleetRequests.
Context `{Backend}.

Lemma deleteWorker_outside {B} (f : item → option B) servers entry tr :
  (∀ it, isDeleteOp it.1 = true → f it = None) →
  is_run (deleteWorker servers entry) tr () → omap f tr = [].
Proof.
  intros Hf Hr.
  destruct (uses_reaches _ _ _ _ (deleteWorker_delete_ops servers entry) Hr)
    as [_ Htr].
  eapply omap_outside; [exact Hf | exact Htr].
Qed.

(** X14. Whenever [CreateSubscriptionsForAllServers] returns, the
    identifiers written to the map are, up to order, the identifiers that the
    controllers answered to the create requests: none that was handed out is
    left unrecorded, none is recorded that was not handed out.  Every
    identifier of a returned map is one of them. *)
Theorem every_created_identifier_is_stored sched rsched servers payload w
    m e st :
  CreateSubscriptionsForAllServers sched rsched servers payload w
  = Some (m, e, st) →
  omap (λ ev, createdOf ev.2) (events st) ≡ₚ (stores (events st)).*2 ∧
  (∀ entries ip uri, m = Some entries → entries !! ip = Some uri →
     uri ∈ omap (λ ev, createdOf ev.2) (events st)).
Proof.
  intros Hc.
  assert (Hperm : omap (λ ev, createdOf ev.2) (events st)
                  ≡ₚ (stores (events st)).*2).
  { unfold stores. rewrite <- (omap_fmap_snd (λ ev : actor * item, storeOf ev.2)).
    apply (fleet_balance createdOf (λ it, snd <$> storeOf it)
             _ _ _ _ _ _ _ _ Hc).
    - intros s tr Hr. by rewrite (createWorker_created _ _ _ Hr).
    - done.
    - intros entry tr Hr.
      rewrite (deleteWorker_outside createdOf _ _ _ ltac:(
                 intros [a r] Ha; by destruct a as [[]| | | | |]) Hr).
      rewrite (deleteWorker_outside (λ it, snd <$> storeOf it) _ _ _ ltac:(
                 intros [a r] Ha; by destruct a as [[]| | | | |]) Hr).
      done. }
  split; [exact Hperm |]. intros entries ip uri -> Hip. rewrite Hperm.
  apply CreateSubscriptionsForAllServers_cases in Hc as (st1 & Hp & Hcase).
  destruct Hcase as [(_ & [= ->] & _ & ->) | (_ & [=] & _)].
  apply createPhase_summary in Hp as (_ & _ & _ & _ & _ & Hmap & _).
  rewrite Hmap in Hip. apply lookup_applyStores in Hip as [Hin | Hin];
    [| by rewrite lookup_empty in Hin].
  apply list_elem_of_fmap. by exists (ip, uri).
Qed.

(** X15. Whenever [CreateSubscriptionsForAllServers] returns, every create
    request made was the legacy request of the payload, there were at most
    as many as servers, and none was made by the rollback; when the call
    returns a nil error, there was exactly one per server. *)
Theorem fleet_create_requests sched rsched servers payload w m e st :
  CreateSubscriptionsForAllServers sched rsched servers payload w
  = Some (m, e, st) →
  omap (λ ev, createOf ev.2) (events st)
  ⊆+ replicate (length servers) (legacyRequest payload) ∧
  Forall (λ ev, is_Some (createOf ev.2) → ∃ i, ev.1 = Creator i) (events st) ∧
  (e = None →
   omap (λ ev, createOf ev.2) (events st)
   = replicate (length servers) (legacyRequest payload)).
Proof.
  intros Hc. pose proof Hc as Hc0.
  apply CreateSubscriptionsForAllServers_cases in Hc as (st1 & Hp & Hcase).
  destruct (createPhase_log _ _ _ _ _ Hp) as [Hact Hruns].
  assert (Hrep : servers ≫= (λ _, [legacyRequest payload])
                 = replicate (length servers) (legacyRequest payload)).
  { rewrite (bind_singleton (λ _, legacyRequest payload)).
    by apply const_fmap. }
  assert (H1 : omap (λ ev, createOf ev.2) (events st1)
               ⊆+ replicate (length servers) (legacyRequest payload)).
  { rewrite (pool_projection createOf Creator (length servers) _ Hact), <- Hrep.
    apply (seq_bind_submseteq _ _ _ 0). intros i s Hi.
    apply (createWorker_requests payload s), Hruns, Hi. }
  assert (H2 : Forall (λ ev : actor * item,
                  is_Some (createOf ev.2) → ∃ i, ev.1 = Creator i) (events st1)).
  { eapply Forall_impl; [exact Hact |]. intros ev (i & _ & E) _. eauto. }
  destruct Hcase as [(_ & -> & -> & ->) | (_ & _ & -> & Hd)].
  - split; [exact H1 |]. split; [exact H2 |]. intros _.
    symmetry. apply replicate_Permutation.
    rewrite (pool_projection createOf Creator (length servers) _ Hact), <- Hrep.
    rewrite (seq_bind_lookup servers _ (λ _, [legacyRequest payload]) 0);
      [done |].
    intros i s Hi. simpl.
    destruct (returned_map_all_created _ _ _ _ _ _ _ _ Hc0 i s Hi)
      as (uri & tr1 & tr2 & E & Hr).
    pose proof (createWorker_requests _ _ _ (Hruns i s Hi)) as Hle.
    apply createSubscription_requests in Hr as [_ Hr].
    rewrite E, omap_app, (Hr eq_refl) in Hle |- *.
    apply submseteq_length in Hle. simpl in Hle.
    destruct (omap createOf tr2); [done | simpl in Hle; lia].
  - apply rollback_steps in Hd as (new & -> & _ & _ & Hops & _).
    assert (Hq : omap (λ ev : actor * item, createOf ev.2) new = []).
    { apply (log_outside isDeleteOp createOf); [| exact Hops].
      intros [a r] Ha. by destruct a as [[]| | | | |]. }
    split; [| split; [| done]].
    + change (announcement :: new) with ([announcement] ++ new).
      rewrite !omap_app, Hq.
      change (omap (λ ev : actor * item, createOf ev.2) [announcement])
        with (@nil createRequest).
      by rewrite !app_nil_r.
    + apply Forall_app. split; [exact H2 |]. apply Forall_cons.
      split; [by intros [? ?] |].
      eapply Forall_impl; [exact Hops |]. intros [who [a r]] Ha [x Hx].
      by destruct a as [[]| | | | |].
Qed.

(** X16. Neither fleet operation can deadlock: whatever the scheduler has
    done so far, the schedule can be continued so that the operation
    returns.  For [DeleteSubscriptionsFromAllServers] this holds from every
    state of the mutex and of the channel. *)
Theorem fleet_operations_cannot_deadlock :
  (∀ sched rsched servers payload w,
     ∃ ext rext res,
       CreateSubscriptionsForAllServers (sched ++ ext) (rsched ++ rext)
         servers payload w = Some res) ∧
  (∀ rsched servers (m : gmap string string) st,
     ∃ ext st2,
       DeleteSubscriptionsFromAllServers (rsched ++ ext) servers m st
       = Some st2).
Proof.
  split.
  - apply CreateSubscriptionsForAllServers_no_deadlock.
  - apply DeleteSubscriptionsFromAllServers_no_deadlock.
Qed.

End FleetRequests.

Section FleetResult.
Context `{Backend}.

Lemma createPhase_channel sched servers payload w st1 :
  createPhase sched servers payload w = Some st1 →
  errChan st1 = sends (events st1) ∧
  subscriptionMap st1 = applyStores (stores (events st1)) ∅.
Proof.
  unfold createPhase. intros Hgo.
  apply goAndWait_runs in Hgo as (new & Hev & _ & _ & Hch & Hmap & _);
    [| apply _].
  simpl in Hev, Hch, Hmap. by rewrite Hev, Hch, Hmap.
Qed.

(** X17. What [CreateSubscriptionsForAllServers] returns can be read off
    its log.  When no error was sent it returns a nil error and the map that
    results from the map writes, applied in the order of the log, so that a
    later write to an address replaces an earlier one.  Otherwise it returns
    a nil map and the error whose text is the fixed prefix followed by the
    errors sent, in the order in which they were sent. *)
Theorem result_follows_the_log sched rsched servers payload w m e st :
  CreateSubscriptionsForAllServers sched rsched servers payload w
  = Some (m, e, st) →
  (m, e)
  = match sends (events st) with
    | [] => (Some (applyStores (stores (events st)) ∅), None)
    | errors =>
        (None,
         Some ("subscription process encountered errors: "
               +:+ fmtStrings errors))
    end.
Proof.
  intros Hc.
  apply CreateSubscriptionsForAllServers_cases in Hc as (st1 & Hp & Hcase).
  destruct (createPhase_channel _ _ _ _ _ Hp) as [Hch Hmap].
  destruct Hcase as [(Hnil & -> & -> & ->) | (Hne & -> & -> & Hd)].
  - rewrite <- Hch, Hnil. by rewrite Hmap.
  - apply rollback_steps in Hd as (new & -> & _ & _ & Hops & _).
    assert (Hq : sends new = []).
    { apply (log_outside isDeleteOp sendOf); [| exact Hops].
      intros [a r] Ha. by destruct a as [[]| | | | |]. }
    change (announcement :: new) with ([announcement] ++ new).
    rewrite !sends_app, Hq.
    change (sends [announcement]) with (@nil error).
    rewrite !app_nil_r, <- Hch. by destruct (errChan st1).
Qed.

(** X18. The rollback has no influence on what
    [CreateSubscriptionsForAllServers] returns: two calls that differ only
    in the schedule of the rollback return the same map and the same error,
    whatever became of the deletions. *)
Theorem rollback_outcome_is_not_reported sched rsched rsched' servers payload w
    m e st m' e' st' :
  CreateSubscriptionsForAllServers sched rsched servers payload w
  = Some (m, e, st) →
  CreateSubscriptionsForAllServers sched rsched' servers payload w
  = Some (m', e', st') →
  m' = m ∧ e' = e.
Proof.
  intros Hc Hc'.
  apply CreateSubscriptionsForAllServers_cases in Hc as (st1 & Hp & Hcase).
  apply CreateSubscriptionsForAllServers_cases in Hc' as (st1' & Hp' & Hcase').
  rewrite Hp in Hp'. injection Hp' as <-.
  destruct Hcase as [(Hnil & -> & -> & _) | (Hne & -> & -> & _)];
    destruct Hcase' as [(Hnil' & -> & -> & _) | (Hne' & -> & -> & _)];
    done.
Qed.

End FleetResult.

Section CreateOrder.
Context `{Handles}.

(** X19. In every run of [createSubscription] the create request comes
    after the cleanup: once it is made, nothing follows but the closing of
    the session, so that no deletion of the call can remove the subscription
    that the call creates. *)
Theorem createSubscription_creates_last server payload tr outcome pre it post :
  is_run (createSubscription server payload) tr outcome →
  tr = pre ++ it :: post → is_Some (createOf it) →
  omap createOf pre = [] ∧ omap deleteOf post = [] ∧
  ∃ c, post = [did (Gofish (Logout c)) ()].
Proof.
  intros Hr E [req Hit]. apply createSubscription_run in Hr
    as [(e & -> & _) | [(c & e & -> & _)
        | (c & es & trc & cl & r & Hc & -> & _)]].
  - assert (Hin : it ∈ pre ++ it :: post) by (apply elem_of_app; right; by left).
    rewrite <- E in Hin. set_unfold in Hin.
    by destruct Hin as [-> | [-> | []]].
  - assert (Hin : it ∈ pre ++ it :: post) by (apply elem_of_app; right; by left).
    rewrite <- E in Hin. set_unfold in Hin.
    by destruct Hin as [-> | [-> | [-> | [-> | []]]]].
  - assert (Hno : ∀ x, x ∈ [did (Gofish (Connect (configOf server))) (inr c);
                            did (LogPrintf (connectLine server (inr c))) ();
                            did (Gofish (GetEventService c)) (inr es)] ++ trc →
                       createOf x = None).
    { intros x Hx. apply elem_of_app in Hx as [Hx | Hx].
      - set_unfold in Hx. by destruct Hx as [-> | [-> | [-> | []]]].
      - pose proof (cleanup_issues_no_create _ _ _ _ Hc) as Hnone.
        destruct (createOf x) as [q |] eqn:Hq; [| done].
        assert (Hin : q ∈ omap createOf trc)
          by (apply list_elem_of_omap; eauto).
        rewrite Hnone in Hin. by apply elem_of_nil in Hin. }
    rewrite app_assoc in E. apply app_eq_inv in E
      as [(k & E1 & E2) | (k & E1 & E2)].
    + destruct k as [| x k].
      * rewrite app_nil_r in E1. simpl in E2. simplify_eq.
        split; [| split; [done | by exists c]].
        apply (omap_outside_list createOf). exact Hno.
      * simpl in E2. simplify_eq. rewrite (Hno x) in Hit; [done |].
        rewrite E1. apply elem_of_app. right. by left.
    + destruct k as [| x [| y k]]; simpl in E2.
      * simplify_eq. rewrite app_nil_r.
        split; [| split; [done | by exists c]].
        apply (omap_outside_list createOf). exact Hno.
      * by simplify_eq.
      * simplify_eq; by destruct k.
Qed.

End CreateOrder.

(** * The claims on concrete runs *)

Import Mock.

Lemma alone_is_run {A} (p : prog A) (f : fleet) x st :
  alone p f = Some (x, st) → is_run p (logOfRun (alone p f)) x.
Proof.
  intros Ha. unfold logOfRun. rewrite Ha. simpl.
  apply interp_sound in Ha as (tr & Hev & Hr). simpl in Hev. rewrite Hev.
  rewrite <- list_fmap_compose.
  erewrite (list_fmap_ext _ id); [by rewrite list_fmap_id | done].
Qed.


Lemma failure_reports_every_error_witness :
  CreateSubscriptionsForAllServers (roundRobin 3 20) (roundRobin 2 20)
    [server "A"; server "B"; server "C"] hook fleetABC
  = Some (None,
          Some ("subscription process encountered errors: "
                +:+ "[" +:+ failureMessage (server "C")
                              "failed to create legacy subscription: create rejected"
                +:+ "]"),
          stateOf runABC) ∧
  (∃ i s uri err, [server "A"; server "B"; server "C"] !! i = Some s ∧
     createReturned hook (events (stateOf runABC)) i s (uri, Some err)) ∧
  ∃ (msgs : list string) (outcomes : list (string * option error)),
    Some ("subscription process encountered errors: "
          +:+ "[" +:+ failureMessage (server "C")
                        "failed to create legacy subscription: create rejected"
          +:+ "]")
    = Some ("subscription process encountered errors: "
            +:+ "[" +:+ String.concat " " msgs +:+ "]") ∧
    msgs ≠ [] ∧
    length outcomes = length [server "A"; server "B"; server "C"] ∧
    (∀ i s o, [server "A"; server "B"; server "C"] !! i = Some s →
       (outcomes !! i = Some o
        ↔ createReturned hook (events (stateOf runABC)) i s o)) ∧
    msgs ≡ₚ omap failureOf (zip [server "A"; server "B"; server "C"] outcomes) ∧
    (∀ msg, msg ∈ msgs ↔
       ∃ i s uri err, [server "A"; server "B"; server "C"] !! i = Some s ∧
         createReturned hook (events (stateOf runABC)) i s (uri, Some err) ∧
         msg = "subscription failed on server " +:+ IP s +:+ ": " +:+ err).
Proof.
  assert (Hrun : CreateSubscriptionsForAllServers (roundRobin 3 20)
                   (roundRobin 2 20) [server "A"; server "B"; server "C"] hook
                   fleetABC
    = Some (None,
            Some ("subscription process encountered errors: "
                  +:+ "[" +:+ failureMessage (server "C")
                                "failed to create legacy subscription: create rejected"
                  +:+ "]"),
            stateOf runABC)) by (vm_compute; reflexivity).
  pose proof (returned_nil_some_failed _ _ _ _ _ _ _ Hrun) as Hfail.
  split; [exact Hrun |]. split; [exact Hfail |].
  exact (proj1 (proj2
    (failure_reports_every_error _ _ _ _ _ _ _ _ Hrun Hfail))).
Defined.

Lemma success_returns_every_identifier_witness :
  NoDup (IP <$> [server "A"; server "B"]) ∧
  CreateSubscriptionsForAllServers (roundRobin 2 20) []
    [server "A"; server "B"] hook fleetABC
  = Some (Some {[ "A" := uriOf 1; "B" := uriOf 1 ]}, None, stateOf runAB) ∧
  (∀ i s, [server "A"; server "B"] !! i = Some s →
     ∃ uri, createReturned hook (events (stateOf runAB)) i s (uri, None)) ∧
  ∃ entries : gmap string string,
    Some ({[ "A" := uriOf 1; "B" := uriOf 1 ]} : gmap string string)
    = Some entries ∧
    size entries = length [server "A"; server "B"] ∧
    dom entries = list_to_set (IP <$> [server "A"; server "B"]) ∧
    (∀ i s uri, [server "A"; server "B"] !! i = Some s →
       createReturned hook (events (stateOf runAB)) i s (uri, None) →
       entries !! IP s = Some uri).
Proof.
  assert (Hnd : NoDup (IP <$> [server "A"; server "B"])).
  { apply (bool_decide_unpack _). vm_compute. exact I. }
  assert (Hrun : CreateSubscriptionsForAllServers (roundRobin 2 20) []
                   [server "A"; server "B"] hook fleetABC
    = Some (Some {[ "A" := uriOf 1; "B" := uriOf 1 ]}, None, stateOf runAB))
    by (vm_compute; reflexivity).
  pose proof (returned_map_all_created _ _ _ _ _ _ _ _ Hrun) as Hall.
  split; [exact Hnd |]. split; [exact Hrun |]. split; [exact Hall |].
  exact (proj1 (proj2
    (success_returns_every_identifier _ _ _ _ _ _ _ _ Hnd Hrun Hall))).
Defined.

Lemma duplicate_addresses_share_an_entry_witness :
  CreateSubscriptionsForAllServers (roundRobin 2 20) []
    [server "A"; operator "A"] hook fleetABC
  = Some (Some {[ "A" := uriOf 2 ]}, None, stateOf runAA) ∧
  (∃ i j s s', i ≠ j ∧ [server "A"; operator "A"] !! i = Some s ∧
               [server "A"; operator "A"] !! j = Some s' ∧ IP s = IP s') ∧
  size ({[ "A" := uriOf 2 ]} : gmap string string)
  = length (remove_dups (IP <$> [server "A"; operator "A"])) ∧
  size ({[ "A" := uriOf 2 ]} : gmap string string)
  < length [server "A"; operator "A"] ∧
  (∀ ip, ip ∈ IP <$> [server "A"; operator "A"] →
     ∃ i s uri, [server "A"; operator "A"] !! i = Some s ∧ IP s = ip ∧
       createReturned hook (events (stateOf runAA)) i s (uri, None) ∧
       ({[ "A" := uriOf 2 ]} : gmap string string) !! ip = Some uri ∧
       ∀ j s' uri', [server "A"; operator "A"] !! j = Some s' → IP s' = ip →
         createReturned hook (events (stateOf runAA)) j s' (uri', None) →
         uri' ≠ uri →
         (ip, uri') ∉ map_to_list ({[ "A" := uriOf 2 ]} : gmap string string)).
Proof.
  assert (Hrun : CreateSubscriptionsForAllServers (roundRobin 2 20) []
                   [server "A"; operator "A"] hook fleetABC
    = Some (Some {[ "A" := uriOf 2 ]}, None, stateOf runAA))
    by (vm_compute; reflexivity).
  assert (Hdup : ∃ i j s s', i ≠ j ∧ [server "A"; operator "A"] !! i = Some s ∧
               [server "A"; operator "A"] !! j = Some s' ∧ IP s = IP s').
  { exists 0, 1, (server "A"), (operator "A"). repeat split; done. }
  split; [exact Hrun |]. split; [exact Hdup |].
  exact (duplicate_addresses_share_an_entry _ _ _ _ _ _ _ _ Hrun Hdup).
Defined.

Lemma error_channel_never_full_witness :
  exec Creator (roundRobin 3 10)
    (createWorker hook <$> [server "A"; server "B"; server "C"])
    (createInit [server "A"; server "B"; server "C"] fleetABC)
  = (midABC.1, midABC.2) ∧
  (∃ err k, midABC.1 !! 2 = Some (Vis (ChanSend err) k)) ∧
  chanCap (createInit [server "A"; server "B"; server "C"] fleetABC)
  = length [server "A"; server "B"; server "C"] ∧
  chanCap midABC.2 = length [server "A"; server "B"; server "C"] ∧
  Forall (sendsAtMost 1)
    (createWorker hook <$> [server "A"; server "B"; server "C"]) ∧
  errChan midABC.2 = sends (events midABC.2) ∧
  length (sends (events midABC.2)) ≤ chanCap midABC.2 ∧
  (∀ i err k, midABC.1 !! i = Some (Vis (ChanSend err) k) →
     length (errChan midABC.2) < chanCap midABC.2 ∧
     is_Some (fire (Creator i) (ChanSend err) midABC.2)).
Proof.
  assert (Hrun : exec Creator (roundRobin 3 10)
                   (createWorker hook <$> [server "A"; server "B"; server "C"])
                   (createInit [server "A"; server "B"; server "C"] fleetABC)
                 = (midABC.1, midABC.2)).
  { unfold midABC. by destruct (exec _ _ _ _). }
  split; [exact Hrun |]. split.
  - vm_compute. eauto.
  - exact (error_channel_never_full _ _ _ _ _ _ Hrun).
Defined.

Lemma createSubscription_always_legacy_witness :
  is_run (createSubscription (server "A") hook)
    (logOfRun (alone (createSubscription (server "A") hook) fleetABC))
    (uriOf 1, None) ∧
  sessionOpened
    (logOfRun (alone (createSubscription (server "A") hook) fleetABC)) ∧
  isV1_5 = false ∧
  (omap createOf
     (logOfRun (alone (createSubscription (server "A") hook) fleetABC)) = [] ∨
   omap createOf
     (logOfRun (alone (createSubscription (server "A") hook) fleetABC))
   = [legacyRequest hook]) ∧
  (sessionOpened
     (logOfRun (alone (createSubscription (server "A") hook) fleetABC)) →
   omap createOf
     (logOfRun (alone (createSubscription (server "A") hook) fleetABC))
   = [legacyRequest hook]) ∧
  (∀ registryPrefixes resourceTypes deliveryRetryPolicy,
     sameRuns
       (createSubscription (server "A")
          (withModernFields hook registryPrefixes resourceTypes
             deliveryRetryPolicy))
       (createSubscription (server "A") hook)).
Proof.
  assert (Hrun : is_run (createSubscription (server "A") hook)
            (logOfRun (alone (createSubscription (server "A") hook) fleetABC))
            (uriOf 1, None)).
  { apply (alone_is_run _ _ _
             (stateOf (alone (createSubscription (server "A") hook) fleetABC))).
    vm_compute. reflexivity. }
  split; [exact Hrun |]. split.
  - vm_compute. eauto 10.
  - exact (createSubscription_always_legacy _ _ _ _ Hrun).
Defined.

Lemma cleanup_deletes_matching_destination_witness :
  is_run (deleteConflictingSubscriptions (server "A") hook)
    (logOfRun (alone (deleteConflictingSubscriptions (server "A") hook) fleetDup))
    None ∧
  omap listedOf
    (logOfRun (alone (deleteConflictingSubscriptions (server "A") hook) fleetDup))
  = [Listed [held 7 "http://hook/x" ["StatusChange"] "old";
             held 8 "http://other/y" ["Alert"] "ctx"]] ∧
  omap deletedOf
    (logOfRun (alone (deleteConflictingSubscriptions (server "A") hook) fleetDup))
  = [uriOf 7] ∧
  let tr :=
    logOfRun (alone (deleteConflictingSubscriptions (server "A") hook) fleetDup) in
  let matching :=
    filter (λ s, edDestination s = Destination hook)
      [held 7 "http://hook/x" ["StatusChange"] "old";
       held 8 "http://other/y" ["Alert"] "ctx"] in
  omap deleteOf tr `prefix_of` (edODataID <$> matching) ∧
  (∀ uri, uri ∈ omap deleteOf tr →
     ∃ s, s ∈ [held 7 "http://hook/x" ["StatusChange"] "old";
               held 8 "http://other/y" ["Alert"] "ctx"] ∧
          edODataID s = uri ∧ edDestination s = Destination hook) ∧
  ((None : option error) = None →
   omap deletedOf tr = edODataID <$> matching) ∧
  (∀ payload', Destination payload' = Destination hook →
     sameRuns (deleteConflictingSubscriptions (server "A") payload')
              (deleteConflictingSubscriptions (server "A") hook)).
Proof.
  assert (Hrun : is_run (deleteConflictingSubscriptions (server "A") hook)
            (logOfRun
               (alone (deleteConflictingSubscriptions (server "A") hook) fleetDup))
            None).
  { apply (alone_is_run _ _ _
             (stateOf (alone (deleteConflictingSubscriptions (server "A") hook)
                         fleetDup))).
    vm_compute. reflexivity. }
  assert (Hlisted : omap listedOf
            (logOfRun
               (alone (deleteConflictingSubscriptions (server "A") hook) fleetDup))
          = [Listed [held 7 "http://hook/x" ["StatusChange"] "old";
                     held 8 "http://other/y" ["Alert"] "ctx"]])
    by (vm_compute; reflexivity).
  split; [exact Hrun |]. split; [exact Hlisted |].
  split; [vm_compute; reflexivity |].
  exact (cleanup_deletes_matching_destination _ _ _ _ _ Hrun Hlisted).
Defined.

Lemma unknown_address_uses_zero_value_witness :
  DeleteSubscriptionsFromAllServers [0; 0; 0; 0] [server "A"] strayMap
    (createInit [] fleetABC)
  = Some strayEnd ∧
  map_to_list strayMap !! 0 = Some ("B", uriOf 7) ∧
  ("B" ∉ IP <$> [server "A"]) ∧
  getServerInfo [server "A"] "B" = zeroServer ∧
  (IP zeroServer = "" ∧ Username zeroServer = "" ∧ Password zeroServer = "") ∧
  ∃ rollback,
    events strayEnd
    = events (createInit [] fleetABC) ++ announcement :: rollback ∧
    (∃ tr r line,
       is_run (deleteSubscriptionFromServer zeroServer (uriOf 7)) tr r ∧
       eventsOf (Deleter 0) rollback = tr ++ [did (LogPrintf line) ()]) ∧
    omap connectOf (eventsOf (Deleter 0) rollback) = [configOf zeroServer] ∧
    (∀ e, head (eventsOf (Deleter 0) rollback)
          = Some (did (Gofish (Connect (configOf zeroServer))) (inl e)) →
       eventsOf (Deleter 0) rollback
       = [did (Gofish (Connect (configOf zeroServer))) (inl e);
          did (LogPrintf ("Error connecting to redfish server : " +:+ e)) ();
          did (LogPrintf ("Failed to delete event subscription on server : "
                          +:+ ("failed to connect to server : " +:+ e))) ()]).
Proof.
  assert (Hrun : DeleteSubscriptionsFromAllServers [0; 0; 0; 0] [server "A"]
                   strayMap (createInit [] fleetABC)
                 = Some strayEnd)
    by (vm_compute; reflexivity).
  assert (Hentry : map_to_list strayMap !! 0 = Some ("B", uriOf 7))
    by (vm_compute; reflexivity).
  assert (Hmiss : "B" ∉ IP <$> [server "A"]).
  { apply (bool_decide_unpack _). vm_compute. exact I. }
  split; [exact Hrun |]. split; [exact Hentry |]. split; [exact Hmiss |].
  exact (unknown_address_uses_zero_value _ _ _ _ _ _ _ _ Hrun Hentry Hmiss).
Defined.

Lemma unknown_address_is_attempted_witness :
  DeleteSubscriptionsFromAllServers [0; 0; 0; 0] [server "A"] strayMap
    (createInit [] fleetABC)
  = Some strayEnd ∧
  map_to_list strayMap !! 0 = Some ("B", uriOf 7) ∧
  ("B" ∉ IP <$> [server "A"]) ∧
  ∃ rollback,
    events strayEnd
    = events (createInit [] fleetABC) ++ announcement :: rollback ∧
    omap connectOf (eventsOf (Deleter 0) rollback)
    = [{| Endpoint := ""; cfgUsername := ""; cfgPassword := "";
          Insecure := true |}] ∧
    (omap deleteOf (eventsOf (Deleter 0) rollback) = [] ∨
     omap deleteOf (eventsOf (Deleter 0) rollback) = [uriOf 7]) ∧
    (∀ e, head (eventsOf (Deleter 0) rollback)
          = Some (did (Gofish (Connect (configOf zeroServer))) (inl e)) →
       omap deleteOf (eventsOf (Deleter 0) rollback) = [] ∧
       omap logOf (eventsOf (Deleter 0) rollback)
       = ["Error connecting to redfish server : " +:+ e;
          "Failed to delete event subscription on server : "
          +:+ ("failed to connect to server : " +:+ e)]) ∧
    (∀ j' ip' uri', map_to_list strayMap !! j' = Some (ip', uri') →
       ∃ tr r line,
         is_run (deleteSubscriptionFromServer
                   (getServerInfo [server "A"] ip') uri') tr r ∧
         eventsOf (Deleter j') rollback = tr ++ [did (LogPrintf line) ()]).
Proof.
  assert (Hrun : DeleteSubscriptionsFromAllServers [0; 0; 0; 0] [server "A"]
                   strayMap (createInit [] fleetABC)
                 = Some strayEnd)
    by (vm_compute; reflexivity).
  assert (Hentry : map_to_list strayMap !! 0 = Some ("B", uriOf 7))
    by (vm_compute; reflexivity).
  assert (Hmiss : "B" ∉ IP <$> [server "A"]).
  { apply (bool_decide_unpack _). vm_compute. exact I. }
  split; [exact Hrun |]. split; [exact Hentry |]. split; [exact Hmiss |].
  exact (unknown_address_is_attempted _ _ _ _ _ _ _ _ Hrun Hentry Hmiss).
Defined.

(** C4, as stated, fails on this run: the server list is [A], the map has
    one entry, for address B, and the rollback goroutine of that entry does
    attempt a connection, with the configuration of the zero value. *)
Lemma unknown_address_is_contacted :
  ∃ st2,
    DeleteSubscriptionsFromAllServers [0; 0; 0; 0] [server "A"] strayMap
      (createInit [] fleetABC) = Some st2 ∧
    map_to_list strayMap = [("B", uriOf 7)] ∧
    ("B" ∉ IP <$> [server "A"]) ∧
    omap connectOf (eventsOf (Deleter 0) (events st2))
    = [{| Endpoint := ""; cfgUsername := ""; cfgPassword := "";
          Insecure := true |}] ∧
    omap connectOf (eventsOf (Deleter 0) (events st2)) ≠ [].
Proof.
  exists strayEnd.
  split; [vm_compute; reflexivity |]. split; [vm_compute; reflexivity |].
  split; [apply (bool_decide_unpack _); vm_compute; exact I |].
  split; [vm_compute; reflexivity |]. vm_compute. discriminate.
Qed.

(** C3 on two runs.  Where the controller refuses to list its
    subscriptions, and where it refuses to delete the conflicting one, the
    cleanup returns an error; [createSubscription] goes on to issue the
    create request all the same and returns the new identifier with a nil
    error, and the fleet create returns the map and a nil error; in the
    second run the controller ends up with two subscriptions for the
    destination. *)
Lemma cleanup_failure_is_dropped :
  (option_map fst
     (alone (deleteConflictingSubscriptions (server "A") hook) fleetNoList)
   = Some (Some "failed to get event subscriptions on server A: listing failed") ∧
   option_map fst (alone (createSubscription (server "A") hook) fleetNoList)
   = Some (uriOf 1, None) ∧
   omap createOf
     (logOfRun (alone (createSubscription (server "A") hook) fleetNoList))
   = [legacyRequest hook] ∧
   option_map fst
     (CreateSubscriptionsForAllServers (roundRobin 1 20) [] [server "A"] hook
        fleetNoList)
   = Some (Some {[ "A" := uriOf 1 ]}, None)) ∧
  (option_map fst
     (alone (deleteConflictingSubscriptions (server "A") hook) fleetNoDelete)
   = Some (Some ("failed to delete event subscription 7, on server A: "
                 +:+ "failed to delete event subscription on server A: "
                 +:+ "delete rejected")) ∧
   option_map fst (alone (createSubscription (server "A") hook) fleetNoDelete)
   = Some (uriOf 8, None) ∧
   omap createOf
     (logOfRun (alone (createSubscription (server "A") hook) fleetNoDelete))
   = [legacyRequest hook] ∧
   option_map fst
     (CreateSubscriptionsForAllServers (roundRobin 1 20) [] [server "A"] hook
        fleetNoDelete)
   = Some (Some {[ "A" := uriOf 8 ]}, None) ∧
   option_map (λ r, (λ b, edDestination <$> subs b) <$> find "A" (world r.2))
     (CreateSubscriptionsForAllServers (roundRobin 1 20) [] [server "A"] hook
        fleetNoDelete)
   = Some (Some ["http://hook/x"; "http://hook/x"])).
Proof. repeat split; vm_compute; reflexivity. Qed.

(** * The further properties on concrete runs *)

Lemma createSubscription_closes_every_session_witness :
  let tr := logOfRun (alone (createSubscription (server "A") hook) fleetDup) in
  is_run (createSubscription (server "A") hook)
    (logOfRun (alone (createSubscription (server "A") hook) fleetDup))
    (uriOf 9, None) ∧
  omap openedOf tr = ["A"; "A"; "A"] ∧
  omap closedOf tr ≡ₚ omap openedOf tr ∧
  last (omap closedOf tr) = head (omap openedOf tr).
Proof.
  assert (Hrun : is_run (createSubscription (server "A") hook)
            (logOfRun (alone (createSubscription (server "A") hook) fleetDup))
            (uriOf 9, None)).
  { apply (alone_is_run _ _ _
             (stateOf (alone (createSubscription (server "A") hook) fleetDup))).
    vm_compute. reflexivity. }
  split; [exact Hrun |]. split; [vm_compute; reflexivity |].
  exact (createSubscription_closes_every_session _ _ _ _ Hrun).
Defined.


Lemma getServerInfo_first_match_witness :
  [server "B"; server "A"; operator "A"] !! 1 = Some (server "A") ∧
  (∀ j s', j < 1 → [server "B"; server "A"; operator "A"] !! j = Some s' →
     IP s' ≠ IP (server "A")) ∧
  getServerInfo [server "B"; server "A"; operator "A"] (IP (server "A"))
  = server "A".
Proof.
  assert (Hfirst : ∀ j s', j < 1 →
            [server "B"; server "A"; operator "A"] !! j = Some s' →
            IP s' ≠ IP (server "A")).
  { intros j s' Hj. destruct j as [| j]; [| lia]. by intros [= <-]. }
  split; [reflexivity |]. split; [exact Hfirst |].
  exact (getServerInfo_first_match [server "B"; server "A"; operator "A"] 1
           (server "A") eq_refl Hfirst).
Defined.

Lemma createV1_5Subscription_request_witness :
  let tr := logOfRun (alone (@createV1_5Subscription handles "A" hook) fleetDup) in
  is_run (@createV1_5Subscription handles "A" hook)
    (logOfRun (alone (@createV1_5Subscription handles "A" hook) fleetDup))
    (uriOf 9, None) ∧
  omap createOf tr = [modernRequest hook] ∧
  length tr = 1 ∧
  omap createdOf tr = [uriOf 9] ∧
  (∀ msg, (None : option error) = Some msg →
     uriOf 9 = "" ∧
     ∃ e, msg = "failed to create v1.5 subscription: " +:+ e ∧
          Forall (λ it, it.2 = Failed e) tr) ∧
  (∀ eventTypes,
     sameRuns (@createV1_5Subscription handles "A" (withEventTypes hook eventTypes))
              (@createV1_5Subscription handles "A" hook)).
Proof.
  assert (Hrun : is_run (@createV1_5Subscription handles "A" hook)
            (logOfRun (alone (@createV1_5Subscription handles "A" hook) fleetDup))
            (uriOf 9, None)).
  { apply (alone_is_run _ _ _
             (stateOf (alone (@createV1_5Subscription handles "A" hook) fleetDup))).
    vm_compute. reflexivity. }
  split; [exact Hrun |].
  exact (createV1_5Subscription_request _ _ _ _ _ Hrun).
Defined.

Lemma cleanup_outcome_witness :
  let tr :=
    logOfRun (alone (deleteConflictingSubscriptions (server "A") hook) fleetDup)
  in
  is_run (deleteConflictingSubscriptions (server "A") hook)
    (logOfRun (alone (deleteConflictingSubscriptions (server "A") hook) fleetDup))
    None ∧
  omap reportedOf tr
  = [[held 7 "http://hook/x" ["StatusChange"] "old";
      held 8 "http://other/y" ["Alert"] "ctx"]] ∧
  length (omap connectOf tr) = 2 ∧
  match omap reportedOf tr with
  | [] =>
      is_Some (None : option error) ∧ omap deleteOf tr = [] ∧
      omap connectOf tr = [configOf (server "A")]
  | subscriptions :: more =>
      more = [] ∧
      let matching :=
        filter (λ s, edDestination s = Destination hook) subscriptions in
      length (omap connectOf tr) = 1 + length matching
  end.
Proof.
  assert (Hrun : is_run (deleteConflictingSubscriptions (server "A") hook)
            (logOfRun
               (alone (deleteConflictingSubscriptions (server "A") hook) fleetDup))
            None).
  { apply (alone_is_run _ _ _
             (stateOf (alone (deleteConflictingSubscriptions (server "A") hook)
                         fleetDup))).
    vm_compute. reflexivity. }
  split; [exact Hrun |]. split; [vm_compute; reflexivity |].
  split; [vm_compute; reflexivity |].
  exact (cleanup_outcome _ _ _ _ Hrun).
Defined.

Lemma deleteSubscriptionFromServer_result_witness :
  let tr :=
    logOfRun (alone (deleteSubscriptionFromServer (server "A") (uriOf 7))
                fleetDup) in
  is_run (deleteSubscriptionFromServer (server "A") (uriOf 7))
    (logOfRun (alone (deleteSubscriptionFromServer (server "A") (uriOf 7))
                 fleetDup))
    None ∧
  ((None : option error) = None ↔ omap deletedOf tr = [uriOf 7]) ∧
  omap connectOf tr = [configOf (server "A")] ∧
  omap closedOf tr = omap openedOf tr ∧
  (∀ msg, (None : option error) = Some msg →
     omap deletedOf tr = [] ∧
     ∃ e, msg = "failed to connect to server " +:+ IP (server "A")
                +:+ ": " +:+ e ∨
          msg = "failed to get event service on server " +:+ IP (server "A")
                +:+ ": " +:+ e ∨
          msg = "failed to delete event subscription on server "
                +:+ IP (server "A") +:+ ": " +:+ e).
Proof.
  assert (Hrun : is_run (deleteSubscriptionFromServer (server "A") (uriOf 7))
            (logOfRun (alone (deleteSubscriptionFromServer (server "A") (uriOf 7))
                         fleetDup))
            None).
  { apply (alone_is_run _ _ _
             (stateOf (alone (deleteSubscriptionFromServer (server "A") (uriOf 7))
                         fleetDup))).
    vm_compute. reflexivity. }
  split; [exact Hrun |].
  exact (deleteSubscriptionFromServer_result _ _ _ _ Hrun).
Defined.

Lemma getServerSubscriptions_result_witness :
  let tr := logOfRun (alone (getServerSubscriptions (server "A")) fleetNoList) in
  is_run (getServerSubscriptions (server "A"))
    (logOfRun (alone (getServerSubscriptions (server "A")) fleetNoList))
    (inl "failed to get event subscriptions on server A: listing failed") ∧
  (∀ subscriptions,
     (inl "failed to get event subscriptions on server A: listing failed"
      : error + list EventDestination) = inr subscriptions
     ↔ omap reportedOf tr = [subscriptions]) ∧
  omap connectOf tr = [configOf (server "A")] ∧
  omap closedOf tr = omap openedOf tr ∧
  omap deleteOf tr = [] ∧ omap createOf tr = [] ∧
  (∀ msg,
     (inl "failed to get event subscriptions on server A: listing failed"
      : error + list EventDestination) = inl msg →
     omap reportedOf tr = [] ∧
     ∃ e, msg = "failed to connect to server " +:+ IP (server "A")
                +:+ ": " +:+ e ∨
          msg = "failed to get event service on server " +:+ IP (server "A")
                +:+ ": " +:+ e ∨
          msg = "failed to get event subscriptions on server "
                +:+ IP (server "A") +:+ ": " +:+ e).
Proof.
  assert (Hrun : is_run (getServerSubscriptions (server "A"))
            (logOfRun (alone (getServerSubscriptions (server "A")) fleetNoList))
            (inl "failed to get event subscriptions on server A: listing failed")).
  { apply (alone_is_run _ _ _
             (stateOf (alone (getServerSubscriptions (server "A")) fleetNoList))).
    vm_compute. reflexivity. }
  split; [exact Hrun |].
  exact (getServerSubscriptions_result _ _ _ Hrun).
Defined.

Lemma fleet_closes_every_session_witness :
  CreateSubscriptionsForAllServers (roundRobin 3 20) (roundRobin 2 20)
    [server "A"; server "B"; server "C"] hook fleetABC
  = Some (None,
          Some ("subscription process encountered errors: "
                +:+ "[" +:+ failureMessage (server "C")
                              "failed to create legacy subscription: create rejected"
                +:+ "]"),
          stateOf runABC) ∧
  length (omap (λ ev, openedOf ev.2) (events (stateOf runABC))) = 8 ∧
  omap (λ ev, closedOf ev.2) (events (stateOf runABC))
  ≡ₚ omap (λ ev, openedOf ev.2) (events (stateOf runABC)).
Proof.
  assert (Hrun : CreateSubscriptionsForAllServers (roundRobin 3 20)
                   (roundRobin 2 20) [server "A"; server "B"; server "C"] hook
                   fleetABC
    = Some (None,
            Some ("subscription process encountered errors: "
                  +:+ "[" +:+ failureMessage (server "C")
                                "failed to create legacy subscription: create rejected"
                  +:+ "]"),
            stateOf runABC)) by (vm_compute; reflexivity).
  split; [exact Hrun |]. split; [vm_compute; reflexivity |].
  exact (fleet_closes_every_session _ _ _ _ _ _ _ _ Hrun).
Defined.

Lemma fleet_contacts_the_listed_servers_witness :
  CreateSubscriptionsForAllServers (roundRobin 3 20) (roundRobin 2 20)
    [server "A"; server "B"; server "C"] hook fleetABC
  = Some (None,
          Some ("subscription process encountered errors: "
                +:+ "[" +:+ failureMessage (server "C")
                              "failed to create legacy subscription: create rejected"
                +:+ "]"),
          stateOf runABC) ∧
  (∀ config,
     config ∈ omap (λ ev, connectOf ev.2) (events (stateOf runABC)) →
     Insecure config = true ∧
     ∃ s, s ∈ [server "A"; server "B"; server "C"] ∧ config = configOf s) ∧
  (∀ s, s ∈ [server "A"; server "B"; server "C"] →
     configOf s ∈ omap (λ ev, connectOf ev.2) (events (stateOf runABC))).
Proof.
  assert (Hrun : CreateSubscriptionsForAllServers (roundRobin 3 20)
                   (roundRobin 2 20) [server "A"; server "B"; server "C"] hook
                   fleetABC
    = Some (None,
            Some ("subscription process encountered errors: "
                  +:+ "[" +:+ failureMessage (server "C")
                                "failed to create legacy subscription: create rejected"
                  +:+ "]"),
            stateOf runABC)) by (vm_compute; reflexivity).
  split; [exact Hrun |].
  exact (fleet_contacts_the_listed_servers _ _ _ _ _ _ _ _ Hrun).
Defined.

Lemma rollback_contract_witness :
  DeleteSubscriptionsFromAllServers (roundRobin 1 10) [server "A"]
    {[ "A" := uriOf 7 ]} (createInit [] fleetDup)
  = Some undoEnd ∧
  ∃ rollback,
    events undoEnd = events (createInit [] fleetDup) ++ announcement :: rollback ∧
    Forall (λ e, isDeleteOp e.2.1 = true ∧ ∃ j, e.1 = Deleter j) rollback ∧
    omap (λ e, connectOf e.2) rollback
    ≡ₚ (λ entry, configOf (getServerInfo [server "A"] entry.1))
       <$> map_to_list ({[ "A" := uriOf 7 ]} : gmap string string) ∧
    omap (λ e, deleteOf e.2) rollback
    ⊆+ (map_to_list ({[ "A" := uriOf 7 ]} : gmap string string)).*2 ∧
    mu undoEnd = mu (createInit [] fleetDup) ∧
    subscriptionMap undoEnd = subscriptionMap (createInit [] fleetDup) ∧
    errChan undoEnd = errChan (createInit [] fleetDup).
Proof.
  assert (Hrun : DeleteSubscriptionsFromAllServers (roundRobin 1 10)
                   [server "A"] {[ "A" := uriOf 7 ]} (createInit [] fleetDup)
                 = Some undoEnd)
    by (vm_compute; reflexivity).
  split; [exact Hrun |].
  exact (rollback_contract _ _ _ _ _ Hrun).
Defined.

Lemma map_writes_are_exclusive_witness :
  exec Creator (replicate 11 0)
    (createWorker hook <$> [server "A"; server "B"; server "C"])
    (createInit [server "A"; server "B"; server "C"] fleetABC)
  = (midLocked.1, midLocked.2) ∧
  (∃ k, midLocked.1 !! 0 = Some (Vis (MapStore "A" (uriOf 1)) k)) ∧
  mu midLocked.2 = true ∧
  length (filter (λ p, inCriticalSection p = true) midLocked.1)
  ≤ (if mu midLocked.2 then 1 else 0).
Proof.
  assert (Hrun : exec Creator (replicate 11 0)
                   (createWorker hook <$> [server "A"; server "B"; server "C"])
                   (createInit [server "A"; server "B"; server "C"] fleetABC)
                 = (midLocked.1, midLocked.2)).
  { unfold midLocked. by destruct (exec _ _ _ _). }
  split; [exact Hrun |]. split; [vm_compute; eauto |].
  split; [vm_compute; reflexivity |].
  exact (map_writes_are_exclusive _ _ _ _ _ _ Hrun).
Defined.

Lemma fleet_create_accounts_for_every_server_witness :
  CreateSubscriptionsForAllServers (roundRobin 3 20) (roundRobin 2 20)
    [server "A"; server "B"; server "C"] hook fleetABC
  = Some (None,
          Some ("subscription process encountered errors: "
                +:+ "[" +:+ failureMessage (server "C")
                              "failed to create legacy subscription: create rejected"
                +:+ "]"),
          stateOf runABC) ∧
  length (stores (events (stateOf runABC))) = 2 ∧
  mu (stateOf runABC) = false ∧
  length (stores (events (stateOf runABC))) + length (errChan (stateOf runABC))
  = length [server "A"; server "B"; server "C"] ∧
  chanCap (stateOf runABC) = length [server "A"; server "B"; server "C"] ∧
  (is_Some (None : option (gmap string string))
   ↔ errChan (stateOf runABC) = []) ∧
  (is_Some (None : option (gmap string string))
   ↔ Some ("subscription process encountered errors: "
           +:+ "[" +:+ failureMessage (server "C")
                         "failed to create legacy subscription: create rejected"
           +:+ "]") = None).
Proof.
  assert (Hrun : CreateSubscriptionsForAllServers (roundRobin 3 20)
                   (roundRobin 2 20) [server "A"; server "B"; server "C"] hook
                   fleetABC
    = Some (None,
            Some ("subscription process encountered errors: "
                  +:+ "[" +:+ failureMessage (server "C")
                                "failed to create legacy subscription: create rejected"
                  +:+ "]"),
            stateOf runABC)) by (vm_compute; reflexivity).
  split; [exact Hrun |]. split; [vm_compute; reflexivity |].
  exact (fleet_create_accounts_for_every_server _ _ _ _ _ _ _ _ Hrun).
Defined.

Lemma every_created_identifier_is_stored_witness :
  CreateSubscriptionsForAllServers (roundRobin 2 20) []
    [server "A"; server "B"] hook fleetABC
  = Some (Some {[ "A" := uriOf 1; "B" := uriOf 1 ]}, None, stateOf runAB) ∧
  omap (λ ev, createdOf ev.2) (events (stateOf runAB))
  ≡ₚ (stores (events (stateOf runAB))).*2 ∧
  (∀ entries ip uri,
     Some ({[ "A" := uriOf 1; "B" := uriOf 1 ]} : gmap string string)
     = Some entries →
     entries !! ip = Some uri →
     uri ∈ omap (λ ev, createdOf ev.2) (events (stateOf runAB))).
Proof.
  assert (Hrun : CreateSubscriptionsForAllServers (roundRobin 2 20) []
                   [server "A"; server "B"] hook fleetABC
    = Some (Some {[ "A" := uriOf 1; "B" := uriOf 1 ]}, None, stateOf runAB))
    by (vm_compute; reflexivity).
  split; [exact Hrun |].
  exact (every_created_identifier_is_stored _ _ _ _ _ _ _ _ Hrun).
Defined.

Lemma fleet_create_requests_witness :
  CreateSubscriptionsForAllServers (roundRobin 2 20) []
    [server "A"; server "B"] hook fleetABC
  = Some (Some {[ "A" := uriOf 1; "B" := uriOf 1 ]}, None, stateOf runAB) ∧
  omap (λ ev, createOf ev.2) (events (stateOf runAB))
  ⊆+ replicate (length [server "A"; server "B"]) (legacyRequest hook) ∧
  Forall (λ ev, is_Some (createOf ev.2) → ∃ i, ev.1 = Creator i)
    (events (stateOf runAB)) ∧
  ((None : option error) = None →
   omap (λ ev, createOf ev.2) (events (stateOf runAB))
   = replicate (length [server "A"; server "B"]) (legacyRequest hook)).
Proof.
  assert (Hrun : CreateSubscriptionsForAllServers (roundRobin 2 20) []
                   [server "A"; server "B"] hook fleetABC
    = Some (Some {[ "A" := uriOf 1; "B" := uriOf 1 ]}, None, stateOf runAB))
    by (vm_compute; reflexivity).
  split; [exact Hrun |].
  exact (fleet_create_requests _ _ _ _ _ _ _ _ Hrun).
Defined.

Lemma result_follows_the_log_witness :
  CreateSubscriptionsForAllServers (roundRobin 3 20) (roundRobin 2 20)
    [server "A"; server "B"; server "C"] hook fleetABC
  = Some (None,
          Some ("subscription process encountered errors: "
                +:+ "[" +:+ failureMessage (server "C")
                              "failed to create legacy subscription: create rejected"
                +:+ "]"),
          stateOf runABC) ∧
  sends (events (stateOf runABC))
  = [failureMessage (server "C")
       "failed to create legacy subscription: create rejected"] ∧
  ((None : option (gmap string string)),
   Some ("subscription process encountered errors: "
         +:+ "[" +:+ failureMessage (server "C")
                       "failed to create legacy subscription: create rejected"
         +:+ "]"))
  = match sends (events (stateOf runABC)) with
    | [] => (Some (applyStores (stores (events (stateOf runABC))) ∅), None)
    | errors =>
        (None,
         Some ("subscription process encountered errors: "
               +:+ fmtStrings errors))
    end.
Proof.
  assert (Hrun : CreateSubscriptionsForAllServers (roundRobin 3 20)
                   (roundRobin 2 20) [server "A"; server "B"; server "C"] hook
                   fleetABC
    = Some (None,
            Some ("subscription process encountered errors: "
                  +:+ "[" +:+ failureMessage (server "C")
                                "failed to create legacy subscription: create rejected"
                  +:+ "]"),
            stateOf runABC)) by (vm_compute; reflexivity).
  split; [exact Hrun |]. split; [vm_compute; reflexivity |].
  exact (result_follows_the_log _ _ _ _ _ _ _ _ Hrun).
Defined.

Lemma rollback_outcome_is_not_reported_witness :
  CreateSubscriptionsForAllServers (roundRobin 3 20) (roundRobin 2 20)
    [server "A"; server "B"; server "C"] hook fleetABC
  = Some (None,
          Some ("subscription process encountered errors: "
                +:+ "[" +:+ failureMessage (server "C")
                              "failed to create legacy subscription: create rejected"
                +:+ "]"),
          stateOf runABC) ∧
  CreateSubscriptionsForAllServers (roundRobin 3 20)
    (replicate 10 1 ++ replicate 10 0)
    [server "A"; server "B"; server "C"] hook fleetABC
  = Some (None,
          Some ("subscription process encountered errors: "
                +:+ "[" +:+ failureMessage (server "C")
                              "failed to create legacy subscription: create rejected"
                +:+ "]"),
          stateOf runCBA) ∧
  events (stateOf runCBA) ≠ events (stateOf runABC) ∧
  (None : option (gmap string string)) = None ∧
  Some ("subscription process encountered errors: "
        +:+ "[" +:+ failureMessage (server "C")
                      "failed to create legacy subscription: create rejected"
        +:+ "]")
  = Some ("subscription process encountered errors: "
          +:+ "[" +:+ failureMessage (server "C")
                        "failed to create legacy subscription: create rejected"
          +:+ "]").
Proof.
  assert (Hrun : CreateSubscriptionsForAllServers (roundRobin 3 20)
                   (roundRobin 2 20) [server "A"; server "B"; server "C"] hook
                   fleetABC
    = Some (None,
            Some ("subscription process encountered errors: "
                  +:+ "[" +:+ failureMessage (server "C")
                                "failed to create legacy subscription: create rejected"
                  +:+ "]"),
            stateOf runABC)) by (vm_compute; reflexivity).
  assert (Hrun' : CreateSubscriptionsForAllServers (roundRobin 3 20)
                    (replicate 10 1 ++ replicate 10 0)
                    [server "A"; server "B"; server "C"] hook fleetABC
    = Some (None,
            Some ("subscription process encountered errors: "
                  +:+ "[" +:+ failureMessage (server "C")
                                "failed to create legacy subscription: create rejected"
                  +:+ "]"),
            stateOf runCBA)) by (vm_compute; reflexivity).
  split; [exact Hrun |]. split; [exact Hrun' |].
  split; [vm_compute; discriminate |].
  exact (rollback_outcome_is_not_reported _ _ _ _ _ _ _ _ _ _ _ _ Hrun Hrun').
Defined.

Lemma createSubscription_creates_last_witness :
  let tr := logOfRun (alone (createSubscription (server "A") hook) fleetDup) in
  let it : item :=
    did (Gofish (CreateEventSubscription ("A" : @EventService handles)
                   (Destination hook) (EventTypes hook) (HTTPHeaders hook)
                   (Protocol hook) (Context_ hook) (Oem hook)))
        (inr (uriOf 9)) in
  is_run (createSubscription (server "A") hook)
    (logOfRun (alone (createSubscription (server "A") hook) fleetDup))
    (uriOf 9, None) ∧
  tr = take 14 tr ++ it :: drop 15 tr ∧
  is_Some (createOf it) ∧
  omap deleteOf (take 14 tr) = [uriOf 7] ∧
  omap createOf (take 14 tr) = [] ∧ omap deleteOf (drop 15 tr) = [] ∧
  ∃ c, drop 15 tr = [did (Gofish (Logout c)) ()].
Proof.
  assert (Hrun : is_run (createSubscription (server "A") hook)
            (logOfRun (alone (createSubscription (server "A") hook) fleetDup))
            (uriOf 9, None)).
  { apply (alone_is_run _ _ _
             (stateOf (alone (createSubscription (server "A") hook) fleetDup))).
    vm_compute. reflexivity. }
  assert (Hsplit :
    logOfRun (alone (createSubscription (server "A") hook) fleetDup)
    = take 14 (logOfRun (alone (createSubscription (server "A") hook) fleetDup))
      ++ did (Gofish (CreateEventSubscription ("A" : @EventService handles)
                        (Destination hook) (EventTypes hook) (HTTPHeaders hook)
                        (Protocol hook) (Context_ hook) (Oem hook)))
             (inr (uriOf 9))
         :: drop 15 (logOfRun (alone (createSubscription (server "A") hook)
                                 fleetDup)))
    by (vm_compute; reflexivity).
  assert (Hit : is_Some (createOf
    (did (Gofish (CreateEventSubscription ("A" : @EventService handles)
                    (Destination hook) (EventTypes hook) (HTTPHeaders hook)
                    (Protocol hook) (Context_ hook) (Oem hook)))
         (inr (uriOf 9))))) by (by eexists).
  split; [exact Hrun |]. split; [exact Hsplit |]. split; [exact Hit |].
  split; [vm_compute; reflexivity |].
  exact (createSubscription_creates_last _ _ _ _ _ _ _ Hrun Hsplit Hit).
Defined.
